(** * A red-black tree with parent pointers (package gostl), modelled over an
    explicit node store.

    The Go code links nodes through [parent], [left] and [right] pointers and
    mutates them in place.  The model keeps that shape: a tree is a record
    with a store of nodes (a finite map from addresses to node records), a
    root pointer, a size counter and the key comparator; every method is a
    computation in a state-and-failure monad over that record.  A nil
    dereference is the outcome [Panic]; loops and recursive descents take a
    fuel argument and yield [OutOfFuel] when it runs out. *)

From Stdlib Require Import ZArith Lia.
From stdpp Require Import base option list gmap sorting.

Set Default Proof Using "Type".
Set Warnings "-clear-no-such-hyp,-level-tolerance".
Local Open Scope Z_scope.

(** ** Machine integers: Go's [int] on a 64-bit platform *)

Definition int_min : Z := - 2 ^ 63.
Definition int_max : Z := 2 ^ 63 - 1.

(** Two's complement wrap-around of a mathematical integer into [int]. *)
Definition int_wrap (z : Z) : Z := (z + 2 ^ 63) mod 2 ^ 64 - 2 ^ 63.

(** ** Outcomes *)

Inductive result (A : Type) : Type :=
  | Ok (a : A)
  | Panic
  | OutOfFuel.
Arguments Ok {A} a.
Arguments Panic {A}.
Arguments OutOfFuel {A}.

(** ** Nodes and the store *)

Abbreviation addr := positive (only parsing).
Abbreviation ptr := (option positive) (only parsing).

(** [type Color bool] with [RED = false], [BLACK = true]. *)
Abbreviation Color := bool (only parsing).
Abbreviation RED := false (only parsing).
Abbreviation BLACK := true (only parsing).

Record Node (K V : Type) : Type := mkNode {
  parent : ptr;
  left : ptr;
  right : ptr;
  color : Color;
  key : K;
  value : V
}.
Arguments mkNode {K V}.
Arguments parent {K V}.
Arguments left {K V}.
Arguments right {K V}.
Arguments color {K V}.
Arguments key {K V}.
Arguments value {K V}.

Record RbTree (K V : Type) : Type := mkRbTree {
  heap : gmap positive (Node K V);
  root : ptr;
  size : Z;
  keyCmp : K → K → Z
}.
Arguments mkRbTree {K V}.
Arguments heap {K V}.
Arguments root {K V}.
Arguments size {K V}.
Arguments keyCmp {K V}.

(** The iterator holds one node pointer. *)
Record RbTreeIterator : Type := mkIter { node : ptr }.

(** A value of the interface type [ConstIterator[V]]: a pointer to one of
    this package's tree iterators, a nil pointer of that type, or a value of
    some other dynamic type (the nil interface included). *)
Inductive ConstIterator : Type :=
  | TreeIter (it : RbTreeIterator)
  | NilTreeIter
  | ForeignIter.

(** [errors.New("not found")] and [fmt.Errorf("violate property %v", p)]. *)
Inductive error : Type :=
  | ErrorNotFound
  | ErrViolateProperty (property : Z).

(** ** The monad of tree methods *)

Definition M (K V A : Type) : Type := RbTree K V → result (A * RbTree K V).

Definition ret {K V A} (a : A) : M K V A := λ s, Ok (a, s).

Definition bind {K V A B} (m : M K V A) (f : A → M K V B) : M K V B := λ s,
  match m s with
  | Ok (a, s') => f a s'
  | Panic => Panic
  | OutOfFuel => OutOfFuel
  end.

Definition out_of_fuel {K V A} : M K V A := λ _, OutOfFuel.

Declare Scope rb_scope.
Delimit Scope rb_scope with rb.
Notation "x ← m ; k" := (bind m (λ x, k))
  (at level 20, m at level 100, k at level 200, only parsing) : rb_scope.
Notation "m ;; k" := (bind m (λ _, k))
  (at level 100, k at level 200, right associativity, only parsing) : rb_scope.
Notation "' pat ← m ; k" := (bind m (λ x, match x with pat => k end))
  (at level 20, pat pattern, m at level 100, k at level 200, only parsing) : rb_scope.
Local Open Scope rb_scope.

Section Code.
Context {K V : Type}.
Local Abbreviation M := (M K V).

(** *** Field access through a pointer *)

(** Reading [p.f]: panics when [p] is nil. *)
Definition load (p : ptr) : M (Node K V) := λ s,
  match p with
  | Some a => match heap s !! a with Some n => Ok (n, s) | None => Panic end
  | None => Panic
  end.

(** Writing [p.f = ...]: panics when [p] is nil. *)
Definition store (p : ptr) (f : Node K V → Node K V) : M unit := λ s,
  match p with
  | Some a =>
      match heap s !! a with
      | Some n => Ok (tt, mkRbTree (<[a := f n]> (heap s)) (root s) (size s) (keyCmp s))
      | None => Panic
      end
  | None => Panic
  end.

Definition get_parent (p : ptr) : M ptr := n ← load p; ret (parent n).
Definition get_left (p : ptr) : M ptr := n ← load p; ret (left n).
Definition get_right (p : ptr) : M ptr := n ← load p; ret (right n).
Definition get_color (p : ptr) : M Color := n ← load p; ret (color n).
Definition get_key (p : ptr) : M K := n ← load p; ret (key n).
Definition get_value (p : ptr) : M V := n ← load p; ret (value n).

Definition set_parent (p q : ptr) : M unit :=
  store p (λ n, mkNode q (left n) (right n) (color n) (key n) (value n)).
Definition set_left (p q : ptr) : M unit :=
  store p (λ n, mkNode (parent n) q (right n) (color n) (key n) (value n)).
Definition set_right (p q : ptr) : M unit :=
  store p (λ n, mkNode (parent n) (left n) q (color n) (key n) (value n)).
Definition set_color (p : ptr) (c : Color) : M unit :=
  store p (λ n, mkNode (parent n) (left n) (right n) c (key n) (value n)).
Definition set_key (p : ptr) (k : K) : M unit :=
  store p (λ n, mkNode (parent n) (left n) (right n) (color n) k (value n)).
Definition set_value (p : ptr) (v : V) : M unit :=
  store p (λ n, mkNode (parent n) (left n) (right n) (color n) (key n) v).

(** [&Node{...}]: a node at an address the store does not use yet. *)
Definition alloc (n : Node K V) : M ptr := λ s,
  let a := fresh (dom (heap s)) in
  Ok (Some a, mkRbTree (<[a := n]> (heap s)) (root s) (size s) (keyCmp s)).

(** *** Fields of the tree *)

Definition get_root : M ptr := λ s, Ok (root s, s).
Definition set_root (p : ptr) : M unit := λ s,
  Ok (tt, mkRbTree (heap s) p (size s) (keyCmp s)).
Definition get_size : M Z := λ s, Ok (size s, s).
Definition set_size (z : Z) : M unit := λ s,
  Ok (tt, mkRbTree (heap s) (root s) z (keyCmp s)).
Definition get_keyCmp : M (K → K → Z) := λ s, Ok (keyCmp s, s).

(** [p != nil] *)
Definition nonnil (p : ptr) : bool := match p with Some _ => true | None => false end.

(** [p == q] on pointers. *)
Definition ptr_eqb (p q : ptr) : bool := bool_decide (p = q).

(** ** Node methods and navigation *)

(** [func (n *Node) Key() K], [Value() V], [SetValue(val V)]. *)
Definition Node_Key (n : ptr) : M K := get_key n.
Definition Node_Value (n : ptr) : M V := get_value n.
Definition Node_SetValue (n : ptr) (val : V) : M unit := set_value n val.

(** [minimum]: [for n.left != nil { n = n.left }; return n]. *)
Fixpoint minimum (fuel : nat) (n : ptr) : M ptr :=
  match fuel with
  | O => out_of_fuel
  | S fuel =>
      l ← get_left n;
      if nonnil l then minimum fuel l else ret n
  end.

(** [maximum]: [for n.right != nil { n = n.right }; return n]. *)
Fixpoint maximum (fuel : nat) (n : ptr) : M ptr :=
  match fuel with
  | O => out_of_fuel
  | S fuel =>
      r ← get_right n;
      if nonnil r then maximum fuel r else ret n
  end.

(** The loop of [successor]:
    [for y != nil && x == y.right { x = y; y = x.parent }; return y]. *)
Fixpoint successor_loop (fuel : nat) (x y : ptr) : M ptr :=
  match fuel with
  | O => out_of_fuel
  | S fuel =>
      if nonnil y then
        yr ← get_right y;
        if ptr_eqb x yr then
          let x := y in
          y ← get_parent x;
          successor_loop fuel x y
        else ret y
      else ret y
  end.

Definition successor (fuel : nat) (x : ptr) : M ptr :=
  xr ← get_right x;
  if nonnil xr then minimum fuel xr
  else
    y ← get_parent x;
    successor_loop fuel x y.

(** The loop of [presuccessor]:
    [for x.parent != nil && x.parent.left == x { x = x.parent }; return x.parent]. *)
Fixpoint presuccessor_loop (fuel : nat) (x : ptr) : M ptr :=
  match fuel with
  | O => out_of_fuel
  | S fuel =>
      xp ← get_parent x;
      if nonnil xp then
        xpl ← get_left xp;
        if ptr_eqb xpl x then presuccessor_loop fuel xp
        else ret xp
      else ret xp
  end.

Definition presuccessor (fuel : nat) (x : ptr) : M ptr :=
  xl ← get_left x;
  if nonnil xl then maximum fuel xl
  else
    xp ← get_parent x;
    if nonnil xp then
      xpr ← get_right xp;
      if ptr_eqb xpr x then ret xp
      else presuccessor_loop fuel x
    else ret None.

(** [func (n *Node) Next()] and [Prev()]. *)
Definition Node_Next (fuel : nat) (n : ptr) : M ptr := successor fuel n.
Definition Node_Prev (fuel : nat) (n : ptr) : M ptr := presuccessor fuel n.

(** [getColor]: nil counts as BLACK. *)
Definition getColor (n : ptr) : M Color :=
  if nonnil n then get_color n else ret BLACK.

(** ** The iterator *)

Definition NewIterator (n : ptr) : RbTreeIterator := mkIter n.

Definition IsValid (iter : RbTreeIterator) : bool := nonnil (node iter).

Definition Next (fuel : nat) (iter : RbTreeIterator) : M RbTreeIterator :=
  if IsValid iter then
    n ← Node_Next fuel (node iter);
    ret (mkIter n)
  else ret iter.

Definition Prev (fuel : nat) (iter : RbTreeIterator) : M RbTreeIterator :=
  if IsValid iter then
    n ← Node_Prev fuel (node iter);
    ret (mkIter n)
  else ret iter.

Definition Key (iter : RbTreeIterator) : M K := Node_Key (node iter).
Definition Value (iter : RbTreeIterator) : M V := Node_Value (node iter).

(** [SetValue] returns the error [nil], here [None]. *)
Definition SetValue (iter : RbTreeIterator) (val : V) : M (option error) :=
  Node_SetValue (node iter) val;;
  ret None.

Definition Clone (iter : RbTreeIterator) : RbTreeIterator := NewIterator (node iter).

(** The type assertion succeeds on a nil [*RbTreeIterator] as well, and
    reading [otherIter.node] through it panics. *)
Definition Equal (iter : RbTreeIterator) (other : ConstIterator) : result bool :=
  match other with
  | ForeignIter => Ok false
  | NilTreeIter => Panic
  | TreeIter otherIter => if ptr_eqb (node otherIter) (node iter) then Ok true else Ok false
  end.

(** ** The tree *)

Definition New (cmp : K → K → Z) : RbTree K V := mkRbTree ∅ None 0 cmp.

Definition Clear : M unit := set_root None;; set_size 0.

Definition Compare (key1 key2 : K) : M Z := cmp ← get_keyCmp; ret (cmp key1 key2).

Definition First (fuel : nat) : M ptr :=
  r ← get_root;
  if nonnil r then minimum fuel r else ret None.

Definition Begin (fuel : nat) : M ptr := First fuel.

Definition Last (fuel : nat) : M ptr :=
  r ← get_root;
  if nonnil r then maximum fuel r else ret None.

Definition RBegin (fuel : nat) : M ptr := Last fuel.

Definition IterFirst (fuel : nat) : M RbTreeIterator :=
  n ← First fuel; ret (NewIterator n).

Definition IterLast (fuel : nat) : M RbTreeIterator :=
  n ← Last fuel; ret (NewIterator n).

Definition Empty : M bool := z ← get_size; ret (z =? 0).
Definition Size : M Z := get_size.

(** *** Rotations *)

Definition leftRotate (x : ptr) : M unit :=
  y ← get_right x;
  yl ← get_left y;
  set_right x yl;;
  yl ← get_left y;
  (if nonnil yl then set_parent yl x else ret tt);;
  xp ← get_parent x;
  set_parent y xp;;
  xp ← get_parent x;
  (if nonnil xp then
     xpl ← get_left xp;
     if ptr_eqb x xpl then set_left xp y else set_right xp y
   else set_root y);;
  set_left y x;;
  set_parent x y.

Definition rightRotate (x : ptr) : M unit :=
  y ← get_left x;
  yr ← get_right y;
  set_left x yr;;
  yr ← get_right y;
  (if nonnil yr then set_parent yr x else ret tt);;
  xp ← get_parent x;
  set_parent y xp;;
  xp ← get_parent x;
  (if nonnil xp then
     xpr ← get_right xp;
     if ptr_eqb x xpr then set_right xp y else set_left xp y
   else set_root y);;
  set_right y x;;
  set_parent x y.

(** *** Insertion *)

(** The loop condition of [rbInsertFixup]: [z.parent != nil && !z.parent.color]. *)
Definition parent_is_red (z : ptr) : M bool :=
  zp ← get_parent z;
  if nonnil zp then c ← get_color zp; ret (negb c) else ret false.

(** [y != nil && !y.color] *)
Definition is_red (y : ptr) : M bool :=
  if nonnil y then c ← get_color y; ret (negb c) else ret false.

(** The [for] loop of [rbInsertFixup]. *)
Fixpoint rbInsertFixup_loop (fuel : nat) (z : ptr) : M unit :=
  match fuel with
  | O => out_of_fuel
  | S fuel =>
      b ← parent_is_red z;
      if b then
        zp ← get_parent z; zpp ← get_parent zp; zppl ← get_left zpp;
        if ptr_eqb zp zppl then
          zp ← get_parent z; zpp ← get_parent zp;
          y ← get_right zpp;
          yred ← is_red y;
          if yred then
            zp ← get_parent z; set_color zp BLACK;;
            set_color y BLACK;;
            zp ← get_parent z; zpp ← get_parent zp; set_color zpp RED;;
            zp ← get_parent z; zpp ← get_parent zp;
            rbInsertFixup_loop fuel zpp
          else
            zp ← get_parent z; zpr ← get_right zp;
            z ← (if ptr_eqb z zpr then leftRotate zp;; ret zp else ret z);
            zp ← get_parent z; set_color zp BLACK;;
            zp ← get_parent z; zpp ← get_parent zp; set_color zpp RED;;
            zp ← get_parent z; zpp ← get_parent zp; rightRotate zpp;;
            rbInsertFixup_loop fuel z
        else
          zp ← get_parent z; zpp ← get_parent zp;
          y ← get_left zpp;
          yred ← is_red y;
          if yred then
            zp ← get_parent z; set_color zp BLACK;;
            set_color y BLACK;;
            zp ← get_parent z; zpp ← get_parent zp; set_color zpp RED;;
            zp ← get_parent z; zpp ← get_parent zp;
            rbInsertFixup_loop fuel zpp
          else
            zp ← get_parent z; zpl ← get_left zp;
            z ← (if ptr_eqb z zpl then rightRotate zp;; ret zp else ret z);
            zp ← get_parent z; set_color zp BLACK;;
            zp ← get_parent z; zpp ← get_parent zp; set_color zpp RED;;
            zp ← get_parent z; zpp ← get_parent zp; leftRotate zpp;;
            rbInsertFixup_loop fuel z
      else ret tt
  end.

Definition rbInsertFixup (fuel : nat) (z : ptr) : M unit :=
  rbInsertFixup_loop fuel z;;
  r ← get_root;
  set_color r BLACK.

(** The descent of [Insert]: [for x != nil { y = x; ... }], returning [y]. *)
Fixpoint Insert_loop (fuel : nat) (k : K) (x y : ptr) : M ptr :=
  match fuel with
  | O => out_of_fuel
  | S fuel =>
      if nonnil x then
        let y := x in
        cmp ← get_keyCmp;
        xk ← get_key x;
        if cmp k xk <? 0 then
          xl ← get_left x; Insert_loop fuel k xl y
        else
          xr ← get_right x; Insert_loop fuel k xr y
      else ret y
  end.

Definition Insert (fuel : nat) (k : K) (v : V) : M unit :=
  x ← get_root;
  y ← Insert_loop fuel k x None;
  z ← alloc (mkNode y None None RED k v);
  sz ← get_size; set_size (int_wrap (sz + 1));;
  if nonnil y then
    cmp ← get_keyCmp;
    zk ← get_key z; yk ← get_key y;
    (if cmp zk yk <? 0 then set_left y z else set_right y z);;
    rbInsertFixup fuel z
  else
    set_color z BLACK;;
    set_root z.

(** *** Deletion *)

Definition rbFixupLeft (x parent w : ptr) : M (ptr * ptr) :=
  w ← get_right parent;
  wc ← get_color w;
  w ← (if negb wc then
         set_color w BLACK;;
         set_color parent RED;;
         leftRotate parent;;
         get_right parent
       else ret w);
  wl ← get_left w; cl ← getColor wl;
  both ← (if cl then wr ← get_right w; getColor wr else ret false);
  if both then
    set_color w RED;;
    ret (parent, w)
  else
    wr ← get_right w; cr ← getColor wr;
    w ← (if cr then
           wl ← get_left w;
           (if nonnil wl then set_color wl BLACK else ret tt);;
           set_color w RED;;
           rightRotate w;;
           get_right parent
         else ret w);
    pc ← get_color parent; set_color w pc;;
    set_color parent BLACK;;
    wr ← get_right w;
    (if nonnil wr then set_color wr BLACK else ret tt);;
    leftRotate parent;;
    r ← get_root;
    ret (r, w).

Definition rbFixupRight (x parent w : ptr) : M (ptr * ptr) :=
  w ← get_left parent;
  wc ← get_color w;
  w ← (if negb wc then
         set_color w BLACK;;
         set_color parent RED;;
         rightRotate parent;;
         get_left parent
       else ret w);
  wl ← get_left w; cl ← getColor wl;
  both ← (if cl then wr ← get_right w; getColor wr else ret false);
  if both then
    set_color w RED;;
    ret (parent, w)
  else
    wl ← get_left w; cl ← getColor wl;
    w ← (if cl then
           wr ← get_right w;
           (if nonnil wr then set_color wr BLACK else ret tt);;
           set_color w RED;;
           leftRotate w;;
           get_left parent
         else ret w);
    pc ← get_color parent; set_color w pc;;
    set_color parent BLACK;;
    wl ← get_left w;
    (if nonnil wl then set_color wl BLACK else ret tt);;
    rightRotate parent;;
    r ← get_root;
    ret (r, w).

(** The loop condition of [rbDeleteFixup]: [x != t.root && getColor(x)]. *)
Definition deficient (x : ptr) : M bool :=
  r ← get_root;
  if negb (ptr_eqb x r) then getColor x else ret false.

(** The [for] loop of [rbDeleteFixup], returning the final [x]. *)
Fixpoint rbDeleteFixup_loop (fuel : nat) (x parent w : ptr) : M ptr :=
  match fuel with
  | O => out_of_fuel
  | S fuel =>
      b ← deficient x;
      if b then
        parent ← (if nonnil x then get_parent x else ret parent);
        pl ← get_left parent;
        if ptr_eqb x pl then
          '(x, w) ← rbFixupLeft x parent w;
          rbDeleteFixup_loop fuel x parent w
        else
          '(x, w) ← rbFixupRight x parent w;
          rbDeleteFixup_loop fuel x parent w
      else ret x
  end.

Definition rbDeleteFixup (fuel : nat) (x parent : ptr) : M unit :=
  x ← rbDeleteFixup_loop fuel x parent None;
  if nonnil x then set_color x BLACK else ret tt.

Definition Delete (fuel : nat) (node : ptr) : M unit :=
  let z := node in
  if nonnil z then
    zl ← get_left z; zr ← get_right z;
    y ← (if nonnil zl && nonnil zr then successor fuel z else ret z);
    yl ← get_left y;
    x ← (if nonnil yl then ret yl else get_right y);
    xparent ← get_parent y;
    (if nonnil x then set_parent x xparent else ret tt);;
    yp ← get_parent y;
    (if nonnil yp then
       ypl ← get_left yp;
       if ptr_eqb y ypl then set_left yp x else set_right yp x
     else set_root x);;
    (if negb (ptr_eqb y z) then
       yk ← get_key y; set_key z yk;;
       yv ← get_value y; set_value z yv
     else ret tt);;
    yc ← get_color y;
    (if yc then rbDeleteFixup fuel x xparent else ret tt);;
    sz ← get_size; set_size (int_wrap (sz - 1))
  else ret tt.

(** *** Search *)

Fixpoint findLowerBoundNode (fuel : nat) (x : ptr) (k : K) : M ptr :=
  match fuel with
  | O => out_of_fuel
  | S fuel =>
      if nonnil x then
        cmp ← get_keyCmp;
        xk ← get_key x;
        if cmp k xk <=? 0 then
          xl ← get_left x;
          r ← findLowerBoundNode fuel xl k;
          if nonnil r then
            rk ← get_key r; xk ← get_key x;
            if cmp rk xk <=? 0 then ret r else ret x
          else ret x
        else
          xr ← get_right x;
          findLowerBoundNode fuel xr k
      else ret None
  end.

Definition FindLowerBoundNode (fuel : nat) (k : K) : M ptr :=
  r ← get_root; findLowerBoundNode fuel r k.

Fixpoint findUpperBoundNode (fuel : nat) (x : ptr) (k : K) : M ptr :=
  match fuel with
  | O => out_of_fuel
  | S fuel =>
      if nonnil x then
        cmp ← get_keyCmp;
        xk ← get_key x;
        if cmp k xk >=? 0 then
          xr ← get_right x;
          findUpperBoundNode fuel xr k
        else
          xl ← get_left x;
          r ← findUpperBoundNode fuel xl k;
          if nonnil r then
            rk ← get_key r; xk ← get_key x;
            if cmp rk xk <=? 0 then ret r else ret x
          else ret x
      else ret None
  end.

Definition FindUpperBoundNode (fuel : nat) (k : K) : M ptr :=
  r ← get_root; findUpperBoundNode fuel r k.

Definition findFirstNode (fuel : nat) (k : K) : M ptr :=
  n ← FindLowerBoundNode fuel k;
  if nonnil n then
    cmp ← get_keyCmp;
    nk ← get_key n;
    if cmp nk k =? 0 then ret n else ret None
  else ret None.

(** [Find] returns [(value, nil)] or [(zero value of V, ErrorNotFound)]. *)
Definition Find (zero : V) (fuel : nat) (k : K) : M (V * option error) :=
  n ← findFirstNode fuel k;
  if nonnil n then v ← get_value n; ret (v, None)
  else ret (zero, Some ErrorNotFound).

Definition FindNode (fuel : nat) (k : K) : M ptr := findFirstNode fuel k.

(** [findNode]: the plain descent, first equal key met on the way down. *)
Fixpoint findNode_loop (fuel : nat) (x : ptr) (k : K) : M ptr :=
  match fuel with
  | O => out_of_fuel
  | S fuel =>
      if nonnil x then
        cmp ← get_keyCmp;
        xk ← get_key x;
        if cmp k xk <? 0 then
          xl ← get_left x; findNode_loop fuel xl k
        else
          xk ← get_key x;
          if cmp k xk =? 0 then ret x
          else xr ← get_right x; findNode_loop fuel xr k
      else ret None
  end.

Definition findNode (fuel : nat) (k : K) : M ptr :=
  x ← get_root; findNode_loop fuel x k.

(** *** Traversal *)

(** The visitor is a Go closure: it is given the key and the value, answers
    whether to go on, and may update what it has captured.  The captured
    state is the accumulator [A]. *)
Fixpoint Traversal_loop {A} (fuel : nat) (visitor : K → V → A → bool * A)
    (n : ptr) (acc : A) : M A :=
  match fuel with
  | O => out_of_fuel
  | S fuel =>
      if nonnil n then
        k ← get_key n; v ← get_value n;
        let '(go, acc) := visitor k v acc in
        if negb go then ret acc
        else
          n ← Node_Next fuel n;
          Traversal_loop fuel visitor n acc
      else ret acc
  end.

Definition Traversal {A} (fuel : nat) (visitor : K → V → A → bool * A) (acc : A) : M A :=
  n ← First fuel;
  Traversal_loop fuel visitor n acc.

(** *** The invariant checker *)

Fixpoint test (fuel : nat) (n : ptr) : M (Z * Z * bool) :=
  match fuel with
  | O => out_of_fuel
  | S fuel =>
      if nonnil n then
        r ← get_root;
        isred ← (if ptr_eqb n r then c ← get_color n; ret (negb c) else ret false);
        if isred then ret (1, 2, false)
        else
          nl ← get_left n;
          '(leftBlackCount, property, ok) ← test fuel nl;
          if negb ok then ret (leftBlackCount, property, ok)
          else
            nr ← get_right n;
            '(rightBlackCount, property, ok) ← test fuel nr;
            if negb ok then ret (rightBlackCount, property, ok)
            else if negb (rightBlackCount =? leftBlackCount) then ret (leftBlackCount, 5, false)
            else
              let blackCount := leftBlackCount in
              c ← get_color n;
              if negb c then
                nl ← get_left n; cl ← getColor nl;
                bad ← (if negb cl then ret true else nr ← get_right n; cr ← getColor nr; ret (negb cr));
                if bad then ret (0, 4, false)
                else ret (blackCount, 0, true)
              else
                let blackCount := int_wrap (blackCount + 1) in
                ret (blackCount, 0, true)
      else ret (1, 0, true)
  end.

Definition IsRbTree (fuel : nat) : M (bool * option error) :=
  r ← get_root;
  '(_, property, ok) ← test fuel r;
  if negb ok then ret (false, Some (ErrViolateProperty property))
  else ret (true, None).

End Code.

(** * Distinct addresses

    Lists of addresses are built from single addresses and from the address
    lists of subtrees.  That such a list has no duplicates splits into facts
    about its parts; the rewriting base [nodup] performs the split. *)

Definition ldisj (l k : list positive) : Prop := ∀ x, x ∈ l → x ∈ k → False.

(** * The shape of the store: trees of addressed nodes, and one-hole contexts *)

Section Shape.
Context {K V : Type}.
Local Abbreviation M := (M K V).

(** A binary tree whose nodes carry their address in the store. *)
Inductive tree : Type :=
  | E
  | T (a : addr) (c : Color) (l : tree) (k : K) (v : V) (r : tree).

(** A node with a hole for one child, and the sibling subtree. *)
Inductive frame : Type :=
  | FL (a : addr) (c : Color) (k : K) (v : V) (r : tree)
  | FR (a : addr) (c : Color) (l : tree) (k : K) (v : V).

Definition ptr_of (t : tree) : ptr :=
  match t with E => None | T a _ _ _ _ _ => Some a end.

(** Addresses of a tree, in symmetric order. *)
Fixpoint addrs (t : tree) : list addr :=
  match t with
  | E => []
  | T a _ l _ _ r => addrs l ++ a :: addrs r
  end.

(** Entries (address, key, value) of a tree, in symmetric order. *)
Fixpoint inorder (t : tree) : list (addr * K * V) :=
  match t with
  | E => []
  | T a _ l k v r => inorder l ++ (a, k, v) :: inorder r
  end.

Definition fill (f : frame) (t : tree) : tree :=
  match f with
  | FL a c k v r => T a c t k v r
  | FR a c l k v => T a c l k v t
  end.

(** Contexts list their frames innermost first. *)
Fixpoint plug (ctx : list frame) (t : tree) : tree :=
  match ctx with
  | [] => t
  | f :: ctx => plug ctx (fill f t)
  end.

Definition faddr (f : frame) : addr :=
  match f with FL a _ _ _ _ => a | FR a _ _ _ _ => a end.

Definition fcolor (f : frame) : Color :=
  match f with FL _ c _ _ _ => c | FR _ c _ _ _ => c end.

Definition fsib (f : frame) : tree :=
  match f with FL _ _ _ _ r => r | FR _ _ l _ _ => l end.

Definition faddrs (f : frame) : list addr := faddr f :: addrs (fsib f).

Fixpoint caddrs (ctx : list frame) : list addr :=
  match ctx with
  | [] => []
  | f :: ctx => faddrs f ++ caddrs ctx
  end.

Definition cpar (ctx : list frame) : ptr :=
  match ctx with [] => None | f :: _ => Some (faddr f) end.

(** The node record a frame stands for, given the pointer in its hole and
    its own parent pointer. *)
Definition fnode (f : frame) (hp par : ptr) : Node K V :=
  match f with
  | FL a c k v r => mkNode par hp (ptr_of r) c k v
  | FR a c l k v => mkNode par (ptr_of l) hp c k v
  end.

(** The store holds tree [t] below a node whose address is [par]. *)
Fixpoint own (h : gmap positive (Node K V)) (par : ptr) (t : tree) : Prop :=
  match t with
  | E => True
  | T a c l k v r =>
      h !! a = Some (mkNode par (ptr_of l) (ptr_of r) c k v)
      ∧ own h (Some a) l ∧ own h (Some a) r
  end.

(** The store holds context [ctx] above a hole that contains pointer [hp];
    [rt] is the root pointer of the whole tree. *)
Fixpoint cown (h : gmap positive (Node K V)) (rt hp : ptr) (ctx : list frame) : Prop :=
  match ctx with
  | [] => rt = hp
  | f :: rest =>
      h !! faddr f = Some (fnode f hp (cpar rest))
      ∧ own h (Some (faddr f)) (fsib f)
      ∧ cown h rt (Some (faddr f)) rest
  end.

(** The state holds the tree [plug ctx t], seen from the position of [t]. *)
Definition Inv (sz : Z) (cmp : K → K → Z) (s : RbTree K V)
    (ctx : list frame) (t : tree) : Prop :=
  size s = sz ∧ keyCmp s = cmp
  ∧ NoDup (addrs t ++ caddrs ctx)
  ∧ cown (heap s) (root s) (ptr_of t) ctx
  ∧ own (heap s) (cpar ctx) t.

End Shape.

Section WP.
Context {K V : Type}.
Implicit Types (t l r : @tree K V) (ctx : list (@frame K V)) (s : RbTree K V).

(** [wp m Q s]: from state [s], [m] returns normally (no panic, fuel not
    exhausted) with a result and a final state that satisfy [Q]. *)
Definition wp {A} (m : M K V A) (Q : A → RbTree K V → Prop) (s : RbTree K V) : Prop :=
  ∃ a s', m s = Ok (a, s') ∧ Q a s'.

(** ** Unlinking a node with at most one child *)

(** The statements of [Delete] that put [x], the only child of [y] (or nil),
    in the place of [y]. *)
Definition splice (y x xparent : ptr) : M K V unit :=
  (if nonnil x then set_parent x xparent else ret tt);;
  yp ← get_parent y;
  if nonnil yp then
    ypl ← get_left yp;
    if ptr_eqb y ypl then set_left yp x else set_right yp x
  else set_root x.

End WP.

(** * Red-black trees and red-black contexts *)

Section RB.
Context {K V : Type}.
Implicit Types (t l r : @tree K V) (f : @frame K V) (ctx : list (@frame K V)).

(** Colour of the root; the empty tree counts as black. *)
Definition tcolor t : Color :=
  match t with E => BLACK | T _ c _ _ _ _ => c end.

(** [rb n t]: no red node of [t] has a red child, and every path from the
    root of [t] to a leaf passes [n] black nodes. *)
Fixpoint rb (n : nat) t : Prop :=
  match t with
  | E => n = 0%nat
  | T _ c l _ _ r =>
      if c then ∃ m, n = S m ∧ rb m l ∧ rb m r
      else tcolor l = BLACK ∧ tcolor r = BLACK ∧ rb n l ∧ rb n r
  end.

(** The five properties, as [IsRbTree] checks them: black root, no red node
    with a red child, equal black height on all paths. *)
Definition is_rbtree t : Prop := tcolor t = BLACK ∧ ∃ n, rb n t.

Definition ccolor ctx : Color :=
  match ctx with [] => BLACK | f :: _ => fcolor f end.

(** [crb n ctx]: the context is red-black around a hole of black height [n]
    and its outermost node is black. *)
Fixpoint crb (n : nat) ctx : Prop :=
  match ctx with
  | [] => True
  | f :: rest =>
      rb n (fsib f) ∧
      if fcolor f then crb (S n) rest
      else tcolor (fsib f) = BLACK ∧ ccolor rest = BLACK ∧ rest ≠ [] ∧ crb n rest
  end.

Definition blacken t : tree :=
  match t with E => E | T a _ l k v r => T a BLACK l k v r end.

(** ** In-order entries of a plugged tree *)

Fixpoint cbefore ctx : list (addr * K * V) :=
  match ctx with
  | [] => []
  | FL _ _ _ _ _ :: rest => cbefore rest
  | FR a _ l k v :: rest => cbefore rest ++ inorder l ++ [(a, k, v)]
  end.

Fixpoint cafter ctx : list (addr * K * V) :=
  match ctx with
  | [] => []
  | FL a _ k v r :: rest => (a, k, v) :: inorder r ++ cafter rest
  | FR _ _ _ _ _ :: rest => cafter rest
  end.

(** Frames up to the key and value they carry. *)
Definition frame_sim f g : Prop :=
  faddr f = faddr g ∧ fcolor f = fcolor g ∧ fsib f = fsib g.

Definition is_FL f : Prop := match f with FL _ _ _ _ _ => True | FR _ _ _ _ _ => False end.
Definition is_FR f : Prop := match f with FL _ _ _ _ _ => False | FR _ _ _ _ _ => True end.

Fixpoint height t : nat :=
  match t with E => 0 | T _ _ l _ _ r => S (height l `max` height r) end.

End RB.

(** * Insert and its fixup *)

Section InsertFixup.
Context {K V : Type}.
Implicit Types (t l r : @tree K V) (f : @frame K V) (ctx : list (@frame K V)) (s : RbTree K V).

(** ** The descent of [Insert] *)

(** The context of the leaf position that the descent reaches. *)
Fixpoint ins_ctx (cmp : K → K → Z) (k : K) t ctx : list frame :=
  match t with
  | E => ctx
  | T a c l ka va r =>
      if cmp k ka <? 0 then ins_ctx cmp k l (FL a c ka va r :: ctx)
      else ins_ctx cmp k r (FR a c l ka va :: ctx)
  end.

(** The comparisons made on the way down. *)
Definition frame_path (cmp : K → K → Z) (k : K) f : Prop :=
  match f with
  | FL _ _ ka _ _ => cmp k ka < 0
  | FR _ _ _ ka _ => ¬ cmp k ka < 0
  end.

End InsertFixup.

(** * The two sides of the delete fixup *)

Section DeleteFixup.
Context {K V : Type}.
Implicit Types (t l r : @tree K V) (f : @frame K V) (ctx : list (@frame K V)) (s : RbTree K V).

(** The subtree in the hole is one black node short: either it is black of
    height [n] where [S n] is due, or it is red and blackening it repairs
    the height. *)
Definition def_ok (n : nat) t : Prop :=
  (tcolor t = BLACK ∧ rb n t) ∨ (tcolor t = RED ∧ rb (S n) (blacken t)).

(** What one round of the fixup loop establishes. *)
Definition fix_post sz cmp (progress : list frame → tree → Prop) (whole : tree)
    (res : ptr * ptr) s' : Prop :=
  ∃ ctx' t' n', res.1 = ptr_of t' ∧ t' ≠ E ∧ Inv sz cmp s' ctx' t'
    ∧ crb (S n') ctx' ∧ def_ok n' t'
    ∧ progress ctx' t'
    ∧ inorder (plug ctx' t') = inorder whole.

(** Progress of a round: the focus has moved up, or it sits on a red node,
    or it sits on the root; in the last two cases the loop ends. *)
Definition moved_up ctx : list frame → tree → Prop :=
  λ ctx' t', (length ctx' < length ctx)%nat ∨ tcolor t' = RED ∨ ctx' = [].

(** The part of [rbFixupLeft] after the red-sibling case. *)
Definition rbFixupLeft_tail (x parent w : ptr) : M K V (ptr * ptr) :=
  wl ← get_left w; cl ← getColor wl;
  both ← (if cl then wr ← get_right w; getColor wr else ret false);
  if both then
    set_color w RED;;
    ret (parent, w)
  else
    wr ← get_right w; cr ← getColor wr;
    w ← (if cr then
           wl ← get_left w;
           (if nonnil wl then set_color wl BLACK else ret tt);;
           set_color w RED;;
           rightRotate w;;
           get_right parent
         else ret w);
    pc ← get_color parent; set_color w pc;;
    set_color parent BLACK;;
    wr ← get_right w;
    (if nonnil wr then set_color wr BLACK else ret tt);;
    leftRotate parent;;
    r ← get_root;
    ret (r, w).

(** The part of [rbFixupRight] after the red-sibling case. *)
Definition rbFixupRight_tail (x parent w : ptr) : M K V (ptr * ptr) :=
  wl ← get_left w; cl ← getColor wl;
  both ← (if cl then wr ← get_right w; getColor wr else ret false);
  if both then
    set_color w RED;;
    ret (parent, w)
  else
    wl ← get_left w; cl ← getColor wl;
    w ← (if cl then
           wr ← get_right w;
           (if nonnil wr then set_color wr BLACK else ret tt);;
           set_color w RED;;
           leftRotate w;;
           get_left parent
         else ret w);
    pc ← get_color parent; set_color w pc;;
    set_color parent BLACK;;
    wl ← get_left w;
    (if nonnil wl then set_color wl BLACK else ret tt);;
    rightRotate parent;;
    r ← get_root;
    ret (r, w).

End DeleteFixup.

(** * Delete and its fixup *)

Section Delete.
Context {K V : Type}.
Implicit Types (t l r : @tree K V) (f : @frame K V) (ctx : list (@frame K V)) (s : RbTree K V).

(** ** [Delete] *)

(** Entries of the subtree of the deleted node [z] afterwards: with two
    children, [z] takes over the entry of its successor, the first entry of
    the right subtree; otherwise the entry of [z] disappears. *)
Definition del_entries (z : addr) l r : list (addr * K * V) :=
  match l, r with
  | T _ _ _ _ _ _, T _ _ _ _ _ _ =>
      match inorder r with
      | (y, ky, vy) :: rest => inorder l ++ (z, ky, vy) :: rest
      | [] => []
      end
  | _, _ => inorder l ++ inorder r
  end.

End Delete.

(** * Navigation: successor, predecessor, first and last node *)

Section Nav.
Context {K V : Type}.
Implicit Types (t l r : @tree K V) (f : @frame K V) (ctx : list (@frame K V)) (s : RbTree K V).
Implicit Types (es : list (addr * K * V)).

Definition eaddr (e : addr * K * V) : addr := e.1.1.

(** Address of the first and of the last entry of a list, nil if none. *)
Definition first_addr es : ptr := eaddr <$> head es.
Definition last_addr es : ptr := eaddr <$> last es.

(** ** The whole tree as its list of entries *)

Definition ekv (e : addr * K * V) : K * V := (e.1.2, e.2).

(** ** Traversal *)

(** What a visitor accumulates over a list of entries: it is called on the
    entries in order until it answers [false]. *)
Fixpoint visit {A} (visitor : K → V → A → bool * A) (l : list (K * V)) (acc : A) : A :=
  match l with
  | [] => acc
  | (k, v) :: l =>
      let '(go, acc) := visitor k v acc in
      if go then visit visitor l acc else acc
  end.

End Nav.

(** * Search and the invariant checker *)

Section Lookup.
Context {K V : Type}.
Implicit Types (t l r : @tree K V) (f : @frame K V) (ctx : list (@frame K V)) (s : RbTree K V).
Implicit Types (es : list (addr * K * V)) (cmp : K → K → Z).

Definition ekey (e : addr * K * V) : K := e.1.2.
Definition evalue (e : addr * K * V) : V := e.2.

(** A valid comparator: the signs of [cmp a b] and [cmp b a] are opposite,
    and [cmp a b ≤ 0] is transitive. *)
Definition valid_cmp cmp : Prop :=
  (∀ a b, cmp a b < 0 ↔ cmp b a > 0)
  ∧ (∀ a b c, cmp a b ≤ 0 → cmp b c ≤ 0 → cmp a c ≤ 0).

(** Entries in non-decreasing key order. *)
Definition key_sorted cmp es : Prop :=
  StronglySorted (λ e1 e2, cmp (ekey e1) (ekey e2) ≤ 0) es.

(** ** Lower and upper bound on the tree *)

Fixpoint lb cmp (k : K) t : option (addr * K * V) :=
  match t with
  | E => None
  | T a c l ka va r =>
      if cmp k ka <=? 0 then
        match lb cmp k l with
        | None => Some (a, ka, va)
        | Some e => if cmp (ekey e) ka <=? 0 then Some e else Some (a, ka, va)
        end
      else lb cmp k r
  end.

Fixpoint ub cmp (k : K) t : option (addr * K * V) :=
  match t with
  | E => None
  | T a c l ka va r =>
      if cmp k ka >=? 0 then ub cmp k r
      else
        match ub cmp k l with
        | None => Some (a, ka, va)
        | Some e => if cmp (ekey e) ka <=? 0 then Some e else Some (a, ka, va)
        end
  end.

(** [findFirstNode]: the lower bound, when its key compares equal. *)
Definition first_eq cmp (k : K) t : option (addr * K * V) :=
  match lb cmp k t with
  | Some e => if cmp (ekey e) k =? 0 then Some e else None
  | None => None
  end.

(** ** The invariant checker *)

(** The black count [test] reports for a subtree of black height [n]. *)
Fixpoint bcount (n : nat) : Z :=
  match n with O => 1 | S n => int_wrap (bcount n + 1) end.

End Lookup.

(** * More fuel never changes an outcome

    A run that does not exhaust its fuel gives the same outcome, result or
    panic, with any larger fuel: the outcome of the Go function is the
    outcome of the model once the fuel suffices. *)

Section Mono.
Context {K V : Type}.
Local Abbreviation M := (M K V).

Definition mle {A} (m1 m2 : M A) : Prop := ∀ s, m1 s = OutOfFuel ∨ m1 s = m2 s.

Definition fuel_mono {A} (op : nat → M A) : Prop := ∀ n, mle (op n) (op (S n)).

End Mono.

(** * Trees built through the public methods *)

Section WF.
Context {K V : Type}.
Local Abbreviation M := (M K V).
Implicit Types (t l r : @tree K V) (f : @frame K V) (ctx : list (@frame K V)) (s : RbTree K V).
Implicit Types (es : list (addr * K * V)) (cmp : K → K → Z).

(** ** Outcome of a method *)

(** [returns op s a s']: started in [s], the method returns [a] and leaves
    the tree in [s'] (whatever fuel the model is given, once it suffices). *)
Definition returns {A} (op : nat → M A) s (a : A) s' : Prop :=
  ∃ n, ∀ fuel, (n ≤ fuel)%nat → op fuel s = Ok (a, s').

(** [panics op s]: started in [s], the method panics. *)
Definition panics {A} (op : nat → M A) s : Prop :=
  ∃ n, ∀ fuel, (n ≤ fuel)%nat → op fuel s = Panic.

(** ** Live nodes: those reachable from the root through child pointers *)

Inductive live s : addr → Prop :=
  | live_root a : root s = Some a → live s a
  | live_left p n a : live s p → heap s !! p = Some n → left n = Some a → live s a
  | live_right p n a : live s p → heap s !! p = Some n → right n = Some a → live s a.

(** ** Well-formed states *)

(** [WF s t]: the store of [s] holds exactly the tree [t] under the root, [t]
    is red-black, [size] counts its nodes (in [int] arithmetic), and under a
    valid comparator the keys are in order. *)
Definition WF s t : Prop :=
  Inv (size s) (keyCmp s) s [] t ∧ is_rbtree t
  ∧ size s = int_wrap (Z.of_nat (length (inorder t)))
  ∧ (valid_cmp (keyCmp s) → key_sorted (keyCmp s) (inorder t)).

(** ** States reached through the public methods *)

(** A handle as the methods give them out: nil or a live node. *)
Definition handle s (p : ptr) : Prop :=
  match p with None => True | Some a => live s a end.

Inductive reachable : RbTree K V → Prop :=
  | reach_New cmp : reachable (New cmp)
  | reach_Insert s k v s' :
      reachable s → returns (λ fuel, Insert fuel k v) s tt s' → reachable s'
  | reach_Delete s p s' :
      reachable s → handle s p → returns (λ fuel, Delete fuel p) s tt s' → reachable s'
  | reach_SetValue s a v s' :
      reachable s → live s a → Node_SetValue (Some a) v s = Ok (tt, s') → reachable s'
  | reach_Clear s s' :
      reachable s → Clear s = Ok (tt, s') → reachable s'.

End WF.

(** * The entries of a tree state *)

Section Views.
Context {K V : Type}.
Local Abbreviation M := (M K V).
Implicit Types (t l r : @tree K V) (f : @frame K V) (ctx : list (@frame K V)) (s : RbTree K V).
Implicit Types (es : list (addr * K * V)) (cmp : K → K → Z).

(** [represents s t]: the nodes under the root of [s] form the tree [t]. *)
Definition represents s t : Prop := Inv (size s) (keyCmp s) s [] t.

(** [entries s es]: the live nodes of [s], as (address, key, value), in
    symmetric order. *)
Definition entries s es : Prop := ∃ t, represents s t ∧ inorder t = es.

End Views.

(** * Concrete trees *)

(** The comparator of integer keys. *)
Definition int_cmp (a b : Z) : Z := if a <? b then -1 else if b <? a then 1 else 0.

(** The state a computation ends in, and whether it ends normally. *)
Definition run_state {K V A} (m : M K V A) (s : RbTree K V) : RbTree K V :=
  match m s with Ok (_, s') => s' | _ => s end.
Definition run_value {K V A} (m : M K V A) (s : RbTree K V) : option A :=
  match m s with Ok (a, _) => Some a | _ => None end.

(** The tree holding the keys 1, 3, 5, 7 (with values 10, 30, 50, 70),
    inserted in this order. *)
Definition tree1357 : RbTree Z Z :=
  run_state (Insert 8 7 70)
    (run_state (Insert 8 5 50)
       (run_state (Insert 8 3 30)
          (run_state (Insert 8 1 10) (New int_cmp)))).

(** The visitor that records the entries it is called with, in order, and
    answers [p k v]. *)
Definition log_visitor {K V} (p : K → V → bool) (k : K) (v : V) (log : list (K * V))
  : bool * list (K * V) := (p k v, log ++ [(k, v)]).

(** The entries a traversal calls the visitor with: all up to and including
    the first one the visitor answers [false] to. *)
Fixpoint calls {K V} (p : K → V → bool) (kvs : list (K * V)) : list (K * V) :=
  match kvs with
  | [] => []
  | (k, v) :: rest => (k, v) :: if p k v then calls p rest else []
  end.

(** ** The two phases of [Delete] *)

(** The statements of [Delete] before its last [if]: pick [y], put its child
    [x] in its place, copy [y]'s entry into [z].  The result is [x], the
    parent [y] had and the colour of [y], which is all the rest of [Delete]
    uses. *)
Definition Delete_unlink {K V} (fuel : nat) (node : ptr) : M K V (ptr * ptr * Color) :=
  let z := node in
  zl ← get_left z; zr ← get_right z;
  y ← (if nonnil zl && nonnil zr then successor fuel z else ret z);
  yl ← get_left y;
  x ← (if nonnil yl then ret yl else get_right y);
  xparent ← get_parent y;
  (if nonnil x then set_parent x xparent else ret tt);;
  yp ← get_parent y;
  (if nonnil yp then
     ypl ← get_left yp;
     if ptr_eqb y ypl then set_left yp x else set_right yp x
   else set_root x);;
  (if negb (ptr_eqb y z) then
     yk ← get_key y; set_key z yk;;
     yv ← get_value y; set_value z yv
   else ret tt);;
  yc ← get_color y;
  ret (x, xparent, yc).

(** The rest of [Delete]: fix up when [y] was black, count down. *)
Definition Delete_finish_with {K V} (fuel : nat) (r : ptr * ptr * Color) : M K V unit :=
  let '(x, xparent, yc) := r in
  (if yc then rbDeleteFixup fuel x xparent else ret tt);;
  sz ← get_size; set_size (int_wrap (sz - 1)).

Definition dec_size {K V} (s : RbTree K V) : RbTree K V :=
  mkRbTree (heap s) (root s) (int_wrap (size s - 1)) (keyCmp s).

(** The entries of [tree1357]. *)
Definition entries1357 : list (addr * Z * Z) :=
  [(1%positive, 1, 10); (2%positive, 3, 30); (3%positive, 5, 50); (4%positive, 7, 70)].

(** ** Round trip *)

Section RoundTrip.
Context {K V : Type}.
Implicit Types (t : @tree K V) (s : RbTree K V) (cmp : K → K → Z).

(** Insert the pairs of a list, first to last. *)
Inductive insert_all : list (K * V) → RbTree K V → RbTree K V → Prop :=
  | insert_all_nil s : insert_all [] s s
  | insert_all_cons k v kvs s s1 s2 :
      returns (λ fuel, Insert fuel k v) s tt s1 → insert_all kvs s1 s2 →
      insert_all ((k, v) :: kvs) s s2.

(** For each key of a list, first to last: [Delete(FindNode(key))]. *)
Inductive delete_all : list K → RbTree K V → RbTree K V → Prop :=
  | delete_all_nil s : delete_all [] s s
  | delete_all_cons k ks s p s1 s2 :
      returns (λ fuel, FindNode fuel k) s p s →
      returns (λ fuel, Delete fuel p) s tt s1 → delete_all ks s1 s2 →
      delete_all (k :: ks) s s2.

(** No two keys of the list compare equal. *)
Fixpoint distinct cmp (ks : list K) : Prop :=
  match ks with
  | [] => True
  | k :: ks => (∀ k', k' ∈ ks → cmp k k' ≠ 0) ∧ distinct cmp ks
  end.

End RoundTrip.

(** ** Cursors *)

(** [n] calls of a cursor method, each on the cursor the call before left. *)
Fixpoint repeat_op {K V} (op : nat → RbTreeIterator → M K V RbTreeIterator)
    (n : nat) (fuel : nat) (it : RbTreeIterator) : M K V RbTreeIterator :=
  match n with
  | O => ret it
  | S n => it' ← op fuel it; repeat_op op n fuel it'
  end.

(** A cursor at the first entry, [n] times [Next], [n] times [Prev], then
    [Key]: the cursor in the end and the key it reads. *)
Definition forth_and_back {K V} (n : nat) (fuel : nat) : M K V (RbTreeIterator * K) :=
  it ← IterFirst fuel;
  it ← repeat_op Next n fuel it;
  it ← repeat_op Prev n fuel it;
  k ← Key it;
  ret (it, k).

(** ** Lookups before and after a change *)

Section LookupChange.
Context {K V : Type}.
Implicit Types (t : @tree K V) (s : RbTree K V) (es : list (addr * K * V)) (cmp : K → K → Z).

(** What [Find] reads off the entries: the value of the first entry whose
    key is not below [k], if that key compares equal to [k]. *)
Definition lookup_entry cmp (k : K) es : option V :=
  match find (λ e, cmp k (ekey e) <=? 0) es with
  | Some e => if cmp (ekey e) k =? 0 then Some (evalue e) else None
  | None => None
  end.

(** The pair [Find] returns. *)
Definition find_result (zero : V) (o : option V) : V * option error :=
  match o with Some v => (v, None) | None => (zero, Some ErrorNotFound) end.

End LookupChange.

(** ** Inserting, then traversing, sorts *)

Section StableSort.
Context {K V : Type}.
Implicit Types (cmp : K → K → Z) (x y : K * V) (l acc : list (K * V)).

(** Put [x] behind every pair whose key is not above the key of [x]. *)
Fixpoint insert_sorted cmp x l : list (K * V) :=
  match l with
  | [] => [x]
  | y :: l' => if cmp x.1 y.1 <? 0 then x :: y :: l' else y :: insert_sorted cmp x l'
  end.

(** Insertion sort by key, pairs with equal keys staying in their order. *)
Definition stable_sort cmp l : list (K * V) :=
  foldl (λ acc x, insert_sorted cmp x acc) [] l.

Definition kv_sorted cmp l : Prop := StronglySorted (λ a b, cmp a.1 b.1 ≤ 0) l.

End StableSort.

(** ** The plain descent [findNode] *)

Section PlainSearch.
Context {K V : Type}.
Implicit Types (t l r : @tree K V) (s : RbTree K V) (ctx : list (@frame K V)).
Implicit Types (cmp : K → K → Z).

(** The node the descent of [findNode] stops at. *)
Fixpoint descend cmp (k : K) t : option (addr * K * V) :=
  match t with
  | E => None
  | T a c l ka va r =>
      if cmp k ka <? 0 then descend cmp k l
      else if cmp k ka =? 0 then Some (a, ka, va)
      else descend cmp k r
  end.

End PlainSearch.

(** ** What [IsRbTree] decides *)

Section Checker.
Context {K V : Type}.
Implicit Types (t l r : @tree K V) (s : RbTree K V) (ctx : list (@frame K V)).

(** What [test] computes on a subtree; [isroot] says whether its node is
    the root of the tree. *)
Fixpoint check (isroot : bool) t : Z * Z * bool :=
  match t with
  | E => (1, 0, true)
  | T a c l k v r =>
      if isroot && negb c then (1, 2, false)
      else
        let '(lbc, p, ok) := check false l in
        if negb ok then (lbc, p, ok)
        else
          let '(rbc, p, ok) := check false r in
          if negb ok then (rbc, p, ok)
          else if negb (rbc =? lbc) then (lbc, 5, false)
          else if negb c then
            if negb (tcolor l) || negb (tcolor r) then (0, 4, false) else (lbc, 0, true)
          else (int_wrap (lbc + 1), 0, true)
  end.

End Checker.

(** A store that holds one red node as root. *)
Definition red_root : RbTree Z Z :=
  mkRbTree {[ 1%positive := mkNode None None None RED 5 50 ]} (Some 1%positive) 1 int_cmp.

(** A store with a red node under a red node: key 5 under 3 under the root 1. *)
Definition red_red : RbTree Z Z :=
  mkRbTree
    (<[3%positive := mkNode (Some 2%positive) None None RED 5 50]>
       (<[2%positive := mkNode (Some 1%positive) None (Some 3%positive) RED 3 30]>
          {[ 1%positive := mkNode None None (Some 2%positive) BLACK 1 10 ]}))
    (Some 1%positive) 3 int_cmp.

(** A store with a black root whose left child is missing and whose right
    child is a black leaf: the left side is one black node short. *)
Definition black_short : RbTree Z Z :=
  mkRbTree
    (<[2%positive := mkNode (Some 1%positive) None None BLACK 7 70]>
       {[ 1%positive := mkNode None None (Some 2%positive) BLACK 5 50 ]})
    (Some 1%positive) 2 int_cmp.

(** ** What the methods leave alone *)

Section Frames.
Context {K V : Type}.
Local Abbreviation M := (M K V).

(** Every return of [m] relates the store before to the store after by [R]. *)
Definition pres (R : relation (RbTree K V)) {A} (m : M A) : Prop :=
  ∀ s a s', m s = Ok (a, s') → R s s'.

(** A computation that only reads: when it returns, the store is as it was. *)
Definition read_only {A} (m : M A) : Prop := ∀ s a s', m s = Ok (a, s') → s' = s.

(** The fields of the tree other than the root, left as they were. *)
Definition same_fields (s s' : RbTree K V) : Prop :=
  size s' = size s ∧ keyCmp s' = keyCmp s.

(** A computation whose outcome depends on the nodes only, not on the fields
    of the tree, and that leaves the store as it was. *)
Definition heap_reader {A} (m : M A) : Prop :=
  ∀ s s2, heap s2 = heap s →
    m s2 = match m s with
           | Ok (a, _) => Ok (a, s2)
           | Panic => Panic
           | OutOfFuel => OutOfFuel
           end.

End Frames.

(** The tree of 1, 3, 5, 7 after [Delete] of the node of 7, and after
    [Delete] of the same node once more. *)
Definition deleted_once : RbTree Z Z := run_state (Delete 8 (Some 4%positive)) tree1357.
Definition deleted_twice : RbTree Z Z := run_state (Delete 8 (Some 4%positive)) deleted_once.

Lemma NoDup_app_ldisj (l k : list positive) :
  NoDup (l ++ k) ↔ NoDup l ∧ NoDup k ∧ ldisj l k.
Proof. rewrite NoDup_app. unfold ldisj. naive_solver. Qed.
Lemma NoDup_cons_notin (x : positive) l : NoDup (x :: l) ↔ x ∉ l ∧ NoDup l.
Proof. apply NoDup_cons. Qed.
Lemma NoDup_nil_True : NoDup (@nil positive) ↔ True.
Proof. split; [done|]. intros _. apply NoDup_nil_2. Qed.
Lemma ldisj_app_l l1 l2 k : ldisj (l1 ++ l2) k ↔ ldisj l1 k ∧ ldisj l2 k.
Proof. unfold ldisj. set_solver. Qed.
Lemma ldisj_cons_l x l k : ldisj (x :: l) k ↔ x ∉ k ∧ ldisj l k.
Proof. unfold ldisj. set_solver. Qed.
Lemma ldisj_nil_l k : ldisj [] k ↔ True.
Proof. unfold ldisj. set_solver. Qed.
Lemma ldisj_app_r l k1 k2 : ldisj l (k1 ++ k2) ↔ ldisj l k1 ∧ ldisj l k2.
Proof. unfold ldisj. set_solver. Qed.
Lemma ldisj_cons_r x l k : ldisj l (x :: k) ↔ x ∉ l ∧ ldisj l k.
Proof. unfold ldisj. set_solver. Qed.
Lemma ldisj_nil_r l : ldisj l [] ↔ True.
Proof. unfold ldisj. set_solver. Qed.
Lemma notin_app (x : positive) l k : x ∉ l ++ k ↔ x ∉ l ∧ x ∉ k.
Proof. set_solver. Qed.
Lemma notin_cons (x y : positive) l : x ∉ y :: l ↔ x ≠ y ∧ x ∉ l.
Proof. set_solver. Qed.
Lemma notin_nil (x : positive) : x ∉ @nil positive ↔ True.
Proof. set_solver. Qed.
Lemma and_True_l (P : Prop) : True ∧ P ↔ P.
Proof. tauto. Qed.
Lemma and_True_r (P : Prop) : P ∧ True ↔ P.
Proof. tauto. Qed.

Lemma submseteq_NoDup (l k : list positive) : l ⊆+ k → NoDup k → NoDup l.
Proof.
  intros Hs Hk. apply submseteq_Permutation in Hs as [k' Hk'].
  rewrite Hk' in Hk. by apply NoDup_app in Hk as (? & _).
Qed.

Lemma ldisj_elem l k x : ldisj l k → x ∈ l → x ∉ k.
Proof. unfold ldisj. naive_solver. Qed.
Lemma ldisj_elem_r l k x : ldisj l k → x ∈ k → x ∉ l.
Proof. unfold ldisj. naive_solver. Qed.

Ltac notin_split H :=
  lazymatch type of H with
  | _ ∉ _ ++ _ =>
      let H1 := fresh in let H2 := fresh in
      apply (proj1 (notin_app _ _ _)) in H; destruct H as [H1 H2];
      notin_split H1; notin_split H2
  | _ ∉ _ :: _ =>
      let H1 := fresh in let H2 := fresh in
      apply (proj1 (notin_cons _ _ _)) in H; destruct H as [H1 H2];
      notin_split H2
  | _ ∉ [] => clear H
  | _ => idtac
  end.

Ltac ldisj_split H :=
  lazymatch type of H with
  | ldisj (_ ++ _) _ =>
      let H1 := fresh in let H2 := fresh in
      apply (proj1 (ldisj_app_l _ _ _)) in H; destruct H as [H1 H2];
      ldisj_split H1; ldisj_split H2
  | ldisj (_ :: _) _ =>
      let H1 := fresh in let H2 := fresh in
      apply (proj1 (ldisj_cons_l _ _ _)) in H; destruct H as [H1 H2];
      notin_split H1; ldisj_split H2
  | ldisj [] _ => clear H
  | ldisj _ (_ ++ _) =>
      let H1 := fresh in let H2 := fresh in
      apply (proj1 (ldisj_app_r _ _ _)) in H; destruct H as [H1 H2];
      ldisj_split H1; ldisj_split H2
  | ldisj _ (_ :: _) =>
      let H1 := fresh in let H2 := fresh in
      apply (proj1 (ldisj_cons_r _ _ _)) in H; destruct H as [H1 H2];
      notin_split H1; ldisj_split H2
  | ldisj _ [] => clear H
  | _ => idtac
  end.

Ltac nodup_split H :=
  lazymatch type of H with
  | NoDup (_ ++ _) =>
      let H1 := fresh in let H2 := fresh in let H3 := fresh in
      apply (proj1 (NoDup_app_ldisj _ _)) in H; destruct H as (H1 & H2 & H3);
      nodup_split H1; nodup_split H2; ldisj_split H3
  | NoDup (_ :: _) =>
      let H1 := fresh in let H2 := fresh in
      apply (proj1 (NoDup_cons_notin _ _)) in H; destruct H as [H1 H2];
      notin_split H1; nodup_split H2
  | NoDup [] => clear H
  | _ => idtac
  end.

(** Split a hypothesis [NoDup l] into facts [a ≠ b], [a ∉ l'], [ldisj l' l'']
    and [NoDup l'] about the parts of [l]. *)
Ltac nodup_facts H :=
  let H' := fresh "Hnd" in
  pose proof H as H'; simpl in H'; nodup_split H'.

(** Goals [a ≠ b] and [a ∉ l] from such facts. *)
Ltac solve_ne :=
  first
    [ assumption
    | apply not_eq_sym; assumption
    | let E := fresh in intros E; subst; contradiction
    | let E := fresh in intros E; injection E as E; subst; contradiction
    | match goal with
      | H : ldisj ?l ?k, H1 : ?x ∈ ?l |- ?x ∉ ?k => exact (ldisj_elem _ _ _ H H1)
      | H : ldisj ?l ?k, H1 : ?x ∈ ?k |- ?x ∉ ?l => exact (ldisj_elem_r _ _ _ H H1)
      | H : ldisj ?l ?k, H1 : ?x ∈ ?l |- ?x ≠ ?y =>
          let E := fresh in intros E; subst; eapply H; [exact H1|]; eassumption
      end ].

Section ShapeFacts.
Context {K V : Type}.
Implicit Types (t l r : @tree K V) (f : @frame K V) (ctx : list (@frame K V)).
Implicit Types (h : gmap positive (Node K V)) (s : RbTree K V).

(** ** Addresses and entries under [plug] *)

Lemma addrs_fill f t : addrs (fill f t) ≡ₚ addrs t ++ faddrs f.
Proof. destruct f; simpl; unfold faddrs; simpl; solve_Permutation. Qed.

Lemma addrs_plug ctx t : addrs (plug ctx t) ≡ₚ addrs t ++ caddrs ctx.
Proof.
  revert t; induction ctx as [|f ctx IH]; intros t; simpl.
  - by rewrite app_nil_r.
  - rewrite IH, addrs_fill. by rewrite <-(assoc_L (++)).
Qed.

Lemma addrs_inorder t : addrs t = (inorder t).*1.*1.
Proof.
  induction t as [|a c l IHl k v r IHr]; simpl; [done|].
  rewrite !fmap_app. simpl. by rewrite IHl, IHr.
Qed.

Lemma ptr_of_fill f t : ptr_of (fill f t) = Some (faddr f).
Proof. by destruct f. Qed.

(** ** Moving the focus *)

Lemma own_fill h f par t :
  own h par (fill f t) ↔
  h !! faddr f = Some (fnode f (ptr_of t) par)
  ∧ own h (Some (faddr f)) (fsib f) ∧ own h (Some (faddr f)) t.
Proof. destruct f; simpl; tauto. Qed.

Lemma Inv_up sz cmp s f ctx t :
  Inv sz cmp s (f :: ctx) t ↔ Inv sz cmp s ctx (fill f t).
Proof.
  unfold Inv. simpl. rewrite ptr_of_fill, own_fill.
  rewrite (addrs_fill f t), <-(assoc_L (++)). tauto.
Qed.

Lemma Inv_plug sz cmp s ctx ctx' t :
  Inv sz cmp s (ctx ++ ctx') t ↔ Inv sz cmp s ctx' (plug ctx t).
Proof.
  revert t; induction ctx as [|f ctx IH]; intros t; simpl; [done|].
  by rewrite Inv_up, IH.
Qed.

Lemma Inv_whole sz cmp s ctx t :
  Inv sz cmp s ctx t ↔ Inv sz cmp s [] (plug ctx t).
Proof. by rewrite <-Inv_plug, app_nil_r. Qed.

(** ** Frame properties: stores elsewhere do not disturb a subtree *)

Lemma own_frame h h' par t :
  (∀ a, a ∈ addrs t → h' !! a = h !! a) → own h par t → own h' par t.
Proof.
  revert par; induction t as [|a c l IHl k v r IHr]; intros par Hag; simpl; [done|].
  intros (Ha & Hl & Hr). split_and!.
  - rewrite Hag; [done|]. simpl. set_solver.
  - apply IHl; [|done]. intros b Hb. apply Hag. simpl. set_solver.
  - apply IHr; [|done]. intros b Hb. apply Hag. simpl. set_solver.
Qed.

Lemma cown_frame h h' rt hp ctx :
  (∀ a, a ∈ caddrs ctx → h' !! a = h !! a) → cown h rt hp ctx → cown h' rt hp ctx.
Proof.
  revert hp; induction ctx as [|f ctx IH]; intros hp Hag; simpl; [done|].
  intros (Ha & Hs & Hc). split_and!.
  - rewrite Hag; [done|]. simpl. unfold faddrs. set_solver.
  - eapply own_frame; [|done]. intros b Hb. apply Hag. simpl. unfold faddrs. set_solver.
  - apply IH; [|done]. intros b Hb. apply Hag. simpl. set_solver.
Qed.

(** Changing the parent pointer of the root of a subtree. *)
Lemma own_reparent h par par' a c l k v r :
  a ∉ addrs l → a ∉ addrs r →
  own h par (T a c l k v r) →
  own (<[a := mkNode par' (ptr_of l) (ptr_of r) c k v]> h) par' (T a c l k v r).
Proof.
  intros Hl Hr (Ha & Hol & Hor). simpl. split_and!.
  - by rewrite lookup_insert_eq.
  - eapply own_frame; [|done]. intros b Hb. rewrite lookup_insert_ne; [done|]. set_solver.
  - eapply own_frame; [|done]. intros b Hb. rewrite lookup_insert_ne; [done|]. set_solver.
Qed.

(** Changing the pointer in the hole of a context. *)
Lemma cown_set_hole h rt hp hp' f ctx :
  NoDup (caddrs (f :: ctx)) →
  cown h rt hp (f :: ctx) →
  cown (<[faddr f := fnode f hp' (cpar ctx)]> h) rt hp' (f :: ctx).
Proof.
  simpl. unfold faddrs. intros Hnd (Ha & Hs & Hc).
  apply NoDup_cons in Hnd as [Hni Hnd]. apply NoDup_app in Hnd as (_ & Hdisj & _).
  split_and!.
  - by rewrite lookup_insert_eq.
  - eapply own_frame; [|done]. intros b Hb. rewrite lookup_insert_ne; [done|]. set_solver.
  - eapply cown_frame; [|done]. intros b Hb. rewrite lookup_insert_ne; [done|]. set_solver.
Qed.

End ShapeFacts.

Lemma ptr_of_elem {K V} (t : @tree K V) a : ptr_of t = Some a → a ∈ addrs t.
Proof. destruct t; simpl; [done|]. intros [= ->]. set_solver. Qed.

Lemma ptr_eqb_refl (p : ptr) : ptr_eqb p p = true.
Proof. unfold ptr_eqb. by rewrite bool_decide_eq_true. Qed.

Lemma ptr_eqb_ne (p q : ptr) : p ≠ q → ptr_eqb p q = false.
Proof. unfold ptr_eqb. by rewrite bool_decide_eq_false. Qed.

(** * Running the code: weakest preconditions over the state monad *)

(** Pointer inequalities from facts about address lists. *)
Ltac ptr_ne :=
  let E := fresh in intros E;
  first [ symmetry in E; apply ptr_of_elem in E; contradiction
        | apply ptr_of_elem in E; contradiction
        | injection E as E; subst; contradiction
        | injection E as E; revert E; solve_ne
        | discriminate ].

(** Symbolic evaluation of loads and stores on an explicit store. *)
Ltac hsimpl :=
  repeat first
    [ progress simpl
    | rewrite lookup_insert_eq
    | rewrite lookup_insert_ne by solve_ne
    | rewrite ptr_eqb_refl
    | rewrite ptr_eqb_ne by ptr_ne
    | match goal with H : ?h !! ?a = Some _ |- context[?h !! ?a] => rewrite H end ].

Ltac frame_own H :=
  eapply own_frame; [|exact H]; let a := fresh "a" in let Ha := fresh "Ha" in
  intros a Ha; rewrite ?lookup_insert_ne; [done|..]; solve_ne.
Ltac frame_cown H :=
  eapply cown_frame; [|exact H]; let a := fresh "a" in let Ha := fresh "Ha" in
  intros a Ha; rewrite ?lookup_insert_ne; [done|..]; solve_ne.
Ltac frame_any :=
  match goal with
  | H : own ?h ?p ?t |- own _ ?p ?t => frame_own H
  | H : cown ?h ?r ?p ?t |- cown _ ?r ?p ?t => frame_cown H
  end.

Section WPFacts.
Context {K V : Type}.
Implicit Types (t l r : @tree K V) (ctx : list (@frame K V)) (s : RbTree K V).

Lemma wp_ret {A} (a : A) Q s : Q a s → wp (ret a) Q s.
Proof. intros. by exists a, s. Qed.

Lemma wp_bind {A B} (m : M K V A) (f : A → M K V B) Q s :
  wp m (λ a s', wp (f a) Q s') s → wp (bind m f) Q s.
Proof.
  intros (a & s' & Hm & (b & s'' & Hf & HQ)). exists b, s''. split; [|done].
  unfold bind. by rewrite Hm.
Qed.

Lemma wp_mono {A} (m : M K V A) (Q Q' : A → RbTree K V → Prop) s :
  wp m Q s → (∀ a s', Q a s' → Q' a s') → wp m Q' s.
Proof. intros (a & s' & Hm & HQ) HQQ. exists a, s'. eauto. Qed.

Lemma wp_load s a n Q : heap s !! a = Some n → Q n s → wp (load (Some a)) Q s.
Proof. intros Hl HQ. exists n, s. split; [|done]. unfold load. by rewrite Hl. Qed.

Lemma wp_store s a n f Q :
  heap s !! a = Some n →
  Q tt (mkRbTree (<[a := f n]> (heap s)) (root s) (size s) (keyCmp s)) →
  wp (store (Some a) f) Q s.
Proof. intros Hl HQ. eexists tt, _. split; [|done]. unfold store. by rewrite Hl. Qed.

Lemma wp_get_parent s a n Q : heap s !! a = Some n → Q (parent n) s → wp (get_parent (Some a)) Q s.
Proof. intros. apply wp_bind. eapply wp_load; [done|]. by apply wp_ret. Qed.
Lemma wp_get_left s a n Q : heap s !! a = Some n → Q (left n) s → wp (get_left (Some a)) Q s.
Proof. intros. apply wp_bind. eapply wp_load; [done|]. by apply wp_ret. Qed.
Lemma wp_get_right s a n Q : heap s !! a = Some n → Q (right n) s → wp (get_right (Some a)) Q s.
Proof. intros. apply wp_bind. eapply wp_load; [done|]. by apply wp_ret. Qed.
Lemma wp_get_color s a n Q : heap s !! a = Some n → Q (color n) s → wp (get_color (Some a)) Q s.
Proof. intros. apply wp_bind. eapply wp_load; [done|]. by apply wp_ret. Qed.
Lemma wp_get_key s a n Q : heap s !! a = Some n → Q (key n) s → wp (get_key (Some a)) Q s.
Proof. intros. apply wp_bind. eapply wp_load; [done|]. by apply wp_ret. Qed.
Lemma wp_get_value s a n Q : heap s !! a = Some n → Q (value n) s → wp (get_value (Some a)) Q s.
Proof. intros. apply wp_bind. eapply wp_load; [done|]. by apply wp_ret. Qed.

Lemma wp_get_root s Q : Q (root s) s → wp get_root Q s.
Proof. intros. by exists (root s), s. Qed.
Lemma wp_get_size s Q : Q (size s) s → wp get_size Q s.
Proof. intros. by exists (size s), s. Qed.
Lemma wp_get_keyCmp s Q : Q (keyCmp s) s → wp get_keyCmp Q s.
Proof. intros. by exists (keyCmp s), s. Qed.
Lemma wp_set_root s p Q :
  Q tt (mkRbTree (heap s) p (size s) (keyCmp s)) → wp (set_root p) Q s.
Proof. intros. by eexists tt, _. Qed.
Lemma wp_set_size s z Q :
  Q tt (mkRbTree (heap s) (root s) z (keyCmp s)) → wp (set_size z) Q s.
Proof. intros. by eexists tt, _. Qed.

(** ** Reading through the invariant *)

Lemma Inv_lookup sz cmp s ctx a c l k v r :
  Inv sz cmp s ctx (T a c l k v r) →
  heap s !! a = Some (mkNode (cpar ctx) (ptr_of l) (ptr_of r) c k v).
Proof. by intros (_ & _ & _ & _ & Ha & _). Qed.

Lemma Inv_root sz cmp s t : Inv sz cmp s [] t → root s = ptr_of t.
Proof. by intros (_ & _ & _ & Hc & _). Qed.

Lemma Inv_size sz cmp s ctx t : Inv sz cmp s ctx t → size s = sz.
Proof. by intros (? & _). Qed.

Lemma Inv_keyCmp sz cmp s ctx t : Inv sz cmp s ctx t → keyCmp s = cmp.
Proof. by intros (_ & ? & _). Qed.

Lemma Inv_NoDup sz cmp s ctx t : Inv sz cmp s ctx t → NoDup (addrs t ++ caddrs ctx).
Proof. by intros (_ & _ & ? & _). Qed.

(** ** Writing the data of the node in focus *)

Lemma Inv_store_data sz cmp s ctx a c l k v r c' k' v' :
  Inv sz cmp s ctx (T a c l k v r) →
  Inv sz cmp
    (mkRbTree (<[a := mkNode (cpar ctx) (ptr_of l) (ptr_of r) c' k' v']> (heap s))
       (root s) (size s) (keyCmp s))
    ctx (T a c' l k' v' r).
Proof.
  intros (Hsz & Hcmp & Hnd & Hc & Ha & Hl & Hr). simpl in *.
  unfold Inv; simpl; split_and!; try done.
  - eapply cown_frame; [|done]. intros b Hb. rewrite lookup_insert_ne; [done|].
    intros ->. apply NoDup_app in Hnd as (_ & Hd & _). eapply Hd; [|done]. set_solver.
  - by rewrite lookup_insert_eq.
  - eapply own_frame; [|done]. intros b Hb. rewrite lookup_insert_ne; [done|].
    intros ->. apply NoDup_app in Hnd as (Hnd & _). apply NoDup_app in Hnd as (_ & Hd & _).
    eapply Hd; [done|]. set_solver.
  - eapply own_frame; [|done]. intros b Hb. rewrite lookup_insert_ne; [done|].
    intros ->. apply NoDup_app in Hnd as (Hnd & _). apply NoDup_app in Hnd as (_ & _ & Hd).
    apply NoDup_cons in Hd as [Hd _]. done.
Qed.

Lemma wp_set_color sz cmp s ctx a c l k v r c' Q :
  Inv sz cmp s ctx (T a c l k v r) →
  (∀ s', Inv sz cmp s' ctx (T a c' l k v r) → Q tt s') →
  wp (set_color (Some a) c') Q s.
Proof.
  intros HI HQ. eapply wp_store; [eapply Inv_lookup; eassumption|]. simpl.
  apply HQ. eapply Inv_store_data; eassumption.
Qed.

Lemma wp_set_key sz cmp s ctx a c l k v r k' Q :
  Inv sz cmp s ctx (T a c l k v r) →
  (∀ s', Inv sz cmp s' ctx (T a c l k' v r) → Q tt s') →
  wp (set_key (Some a) k') Q s.
Proof.
  intros HI HQ. eapply wp_store; [eapply Inv_lookup; eassumption|]. simpl.
  apply HQ. eapply Inv_store_data; eassumption.
Qed.

Lemma wp_set_value sz cmp s ctx a c l k v r v' Q :
  Inv sz cmp s ctx (T a c l k v r) →
  (∀ s', Inv sz cmp s' ctx (T a c l k v' r) → Q tt s') →
  wp (set_value (Some a) v') Q s.
Proof.
  intros HI HQ. eapply wp_store; [eapply Inv_lookup; eassumption|]. simpl.
  apply HQ. eapply Inv_store_data; eassumption.
Qed.

(** ** Rotations *)

Lemma leftRotate_run sz cmp s ctx x cx a kx vx y cy b ky vy d :
  Inv sz cmp s ctx (T x cx a kx vx (T y cy b ky vy d)) →
  ∃ s', leftRotate (Some x) s = Ok (tt, s')
        ∧ Inv sz cmp s' ctx (T y cy (T x cx a kx vx b) ky vy d).
Proof.
  destruct s as [h rt sz0 cmp0]. unfold Inv. simpl.
  intros (Hsz & Hcmp & Hnd & Hc & (Hx & Ha & Hy & Hb & Hd)).
  unfold leftRotate, get_right, get_left, get_parent, set_right, set_left,
    set_parent, set_root, bind, load, store, ret.
  destruct b as [|bb cb bl bk bv br];
    (destruct ctx as [|[fa fc fk fv fr|fa fc fl fk fv] rest]);
    simpl in *; destruct_and?; unfold faddrs in *; nodup_facts Hnd.
  all: hsimpl.
  all: eexists; split; [reflexivity|]; simpl; split_and!; try done.
  all: try (eapply NoDup_Permutation_proper; [|exact Hnd]; solve_Permutation).
  all: try (hsimpl; done).
  all: frame_any.
Qed.

Lemma rightRotate_run sz cmp s ctx x cx d kx vx y cy a ky vy b :
  Inv sz cmp s ctx (T x cx (T y cy a ky vy b) kx vx d) →
  ∃ s', rightRotate (Some x) s = Ok (tt, s')
        ∧ Inv sz cmp s' ctx (T y cy a ky vy (T x cx b kx vx d)).
Proof.
  destruct s as [h rt sz0 cmp0]. unfold Inv. simpl.
  intros (Hsz & Hcmp & Hnd & Hc & (Hx & (Hy & Ha & Hb) & Hd)).
  unfold rightRotate, get_right, get_left, get_parent, set_right, set_left,
    set_parent, set_root, bind, load, store, ret.
  destruct b as [|bb cb bl bk bv br];
    (destruct ctx as [|[fa fc fk fv fr|fa fc fl fk fv] rest]);
    simpl in *; destruct_and?; unfold faddrs in *; nodup_facts Hnd.
  all: hsimpl.
  all: eexists; split; [reflexivity|]; simpl; split_and!; try done.
  all: try (eapply NoDup_Permutation_proper; [|exact Hnd]; solve_Permutation).
  all: try (hsimpl; done).
  all: frame_any.
Qed.

Lemma wp_leftRotate sz cmp s ctx x cx a kx vx y cy b ky vy d Q :
  Inv sz cmp s ctx (T x cx a kx vx (T y cy b ky vy d)) →
  (∀ s', Inv sz cmp s' ctx (T y cy (T x cx a kx vx b) ky vy d) → Q tt s') →
  wp (leftRotate (Some x)) Q s.
Proof.
  intros HI HQ. destruct (leftRotate_run _ _ _ _ _ _ _ _ _ _ _ _ _ _ _ HI) as (s' & Hr & HI').
  exists tt, s'. eauto.
Qed.

Lemma wp_rightRotate sz cmp s ctx x cx d kx vx y cy a ky vy b Q :
  Inv sz cmp s ctx (T x cx (T y cy a ky vy b) kx vx d) →
  (∀ s', Inv sz cmp s' ctx (T y cy a ky vy (T x cx b kx vx d)) → Q tt s') →
  wp (rightRotate (Some x)) Q s.
Proof.
  intros HI HQ. destruct (rightRotate_run _ _ _ _ _ _ _ _ _ _ _ _ _ _ _ HI) as (s' & Hr & HI').
  exists tt, s'. eauto.
Qed.

Lemma Inv_L sz cmp s ctx a c l k v r :
  Inv sz cmp s ctx (T a c l k v r) ↔ Inv sz cmp s (FL a c k v r :: ctx) l.
Proof. by rewrite Inv_up. Qed.

Lemma Inv_R sz cmp s ctx a c l k v r :
  Inv sz cmp s ctx (T a c l k v r) ↔ Inv sz cmp s (FR a c l k v :: ctx) r.
Proof. by rewrite Inv_up. Qed.

Lemma splice_run sz cmp s ctx y c yl k v yr xt :
  Inv sz cmp s ctx (T y c yl k v yr) →
  (yl = E ∧ xt = yr) ∨ (yr = E ∧ xt = yl) →
  ∃ s', splice (Some y) (ptr_of xt) (cpar ctx) s = Ok (tt, s')
        ∧ Inv sz cmp s' ctx xt ∧ heap s' !! y = heap s !! y.
Proof.
  destruct s as [h rt sz0 cmp0]. unfold Inv. simpl.
  intros (Hsz & Hcmp & Hnd & Hc & (Hy & Hl & Hr)) Hcase.
  unfold splice, get_right, get_left, get_parent, set_right, set_left,
    set_parent, set_root, bind, load, store, ret.
  destruct Hcase as [[-> ->]|[-> ->]];
    [destruct yr as [|x cx xl xk xv xr]|destruct yl as [|x cx xl xk xv xr]];
    (destruct ctx as [|[fa fc fk fv fr|fa fc fl fk fv] rest]);
    simpl in *; destruct_and?; unfold faddrs in *; nodup_facts Hnd.
  all: hsimpl.
  all: eexists; split; [reflexivity|]; simpl; split_and!; try done.
  all: try (hsimpl; done).
  all: try frame_any.
  all: eapply submseteq_NoDup; [|exact Hnd]; solve_submseteq.
Qed.

Lemma wp_splice {A} sz cmp s ctx y c yl k v yr xt (rest : M K V A) Q :
  Inv sz cmp s ctx (T y c yl k v yr) →
  (yl = E ∧ xt = yr) ∨ (yr = E ∧ xt = yl) →
  (∀ s', Inv sz cmp s' ctx xt → heap s' !! y = heap s !! y → wp rest Q s') →
  wp ((if nonnil (ptr_of xt) then set_parent (ptr_of xt) (cpar ctx) else ret tt);;
      yp ← get_parent (Some y);
      (if nonnil yp then
         ypl ← get_left yp;
         if ptr_eqb (Some y) ypl then set_left yp (ptr_of xt) else set_right yp (ptr_of xt)
       else set_root (ptr_of xt));;
      rest) Q s.
Proof.
  intros HI Hcase Hk.
  destruct (splice_run _ _ _ _ _ _ _ _ _ _ _ HI Hcase) as (s' & Hrun & HI' & Hy).
  destruct (Hk s' HI' Hy) as (a & s'' & Hrest & HQ). exists a, s''. split; [|done].
  unfold splice, bind in Hrun |- *.
  repeat case_match; simplify_eq; done.
Qed.

Lemma wp_bind_inv {A B} (m : M K V A) (f : A → M K V B) Q s :
  wp (bind m f) Q s → wp m (λ a s', wp (f a) Q s') s.
Proof.
  intros (b & s'' & Hr & HQ). unfold bind in Hr.
  destruct (m s) as [[a s']| |] eqn:Hm; try done.
  exists a, s'. split; [done|]. by exists b, s''.
Qed.

Lemma wp_splice' {A} sz cmp s ctx y c yl k v yr xt (rest : M K V A) Q :
  Inv sz cmp s ctx (T y c yl k v yr) →
  (yl = E ∧ xt = yr) ∨ (yr = E ∧ xt = yl) →
  (∀ s', Inv sz cmp s' ctx xt → heap s' !! y = heap s !! y → wp rest Q s') →
  wp (if nonnil (ptr_of xt) then set_parent (ptr_of xt) (cpar ctx) else ret tt)
     (λ _ s',
        wp (yp ← get_parent (Some y);
            (if nonnil yp then
               ypl ← get_left yp;
               if ptr_eqb (Some y) ypl then set_left yp (ptr_of xt)
               else set_right yp (ptr_of xt)
             else set_root (ptr_of xt));;
            rest) Q s') s.
Proof. intros. apply wp_bind_inv. by eapply wp_splice. Qed.

Lemma Inv_focus_ne_frame sz cmp s c1 f c2 y c l k v r :
  Inv sz cmp s (c1 ++ f :: c2) (T y c l k v r) → y ≠ faddr f.
Proof.
  intros HI%Inv_NoDup. apply NoDup_app in HI as (_ & Hd & _).
  intros ->. eapply (Hd (faddr f)); [simpl; set_solver|].
  clear. induction c1 as [|g c1 IH]; simpl; unfold faddrs; set_solver.
Qed.

Lemma wp_set_key_keep sz cmp s ctx a c l k v r k' Q :
  Inv sz cmp s ctx (T a c l k v r) →
  (∀ s', Inv sz cmp s' ctx (T a c l k' v r) →
         (∀ b, b ≠ a → heap s' !! b = heap s !! b) → Q tt s') →
  wp (set_key (Some a) k') Q s.
Proof.
  intros HI HQ. eapply wp_store; [eapply Inv_lookup; eassumption|]. simpl.
  apply HQ; [eapply Inv_store_data; eassumption|].
  intros b Hb. simpl. by rewrite lookup_insert_ne.
Qed.

Lemma wp_set_value_keep sz cmp s ctx a c l k v r v' Q :
  Inv sz cmp s ctx (T a c l k v r) →
  (∀ s', Inv sz cmp s' ctx (T a c l k v' r) →
         (∀ b, b ≠ a → heap s' !! b = heap s !! b) → Q tt s') →
  wp (set_value (Some a) v') Q s.
Proof.
  intros HI HQ. eapply wp_store; [eapply Inv_lookup; eassumption|]. simpl.
  apply HQ; [eapply Inv_store_data; eassumption|].
  intros b Hb. simpl. by rewrite lookup_insert_ne.
Qed.

Lemma wp_set_size_Inv sz cmp s ctx t z Q :
  Inv sz cmp s ctx t →
  (∀ s', Inv z cmp s' ctx t → heap s' = heap s → Q tt s') →
  wp (set_size z) Q s.
Proof.
  intros (? & ? & ? & ? & ?) HQ. apply wp_set_size. apply HQ; [|done].
  by split_and!.
Qed.

(** ** Allocation and linking of a new leaf *)

Lemma own_is_Some h par t a : own h par t → a ∈ addrs t → is_Some (h !! a).
Proof.
  revert par. induction t as [|b c l IHl k v r IHr]; intros par; simpl; [set_solver|].
  intros (Hb & Hl & Hr). rewrite elem_of_app, elem_of_cons.
  intros [?|[->|?]]; eauto.
Qed.

Lemma cown_is_Some h rt hp ctx a : cown h rt hp ctx → a ∈ caddrs ctx → is_Some (h !! a).
Proof.
  revert hp. induction ctx as [|f ctx IH]; intros hp; simpl; [set_solver|].
  intros (Hf & Hs & Hc). unfold faddrs. simpl. rewrite elem_of_cons, elem_of_app.
  intros [->|[?|?]]; eauto using own_is_Some.
Qed.

Lemma Inv_is_Some sz cmp s ctx t a :
  Inv sz cmp s ctx t → a ∈ addrs t ++ caddrs ctx → is_Some (heap s !! a).
Proof.
  intros (_ & _ & _ & Hc & Ho). rewrite elem_of_app.
  intros [?|?]; eauto using own_is_Some, cown_is_Some.
Qed.

Lemma wp_alloc s n Q :
  (∀ a, heap s !! a = None →
        Q (Some a) (mkRbTree (<[a := n]> (heap s)) (root s) (size s) (keyCmp s))) →
  wp (alloc n) Q s.
Proof.
  intros HQ. eexists _, _. split; [reflexivity|]. apply HQ.
  apply not_elem_of_dom, is_fresh.
Qed.

Lemma Inv_alloc sz cmp s ctx t a n :
  Inv sz cmp s ctx t → heap s !! a = None →
  Inv sz cmp (mkRbTree (<[a := n]> (heap s)) (root s) (size s) (keyCmp s)) ctx t.
Proof.
  intros HI Ha. pose proof HI as (? & ? & ? & Hc & Ho). split_and!; simpl; try done.
  - eapply cown_frame; [|done]. intros b Hb. rewrite lookup_insert_ne; [done|].
    intros ->. destruct (cown_is_Some _ _ _ _ _ Hc Hb) as [? ?]. congruence.
  - eapply own_frame; [|done]. intros b Hb. rewrite lookup_insert_ne; [done|].
    intros ->. destruct (own_is_Some _ _ _ _ Ho Hb) as [? ?]. congruence.
Qed.

(** The new leaf [z] takes the place of the empty tree in focus. *)
Lemma Inv_attach_root sz cmp s z k v n :
  Inv sz cmp s [] E → heap s !! z = Some n →
  Inv sz cmp
    (mkRbTree (<[z := mkNode None None None BLACK k v]> (heap s)) (Some z) (size s) (keyCmp s))
    [] (T z BLACK E k v E).
Proof.
  intros (? & ? & ? & ? & ?) Hz. split_and!; simpl; try done.
  - apply NoDup_singleton.
  - by rewrite lookup_insert_eq.
Qed.

Lemma Inv_attach sz cmp s f ctx z c k v :
  Inv sz cmp s (f :: ctx) E →
  heap s !! z = Some (mkNode (Some (faddr f)) None None c k v) →
  z ∉ caddrs (f :: ctx) →
  Inv sz cmp
    (mkRbTree (<[faddr f := fnode f (Some z) (cpar ctx)]> (heap s)) (root s) (size s) (keyCmp s))
    (f :: ctx) (T z c E k v E).
Proof.
  intros (? & ? & Hnd & Hc & _) Hz Hni. split_and!; simpl; try done.
  - simpl in Hnd. apply NoDup_cons. split; [|done]. done.
  - pose proof (cown_set_hole _ _ _ (Some z) _ _ Hnd Hc) as Hc'. simpl in Hc'. exact Hc'.
  - rewrite lookup_insert_ne; [done|]. intros <-. apply Hni. simpl. unfold faddrs. set_solver.
Qed.

Lemma Inv_dL sz cmp s ctx a c l k v r :
  Inv sz cmp s ctx (T a c l k v r) → Inv sz cmp s (FL a c k v r :: ctx) l.
Proof. apply Inv_L. Qed.

Lemma Inv_dR sz cmp s ctx a c l k v r :
  Inv sz cmp s ctx (T a c l k v r) → Inv sz cmp s (FR a c l k v :: ctx) r.
Proof. apply Inv_R. Qed.

Lemma Inv_u sz cmp s f ctx t :
  Inv sz cmp s (f :: ctx) t → Inv sz cmp s ctx (fill f t).
Proof. apply Inv_up. Qed.

End WPFacts.

(** * Red-black trees and red-black contexts: lemmas *)

Section RBFacts.
Context {K V : Type}.
Implicit Types (t l r : @tree K V) (f : @frame K V) (ctx : list (@frame K V)).

Lemma inorder_blacken t : inorder (blacken t) = inorder t.
Proof. by destruct t. Qed.

Lemma crb_plug n ctx t :
  crb n ctx → rb n t → (tcolor t = RED → ccolor ctx = BLACK ∧ ctx ≠ []) →
  is_rbtree (plug ctx t).
Proof.
  revert n t. induction ctx as [|f ctx IH]; intros n t Hc Ht Hcol; simpl.
  - split; [|by eauto]. destruct (tcolor t); [done|]. by destruct Hcol as [_ []].
  - simpl in Hc. destruct Hc as (Hs & Hc). destruct f as [a [] k v r|a [] l k v]; simpl in *.
    + eapply IH; [exact Hc| |done]. simpl. eauto.
    + destruct Hc as (Hcs & Hcr & Hne & Hc). eapply IH; [exact Hc| |done]. simpl.
      split_and!; try done. destruct (tcolor t); [done|]. by destruct Hcol as [? _].
    + eapply IH; [exact Hc| |done]. simpl. eauto.
    + destruct Hc as (Hcs & Hcr & Hne & Hc). eapply IH; [exact Hc| |done]. simpl.
      split_and!; try done. destruct (tcolor t); [done|]. by destruct Hcol as [? _].
Qed.

Lemma inorder_plug ctx t : inorder (plug ctx t) = cbefore ctx ++ inorder t ++ cafter ctx.
Proof.
  revert t. induction ctx as [|f ctx IH]; intros t; simpl.
  - by rewrite app_nil_r.
  - rewrite IH. destruct f; simpl; by rewrite <-?(assoc_L (++)).
Qed.

Lemma rb_plug_inv ctx t :
  is_rbtree (plug ctx t) →
  ∃ n, rb n t ∧ crb n ctx ∧ (tcolor t = RED → ccolor ctx = BLACK ∧ ctx ≠ []).
Proof.
  revert t. induction ctx as [|f ctx IH]; intros t; simpl.
  - intros [Hc [n Hn]]. exists n. split_and!; try done. congruence.
  - intros Hrb. destruct (IH _ Hrb) as (n & Hn & Hc & Hcol).
    destruct f as [a [] k v r|a [] l k v]; simpl in *.
    + destruct Hn as (m & -> & ? & ?). exists m. by split_and!.
    + destruct Hn as (? & ? & ? & ?). destruct Hcol as [? ?]; [done|].
      exists n. split_and!; try done. congruence.
    + destruct Hn as (m & -> & ? & ?). exists m. by split_and!.
    + destruct Hn as (? & ? & ? & ?). destruct Hcol as [? ?]; [done|].
      exists n. split_and!; try done. congruence.
Qed.

Lemma plug_app ctx1 ctx2 t : plug (ctx1 ++ ctx2) t = plug ctx2 (plug ctx1 t).
Proof. revert t. induction ctx1 as [|f ctx1 IH]; intros t; simpl; [done|]. apply IH. Qed.

(** Every node of a tree is the root of a subtree in some context. *)
Lemma tree_split t a :
  a ∈ addrs t → ∃ ctx c l k v r, t = plug ctx (T a c l k v r).
Proof.
  induction t as [|b c l IHl k v r IHr]; simpl; [set_solver|].
  rewrite elem_of_app, elem_of_cons. intros [Hl|[->|Hr]].
  - destruct (IHl Hl) as (ctx & c' & l' & k' & v' & r' & ->).
    exists (ctx ++ [FL b c k v r]), c', l', k', v', r'. by rewrite plug_app.
  - by exists [], c, l, k, v, r.
  - destruct (IHr Hr) as (ctx & c' & l' & k' & v' & r' & ->).
    exists (ctx ++ [FR b c l k v]), c', l', k', v', r'. by rewrite plug_app.
Qed.

Lemma crb_sim n ctx ctx' : Forall2 frame_sim ctx ctx' → crb n ctx → crb n ctx'.
Proof.
  intros H. revert n. induction H as [|f g ctx ctx' (Ha & Hc & Hs) Hctx IH]; intros n; [done|].
  simpl. rewrite <-Hs, <-Hc. intros [? Hr]. split; [done|].
  destruct (fcolor f); [by apply IH|].
  destruct Hr as (? & ? & ? & ?). split_and!; try done.
  - destruct Hctx as [|? ? ? ? (_ & ? & _) _]; simpl in *; congruence.
  - by destruct Hctx.
  - by apply IH.
Qed.

Lemma cpar_sim ctx ctx' : Forall2 frame_sim ctx ctx' → cpar ctx = cpar ctx'.
Proof. intros [|f g ? ? (Ha & _) _]; simpl; congruence. Qed.

Lemma cbefore_app ctx1 ctx2 : cbefore (ctx1 ++ ctx2) = cbefore ctx2 ++ cbefore ctx1.
Proof.
  induction ctx1 as [|[] ctx1 IH]; simpl; [by rewrite app_nil_r|done|].
  by rewrite IH, <-(assoc_L (++)).
Qed.

Lemma cafter_app ctx1 ctx2 : cafter (ctx1 ++ ctx2) = cafter ctx1 ++ cafter ctx2.
Proof.
  induction ctx1 as [|[] ctx1 IH]; simpl; [done| |done].
  by rewrite IH, <-(assoc_L (++)).
Qed.

Lemma cbefore_FL ctx : Forall is_FL ctx → cbefore ctx = [].
Proof. induction 1 as [|[] ctx Hf _ IH]; simpl; done. Qed.

Lemma cafter_FR ctx : Forall is_FR ctx → cafter ctx = [].
Proof. induction 1 as [|[] ctx Hf _ IH]; simpl; done. Qed.

Lemma height_le_addrs t : (height t ≤ length (addrs t))%nat.
Proof.
  induction t as [|a c l IHl k v r IHr]; simpl; [done|].
  rewrite length_app. simpl. lia.
Qed.

Lemma length_caddrs ctx : (length ctx ≤ length (caddrs ctx))%nat.
Proof.
  induction ctx as [|f ctx IH]; simpl; [done|]. rewrite length_app. simpl. lia.
Qed.

Lemma length_addrs_plug ctx t :
  length (addrs (plug ctx t)) = (length (addrs t) + length (caddrs ctx))%nat.
Proof. by rewrite addrs_plug, length_app. Qed.

Lemma plug_ne_E ctx t : t ≠ E → plug ctx t ≠ E.
Proof.
  revert t. induction ctx as [|f ctx IH]; intros t Ht; simpl; [done|].
  apply IH. by destruct f.
Qed.

Lemma inorder_plug_eq ctx t t' : inorder t = inorder t' → inorder (plug ctx t) = inorder (plug ctx t').
Proof. intros H. by rewrite !inorder_plug, H. Qed.

Lemma tcolor_black_cases t :
  tcolor t = BLACK → t = E ∨ ∃ a l k v r, t = T a BLACK l k v r.
Proof. destruct t as [|a [] l k v r]; simpl; [eauto|eauto 8|done]. Qed.

End RBFacts.

(** Lookups of all nodes that an invariant shows explicitly. *)
Ltac inv_facts H :=
  let H' := fresh "HL" in
  pose proof H as H'; unfold Inv in H'; simpl in H';
  destruct H' as (_ & _ & _ & H'); destruct_and? H';
  repeat match goal with
   | X : own _ _ _ |- _ => clear X
   | X : cown _ _ _ _ |- _ => clear X
   | X : True |- _ => clear X
   end.

Ltac inv_addrs H :=
  let H' := fresh "HN" in
  pose proof (Inv_NoDup _ _ _ _ _ H) as H'; unfold faddrs in H'; simpl in H';
  nodup_facts H'; clear H'.

Ltac clear_lookups s :=
  repeat match goal with
   | X : heap s !! _ = _ |- _ => clear X
   | X : root s = _ |- _ => clear X
   end.

(** Run reads and pure steps. *)
Ltac wp_step :=
  lazymatch goal with
  | |- wp (bind _ _) _ _ => apply wp_bind
  | |- wp (ret _) _ _ => apply wp_ret
  | |- wp (get_parent (Some _)) _ _ => eapply wp_get_parent; [eassumption|]
  | |- wp (get_left (Some _)) _ _ => eapply wp_get_left; [eassumption|]
  | |- wp (get_right (Some _)) _ _ => eapply wp_get_right; [eassumption|]
  | |- wp (get_color (Some _)) _ _ => eapply wp_get_color; [eassumption|]
  | |- wp (get_key (Some _)) _ _ => eapply wp_get_key; [eassumption|]
  | |- wp (get_value (Some _)) _ _ => eapply wp_get_value; [eassumption|]
  | |- wp get_root _ _ => apply wp_get_root
  | |- wp get_keyCmp _ _ => apply wp_get_keyCmp
  | |- wp get_size _ _ => apply wp_get_size
  | |- context [ptr_eqb ?p ?p] => rewrite ptr_eqb_refl
  | |- context [ptr_eqb _ _] => rewrite ptr_eqb_ne by ptr_ne
  end.
Ltac wp_go := repeat first [ wp_step | progress cbn [parent left right color key value nonnil negb andb orb fst snd ptr_of cpar faddr fill] ].

(** A write through the invariant [HI] on state [s], focused on the node
    written; afterwards [HI] is the invariant of the new state, again [s]. *)
Ltac wp_set lem HI s :=
  wp_go; eapply lem; [exact HI|];
  clear dependent s; intros s HI.

Ltac focus_up HI := apply Inv_u in HI; cbn [fill] in HI.
Ltac focus_L HI := apply Inv_dL in HI.
Ltac focus_R HI := apply Inv_dR in HI.

Ltac list_norm :=
  repeat first [ rewrite <-app_assoc | rewrite app_nil_r | progress simpl ].

Ltac clear_addr_facts :=
  repeat match goal with
  | H : _ ≠ _ |- _ => clear H
  | H : _ ∉ _ |- _ => clear H
  | H : ldisj _ _ |- _ => clear H
  | H : NoDup _ |- _ => clear H
  | H : heap _ !! _ = _ |- _ => clear H
  end.

Ltac rb_hyps :=
  cbn [rb crb fsib fcolor tcolor ccolor blacken] in *;
  repeat match goal with
  | H : _ ∧ _ |- _ => destruct H
  | H : ∃ _, _ |- _ => destruct H
  end;
  simplify_eq.

Ltac rb_auto := rb_hyps; repeat first [ done | split | eexists ].

(** * Insert and its fixup: lemmas *)

Section InsertFixupFacts.
Context {K V : Type}.
Implicit Types (t l r : @tree K V) (f : @frame K V) (ctx : list (@frame K V)) (s : RbTree K V).

Ltac fin_IH IH HI n :=
  clear_addr_facts;
  eapply wp_mono;
  [ eapply (IH _ _ _ _ _ _ _ n); [|exact HI|..];
    [cbn [length] in *; lia|rb_auto..]
  | let Hin := fresh "Hin" in
    intros _ ? (t' & ? & ? & ? & Hin); exists t'; split_and!; try done;
    rewrite Hin; cbn [plug fill]; apply inorder_plug_eq; by list_norm ].

Lemma rbInsertFixup_loop_spec sz cmp fuel : ∀ s ctx z zl zk zv zr n,
  (length ctx < fuel)%nat →
  Inv sz cmp s ctx (T z RED zl zk zv zr) →
  rb n (T z RED zl zk zv zr) → crb n ctx →
  wp (rbInsertFixup_loop fuel (Some z))
     (λ _ s', ∃ t', Inv sz cmp s' [] t' ∧ t' ≠ E ∧ (∃ m, rb m (blacken t'))
                    ∧ inorder t' = inorder (plug ctx (T z RED zl zk zv zr))) s.
Proof.
  induction fuel as [|fuel IH]; intros s ctx z zl zk zv zr n Hfuel HI Hrb Hcrb; [lia|].
  simpl rbInsertFixup_loop. unfold parent_is_red, is_red.
  destruct ctx as [|f1 ctx].
  { (* z is the root *)
    inv_facts HI. wp_go. eexists. split_and!; [done|done| |done].
    simpl in *. destruct Hrb as (? & ? & ? & ?). eauto. }
  assert (∀ s', Inv sz cmp s' (f1 :: ctx) (T z false zl zk zv zr) → fcolor f1 = BLACK →
    ∃ t', Inv sz cmp s' [] t' ∧ t' ≠ E ∧ (∃ m, rb m (blacken t'))
          ∧ inorder t' = inorder (plug (f1 :: ctx) (T z false zl zk zv zr))) as Hdone.
  { intros s' HI' Hb. exists (plug (f1 :: ctx) (T z false zl zk zv zr)). split_and!; [|..|done].
    - by apply Inv_whole in HI'.
    - by apply plug_ne_E.
    - destruct (crb_plug n (f1 :: ctx) (T z false zl zk zv zr)) as [Hc [m Hm]]; try done.
      exists m. destruct (plug (f1 :: ctx) (T z false zl zk zv zr)) as [|? []]; try done. }
  destruct f1 as [p [] pk pv pr|p [] pl pk pv]; simpl in Hcrb.
  { inv_facts HI. wp_go. eauto. }
  2:{ inv_facts HI. wp_go. eauto. }
  - (* parent red, z is its left child *)
    clear Hdone. destruct Hcrb as (Hpr & Hprc & Hgc & Hne & Hcrb).
    destruct ctx as [|f2 ctx]; [done|]. clear Hne.
    destruct f2 as [g gc gk gv u|g gc u gk gv]; simpl in Hgc; subst gc;
      simpl in Hcrb; destruct Hcrb as (Hu & Hcrb);
      destruct u as [|y [] yl yk yv yr];
      inv_facts HI; inv_addrs HI; wp_go.
    + focus_up HI. wp_set (@wp_set_color K V) HI s.
      focus_up HI. inv_facts HI. wp_set (@wp_set_color K V) HI s.
      inv_facts HI. wp_set (@wp_rightRotate K V) HI s.
      focus_L HI. fin_IH IH HI n.
    + focus_up HI. wp_set (@wp_set_color K V) HI s.
      focus_up HI. inv_facts HI. wp_set (@wp_set_color K V) HI s.
      inv_facts HI. wp_set (@wp_rightRotate K V) HI s.
      focus_L HI. fin_IH IH HI n.
    + focus_up HI. wp_set (@wp_set_color K V) HI s.
      focus_up HI. focus_R HI. wp_set (@wp_set_color K V) HI s.
      focus_up HI. inv_facts HI. wp_set (@wp_set_color K V) HI s.
      inv_facts HI. wp_go. fin_IH IH HI (S n).
    + focus_up HI. wp_set (@wp_rightRotate K V) HI s.
      inv_facts HI. wp_set (@wp_set_color K V) HI s.
      focus_up HI. inv_facts HI. wp_set (@wp_set_color K V) HI s.
      inv_facts HI. wp_set (@wp_leftRotate K V) HI s.
      focus_R HI. fin_IH IH HI n.
    + focus_up HI. wp_set (@wp_rightRotate K V) HI s.
      inv_facts HI. wp_set (@wp_set_color K V) HI s.
      focus_up HI. inv_facts HI. wp_set (@wp_set_color K V) HI s.
      inv_facts HI. wp_set (@wp_leftRotate K V) HI s.
      focus_R HI. fin_IH IH HI n.
    + focus_up HI. wp_set (@wp_set_color K V) HI s.
      focus_up HI. focus_L HI. wp_set (@wp_set_color K V) HI s.
      focus_up HI. inv_facts HI. wp_set (@wp_set_color K V) HI s.
      inv_facts HI. wp_go. fin_IH IH HI (S n).
  - (* parent red, z is its right child *)
    clear Hdone. destruct Hcrb as (Hpr & Hprc & Hgc & Hne & Hcrb).
    destruct ctx as [|f2 ctx]; [done|]. clear Hne.
    destruct f2 as [g gc gk gv u|g gc u gk gv]; simpl in Hgc; subst gc;
      simpl in Hcrb; destruct Hcrb as (Hu & Hcrb);
      destruct u as [|y [] yl yk yv yr];
      inv_facts HI; inv_addrs HI; wp_go.
    + focus_up HI. wp_set (@wp_leftRotate K V) HI s.
      inv_facts HI. wp_set (@wp_set_color K V) HI s.
      focus_up HI. inv_facts HI. wp_set (@wp_set_color K V) HI s.
      inv_facts HI. wp_set (@wp_rightRotate K V) HI s.
      focus_L HI. fin_IH IH HI n.
    + focus_up HI. wp_set (@wp_leftRotate K V) HI s.
      inv_facts HI. wp_set (@wp_set_color K V) HI s.
      focus_up HI. inv_facts HI. wp_set (@wp_set_color K V) HI s.
      inv_facts HI. wp_set (@wp_rightRotate K V) HI s.
      focus_L HI. fin_IH IH HI n.
    + focus_up HI. wp_set (@wp_set_color K V) HI s.
      focus_up HI. focus_R HI. wp_set (@wp_set_color K V) HI s.
      focus_up HI. inv_facts HI. wp_set (@wp_set_color K V) HI s.
      inv_facts HI. wp_go. fin_IH IH HI (S n).
    + focus_up HI. wp_set (@wp_set_color K V) HI s.
      focus_up HI. inv_facts HI. wp_set (@wp_set_color K V) HI s.
      inv_facts HI. wp_set (@wp_leftRotate K V) HI s.
      focus_R HI. fin_IH IH HI n.
    + focus_up HI. wp_set (@wp_set_color K V) HI s.
      focus_up HI. inv_facts HI. wp_set (@wp_set_color K V) HI s.
      inv_facts HI. wp_set (@wp_leftRotate K V) HI s.
      focus_R HI. fin_IH IH HI n.
    + focus_up HI. wp_set (@wp_set_color K V) HI s.
      focus_up HI. focus_L HI. wp_set (@wp_set_color K V) HI s.
      focus_up HI. inv_facts HI. wp_set (@wp_set_color K V) HI s.
      inv_facts HI. wp_go. fin_IH IH HI (S n).
Qed.

Lemma rbInsertFixup_spec sz cmp fuel s ctx z zl zk zv zr n :
  (length ctx < fuel)%nat →
  Inv sz cmp s ctx (T z RED zl zk zv zr) →
  rb n (T z RED zl zk zv zr) → crb n ctx →
  wp (rbInsertFixup fuel (Some z))
     (λ _ s', ∃ t', Inv sz cmp s' [] t' ∧ is_rbtree t'
                    ∧ inorder t' = inorder (plug ctx (T z RED zl zk zv zr))) s.
Proof.
  intros Hfuel HI Hrb Hcrb. unfold rbInsertFixup. apply wp_bind.
  eapply wp_mono; [by eapply rbInsertFixup_loop_spec|].
  intros _ s' (t' & HI' & Hne & [m Hm] & Hin). wp_go.
  rewrite (Inv_root _ _ _ _ HI'). destruct t' as [|a c l k v r]; [done|].
  eapply wp_set_color; [exact HI'|]. intros s'' HI''.
  eexists. split_and!; [exact HI''| |done]. split; [done|]. eauto.
Qed.

Lemma ins_ctx_plug cmp k t ctx : plug (ins_ctx cmp k t ctx) E = plug ctx t.
Proof.
  revert ctx. induction t as [|a c l IHl ka va r IHr]; intros ctx; simpl; [done|].
  destruct (cmp k ka <? 0); [by rewrite IHl|by rewrite IHr].
Qed.

Lemma ins_ctx_path cmp k t ctx :
  Forall (frame_path cmp k) ctx → Forall (frame_path cmp k) (ins_ctx cmp k t ctx).
Proof.
  revert ctx. induction t as [|a c l IHl ka va r IHr]; intros ctx Hctx; simpl; [done|].
  destruct (Z.ltb_spec (cmp k ka) 0).
  - apply IHl. by constructor.
  - apply IHr. constructor; [simpl; lia|done].
Qed.

Lemma wp_Insert_loop sz cmp fuel k : ∀ s ctx t Q,
  (height t < fuel)%nat → Inv sz cmp s ctx t →
  Q (cpar (ins_ctx cmp k t ctx)) s →
  wp (Insert_loop fuel k (ptr_of t) (cpar ctx)) Q s.
Proof.
  induction fuel as [|fuel IH]; intros s ctx t Q Hh HI HQ; [lia|].
  destruct t as [|a c l ka va r]; simpl Insert_loop.
  - cbn [ptr_of nonnil]. by apply wp_ret.
  - cbn [ptr_of nonnil]. inv_facts HI. wp_go. rewrite (Inv_keyCmp _ _ _ _ _ HI). wp_go.
    simpl in HQ, Hh. destruct (cmp k ka <? 0); wp_go.
    + focus_L HI. apply (IH s (FL a c ka va r :: ctx) l); [lia|done|done].
    + focus_R HI. apply (IH s (FR a c l ka va :: ctx) r); [lia|done|done].
Qed.

Lemma Insert_spec sz cmp fuel s t k v :
  (length (addrs t) + 1 < fuel)%nat →
  Inv sz cmp s [] t → is_rbtree t →
  wp (Insert fuel k v)
     (λ _ s', ∃ t' z, Inv (int_wrap (sz + 1)) cmp s' [] t' ∧ is_rbtree t'
        ∧ heap s !! z = None
        ∧ inorder t' = cbefore (ins_ctx cmp k t []) ++ (z, k, v) :: cafter (ins_ctx cmp k t [])) s.
Proof.
  intros Hfuel HI Hrb. unfold Insert. wp_go. rewrite (Inv_root _ _ _ _ HI).
  pose proof (height_le_addrs t).
  apply (wp_Insert_loop sz cmp fuel k s [] t); [lia|done|].
  set (ctx := ins_ctx cmp k t []).
  assert (plug ctx E = t) as Hplug by apply ins_ctx_plug.
  assert (Forall (frame_path cmp k) ctx) as Hpath by (by apply ins_ctx_path).
  rewrite <-Hplug in HI, Hrb, Hfuel. apply Inv_whole in HI.
  assert (∀ z, heap s !! z = None → z ∉ caddrs ctx) as Hfresh.
  { intros z Hz Hin. destruct (Inv_is_Some _ _ _ _ _ z HI) as [? Hs]; [by simpl|]. congruence. }
  apply wp_bind, wp_alloc. intros z Hz.
  eapply Inv_alloc in HI; [|exact Hz]. wp_go. rewrite (Inv_size _ _ _ _ _ HI).
  eapply wp_set_size_Inv; [exact HI|]. intros s1 HI1 Hh1.
  assert (heap s1 !! z = Some (mkNode (cpar ctx) None None RED k v)) as Hz1.
  { rewrite Hh1. simpl. by rewrite lookup_insert_eq. }
  clear HI Hh1. destruct ctx as [|f ctx'] eqn:Hctx; cbn [cpar nonnil] in *.
  - eapply wp_bind, wp_store; [exact Hz1|]. apply wp_set_root. cbn [heap size keyCmp root].
    exists (T z BLACK E k v E), z. split_and!; [by eapply Inv_attach_root| |done|done].
    split; [done|]. exists 1%nat. simpl. eauto.
  - destruct (rb_plug_inv _ _ Hrb) as (n & Hn & Hcrb & _). simpl in Hn. subst n.
    pose proof (Forall_inv Hpath) as Hf.
    assert (length (f :: ctx') < fuel)%nat as Hlen.
    { rewrite length_addrs_plug in Hfuel. pose proof (length_caddrs (f :: ctx')). simpl in *. lia. }
    inv_facts HI1. wp_go. rewrite (Inv_keyCmp _ _ _ _ _ HI1). wp_go.
    eapply Inv_attach in HI1; [|exact Hz1|by apply Hfresh].
    assert (∀ s2, Inv (int_wrap (sz + 1)) cmp s2 (f :: ctx') (T z RED E k v E) →
      wp (rbInsertFixup fuel (Some z))
        (λ _ s', ∃ t' z0, Inv (int_wrap (sz + 1)) cmp s' [] t' ∧ is_rbtree t'
           ∧ heap s !! z0 = None
           ∧ inorder t' = cbefore (f :: ctx') ++ (z0, k, v) :: cafter (f :: ctx')) s2) as Hfix.
    { intros s2 HI2. eapply wp_mono.
      { eapply (rbInsertFixup_spec _ _ _ _ _ _ _ _ _ _ 0%nat); [exact Hlen|exact HI2|by simpl|done]. }
      intros _ s' (t' & HI' & Hrb' & Hin'). exists t', z. split_and!; try done.
      by rewrite Hin', inorder_plug. }
    destruct f as [a c ka va r|a c l ka va]; cbn [fnode key faddr] in *.
    + apply Z.ltb_lt in Hf. rewrite Hf.
      eapply wp_store; [eassumption|]. cbn [parent left right color key value].
      by apply Hfix.
    + apply Z.ltb_nlt in Hf. rewrite Hf.
      eapply wp_store; [eassumption|]. cbn [parent left right color key value].
      by apply Hfix.
Qed.

End InsertFixupFacts.

(** * The two sides of the delete fixup: lemmas *)

Section DeleteFixupFacts.
Context {K V : Type}.
Implicit Types (t l r : @tree K V) (f : @frame K V) (ctx : list (@frame K V)) (s : RbTree K V).

Lemma rbFixupLeft_unfold x parent w0 :
  rbFixupLeft (K:=K) (V:=V) x parent w0 =
  (w ← get_right parent;
   wc ← get_color w;
   w ← (if negb wc then
          set_color w BLACK;;
          set_color parent RED;;
          leftRotate parent;;
          get_right parent
        else ret w);
   rbFixupLeft_tail x parent w).
Proof. reflexivity. Qed.

(** The end of case 4: the rotation has repaired the tree, [x] is the root. *)
Ltac fin_root HI ctx0 n pc :=
  wp_go;
  let HI' := fresh "HI" in
  pose proof HI as HI';
  apply Inv_whole in HI'; rewrite (Inv_root _ _ _ _ HI');
  lazymatch type of HI with
  | Inv _ _ _ _ ?t' =>
      let Hrbt := fresh "Hrbt" in
      assert (is_rbtree (plug ctx0 t')) as Hrbt
        by (destruct pc;
            [ apply (crb_plug (S (S n))) | apply (crb_plug (S n)) ];
            rb_auto);
      destruct Hrbt as [? [m ?]];
      exists [], (plug ctx0 t'), m; cbn [fst]; split_and!;
      [ reflexivity | by apply plug_ne_E | exact HI' | exact I
      | by left | by right
      | cbn [plug fill]; apply inorder_plug_eq; by list_norm ]
  end.

Ltac ex_focus HI c n :=
  lazymatch type of HI with Inv _ _ _ _ ?t => exists c, t, n end.

Ltac case2 HI s ctx0 n pc :=
  focus_up HI; focus_R HI; wp_set (@wp_set_color K V) HI s; wp_go;
  focus_up HI; destruct pc;
  [ ex_focus HI ctx0 (S n) | ex_focus HI ctx0 n ];
  (split_and!;
   [reflexivity|done|exact HI|rb_auto
   |unfold def_ok; first [left; by rb_auto|right; by rb_auto]
   |by left
   |cbn [plug fill]; apply inorder_plug_eq; by list_norm]).

Ltac case4 HI s ctx0 n pc :=
  focus_up HI; focus_R HI; wp_set (@wp_set_color K V) HI s;
  focus_up HI; wp_set (@wp_set_color K V) HI s;
  inv_facts HI; wp_go;
  focus_R HI; focus_R HI; wp_set (@wp_set_color K V) HI s;
  focus_up HI; focus_up HI; wp_set (@wp_leftRotate K V) HI s;
  fin_root HI ctx0 n pc.

Ltac case3 HI s ctx0 n pc :=
  focus_up HI; focus_R HI; focus_L HI; wp_set (@wp_set_color K V) HI s;
  focus_up HI; wp_set (@wp_set_color K V) HI s;
  wp_set (@wp_rightRotate K V) HI s;
  inv_facts HI; wp_go;
  wp_set (@wp_set_color K V) HI s;
  focus_up HI; wp_set (@wp_set_color K V) HI s;
  inv_facts HI; wp_go;
  focus_R HI; focus_R HI; wp_set (@wp_set_color K V) HI s;
  focus_up HI; focus_up HI; wp_set (@wp_leftRotate K V) HI s;
  fin_root HI ctx0 n pc.

Lemma rbFixupLeft_tail_spec sz cmp s ctx0 p pc pk pv w a wk wv b t n x0 :
  Inv sz cmp s (FL p pc pk pv (T w BLACK a wk wv b) :: ctx0) t →
  crb (S n) (FL p pc pk pv (T w BLACK a wk wv b) :: ctx0) →
  rb n t → tcolor t = BLACK →
  wp (rbFixupLeft_tail x0 (Some p) (Some w))
     (fix_post sz cmp (λ ctx' t', (ctx' = ctx0 ∧ tcolor t' = pc) ∨ ctx' = [])
        (plug (FL p pc pk pv (T w BLACK a wk wv b) :: ctx0) t)) s.
Proof.
  intros HI Hcrb Hrb Hcol. unfold rbFixupLeft_tail, getColor.
  destruct a as [|a' [] al ak av ar], b as [|b' [] bl bk bv br];
    try (by exfalso; clear HI; rb_auto); inv_facts HI; wp_go.
  - case2 HI s ctx0 n pc.
  - case4 HI s ctx0 n pc.
  - case2 HI s ctx0 n pc.
  - case4 HI s ctx0 n pc.
  - case3 HI s ctx0 n pc.
  - case3 HI s ctx0 n pc.
  - case4 HI s ctx0 n pc.
Qed.

Lemma rbFixupLeft_spec sz cmp s ctx0 p pc pk pv W t n x0 w0 :
  Inv sz cmp s (FL p pc pk pv W :: ctx0) t →
  crb (S n) (FL p pc pk pv W :: ctx0) →
  rb n t → tcolor t = BLACK →
  wp (rbFixupLeft x0 (Some p) w0)
     (fix_post sz cmp (moved_up (FL p pc pk pv W :: ctx0))
        (plug (FL p pc pk pv W :: ctx0) t)) s.
Proof.
  intros HI Hcrb Hrb Hcol. rewrite rbFixupLeft_unfold.
  destruct W as [|w [] a wk wv b]; try (by exfalso; clear HI; rb_auto).
  - inv_facts HI. wp_go. eapply wp_mono.
    { eapply rbFixupLeft_tail_spec; eauto. }
    intros res s' (ctx' & t' & n' & ? & ? & ? & ? & ? & Hp & ?).
    exists ctx', t', n'. split_and!; try done.
    destruct Hp as [[-> _]| ->]; [left; simpl; lia|by right; right].
  - destruct pc; try (by exfalso; clear HI; rb_auto).
    destruct a as [|a' [] al ak av ar]; try (by exfalso; clear HI; rb_auto).
    inv_facts HI. wp_go.
    focus_up HI. focus_R HI. wp_set (@wp_set_color K V) HI s.
    focus_up HI. wp_set (@wp_set_color K V) HI s.
    wp_set (@wp_leftRotate K V) HI s.
    inv_facts HI. wp_go. focus_L HI. focus_L HI.
    eapply wp_mono.
    { eapply rbFixupLeft_tail_spec with (n := n); [exact HI|..]; clear HI; rb_auto. }
    intros res s' (ctx' & t' & n' & ? & ? & ? & ? & ? & Hp & Hin).
    exists ctx', t', n'. split_and!; try done.
    + destruct Hp as [[-> ?]| ->]; [by right; left|by right; right].
    + rewrite Hin. cbn [plug fill]. apply inorder_plug_eq. by list_norm.
Qed.

Lemma rbFixupRight_unfold x parent w0 :
  rbFixupRight (K:=K) (V:=V) x parent w0 =
  (w ← get_left parent;
   wc ← get_color w;
   w ← (if negb wc then
          set_color w BLACK;;
          set_color parent RED;;
          rightRotate parent;;
          get_left parent
        else ret w);
   rbFixupRight_tail x parent w).
Proof. reflexivity. Qed.

Ltac case2R HI s ctx0 n pc :=
  focus_up HI; focus_L HI; wp_set (@wp_set_color K V) HI s; wp_go;
  focus_up HI; destruct pc;
  [ ex_focus HI ctx0 (S n) | ex_focus HI ctx0 n ];
  (split_and!;
   [reflexivity|done|exact HI|rb_auto
   |unfold def_ok; first [left; by rb_auto|right; by rb_auto]
   |by left
   |cbn [plug fill]; apply inorder_plug_eq; by list_norm]).

Ltac case4R HI s ctx0 n pc :=
  focus_up HI; focus_L HI; wp_set (@wp_set_color K V) HI s;
  focus_up HI; wp_set (@wp_set_color K V) HI s;
  inv_facts HI; wp_go;
  focus_L HI; focus_L HI; wp_set (@wp_set_color K V) HI s;
  focus_up HI; focus_up HI; wp_set (@wp_rightRotate K V) HI s;
  fin_root HI ctx0 n pc.

Ltac case3R HI s ctx0 n pc :=
  focus_up HI; focus_L HI; focus_R HI; wp_set (@wp_set_color K V) HI s;
  focus_up HI; wp_set (@wp_set_color K V) HI s;
  wp_set (@wp_leftRotate K V) HI s;
  inv_facts HI; wp_go;
  wp_set (@wp_set_color K V) HI s;
  focus_up HI; wp_set (@wp_set_color K V) HI s;
  inv_facts HI; wp_go;
  focus_L HI; focus_L HI; wp_set (@wp_set_color K V) HI s;
  focus_up HI; focus_up HI; wp_set (@wp_rightRotate K V) HI s;
  fin_root HI ctx0 n pc.

Lemma rbFixupRight_tail_spec sz cmp s ctx0 p pc pk pv w a wk wv b t n x0 :
  Inv sz cmp s (FR p pc (T w BLACK a wk wv b) pk pv :: ctx0) t →
  crb (S n) (FR p pc (T w BLACK a wk wv b) pk pv :: ctx0) →
  rb n t → tcolor t = BLACK →
  wp (rbFixupRight_tail x0 (Some p) (Some w))
     (fix_post sz cmp (λ ctx' t', (ctx' = ctx0 ∧ tcolor t' = pc) ∨ ctx' = [])
        (plug (FR p pc (T w BLACK a wk wv b) pk pv :: ctx0) t)) s.
Proof.
  intros HI Hcrb Hrb Hcol. unfold rbFixupRight_tail, getColor.
  destruct a as [|a' [] al ak av ar], b as [|b' [] bl bk bv br];
    try (by exfalso; clear HI; rb_auto); inv_facts HI; wp_go.
  - case2R HI s ctx0 n pc.
  - case3R HI s ctx0 n pc.
  - case2R HI s ctx0 n pc.
  - case3R HI s ctx0 n pc.
  - case4R HI s ctx0 n pc.
  - case4R HI s ctx0 n pc.
  - case4R HI s ctx0 n pc.
Qed.

Lemma rbFixupRight_spec sz cmp s ctx0 p pc pk pv W t n x0 w0 :
  Inv sz cmp s (FR p pc W pk pv :: ctx0) t →
  crb (S n) (FR p pc W pk pv :: ctx0) →
  rb n t → tcolor t = BLACK →
  wp (rbFixupRight x0 (Some p) w0)
     (fix_post sz cmp (moved_up (FR p pc W pk pv :: ctx0))
        (plug (FR p pc W pk pv :: ctx0) t)) s.
Proof.
  intros HI Hcrb Hrb Hcol. rewrite rbFixupRight_unfold.
  destruct W as [|w [] a wk wv b]; try (by exfalso; clear HI; rb_auto).
  - inv_facts HI. wp_go. eapply wp_mono.
    { eapply rbFixupRight_tail_spec; eauto. }
    intros res s' (ctx' & t' & n' & ? & ? & ? & ? & ? & Hp & ?).
    exists ctx', t', n'. split_and!; try done.
    destruct Hp as [[-> _]| ->]; [left; simpl; lia|by right; right].
  - destruct pc; try (by exfalso; clear HI; rb_auto).
    destruct b as [|b' [] bl bk bv br]; try (by exfalso; clear HI; rb_auto).
    inv_facts HI. wp_go.
    focus_up HI. focus_L HI. wp_set (@wp_set_color K V) HI s.
    focus_up HI. wp_set (@wp_set_color K V) HI s.
    wp_set (@wp_rightRotate K V) HI s.
    inv_facts HI. wp_go. focus_R HI. focus_R HI.
    eapply wp_mono.
    { eapply rbFixupRight_tail_spec with (n := n); [exact HI|..]; clear HI; rb_auto. }
    intros res s' (ctx' & t' & n' & ? & ? & ? & ? & ? & Hp & Hin).
    exists ctx', t', n'. split_and!; try done.
    + destruct Hp as [[-> ?]| ->]; [by right; left|by right; right].
    + rewrite Hin. cbn [plug fill]. apply inorder_plug_eq. by list_norm.
Qed.

End DeleteFixupFacts.

(** * Delete and its fixup: lemmas *)

Section DeleteFacts.
Context {K V : Type}.
Implicit Types (t l r : @tree K V) (f : @frame K V) (ctx : list (@frame K V)) (s : RbTree K V).

Lemma cown_root h rt hp f ctx :
  cown h rt hp (f :: ctx) → ∃ a, rt = Some a ∧ a ∈ caddrs (f :: ctx).
Proof.
  revert hp f. induction ctx as [|g ctx IH]; intros hp f (Hf & Hs & Hc).
  - simpl in Hc. exists (faddr f). split; [done|]. simpl. unfold faddrs. set_solver.
  - destruct (IH _ _ Hc) as (a & -> & Ha). exists a. split; [done|].
    simpl in *. set_solver.
Qed.

Lemma Inv_root_ne sz cmp s f ctx t : Inv sz cmp s (f :: ctx) t → root s ≠ ptr_of t.
Proof.
  intros (_ & _ & Hnd & Hc & _). destruct (cown_root _ _ _ _ _ Hc) as (a & -> & Ha).
  destruct t as [|x c l k v r]; [done|]. simpl. intros [= ->].
  apply NoDup_app in Hnd as (_ & Hd & _). eapply (Hd x); [|done]. simpl. set_solver.
Qed.

Lemma def_ok_blacken n t : def_ok n t → ∃ m, rb m (blacken t) ∧ tcolor (blacken t) = BLACK
  ∧ (tcolor t = RED → m = S n).
Proof.
  intros [[Hc Hrb]|[Hc Hrb]].
  - exists n. destruct t as [|a [] l k v r]; simpl in *; try done.
  - exists (S n). destruct t as [|a [] l k v r]; simpl in *; try done.
Qed.

Lemma rbDeleteFixup_loop_spec sz cmp fuel : ∀ s ctx t n par w0,
  ((length ctx + 2 ≤ fuel) ∨ ((ctx = [] ∨ tcolor t = RED) ∧ 1 ≤ fuel))%nat →
  Inv sz cmp s ctx t →
  (t = E → par = cpar ctx) →
  crb (S n) ctx → def_ok n t →
  wp (rbDeleteFixup_loop fuel (ptr_of t) par w0)
     (λ x' s', ∃ ctx' t', x' = ptr_of t' ∧ Inv sz cmp s' ctx' t'
                  ∧ is_rbtree (plug ctx' (blacken t'))
                  ∧ inorder (plug ctx' t') = inorder (plug ctx t)) s.
Proof.
  induction fuel as [|fuel IH]; intros s ctx t n par w0 Hfuel HI Hpar Hcrb Hdef; [lia|].
  simpl rbDeleteFixup_loop. unfold deficient, getColor.
  assert (∀ s', Inv sz cmp s' ctx t → (ctx = [] ∨ tcolor t = RED) →
    ∃ ctx' t', ptr_of t = ptr_of t' ∧ Inv sz cmp s' ctx' t'
                  ∧ is_rbtree (plug ctx' (blacken t'))
                  ∧ inorder (plug ctx' t') = inorder (plug ctx t)) as Hdone.
  { intros s' HI' Hc. exists ctx, t. split_and!; try done.
    destruct (def_ok_blacken _ _ Hdef) as (m & Hm & Hb & Hmn).
    destruct Hc as [->|Hc].
    - simpl. split; eauto.
    - rewrite (Hmn Hc) in Hm. eapply crb_plug; [done..|]. by rewrite Hb. }
  destruct ctx as [|f ctx].
  { wp_go. rewrite (Inv_root _ _ _ _ HI), ptr_eqb_refl. wp_go. eauto. }
  wp_go. rewrite ptr_eqb_ne by (apply not_eq_sym; eapply Inv_root_ne; eauto).
  cbn [negb].
  assert (wp (if nonnil (ptr_of t) then get_color (ptr_of t) else ret true)
            (λ b s', b = tcolor t ∧ s' = s) s) as Hgc.
  { destruct t as [|x c l k v r]; simpl.
    - by apply wp_ret.
    - inv_facts HI. wp_go. done. }
  eapply wp_mono; [exact Hgc|]. clear Hgc. intros ? ? [-> ->].
  destruct Hdef as [[Hcol Hrb]|[Hcol Hrb]]; rewrite Hcol.
  2:{ wp_go. apply Hdone; [done|by right]. }
  clear Hdone. destruct Hfuel as [Hfuel|[[?|?] _]]; [|done|congruence].
  assert (wp (if nonnil (ptr_of t) then get_parent (ptr_of t) else ret par)
            (λ p s', p = Some (faddr f) ∧ s' = s) s) as Hp.
  { destruct t as [|x c l k v r]; simpl.
    - apply wp_ret. split; [|done]. by apply Hpar.
    - inv_facts HI. wp_go. done. }
  assert (∀ res s', fix_post sz cmp (moved_up (f :: ctx)) (plug (f :: ctx) t) res s' →
     wp (let '(x, w) := res in rbDeleteFixup_loop fuel x (Some (faddr f)) w)
     (λ x' s'0, ∃ ctx' t', x' = ptr_of t' ∧ Inv sz cmp s'0 ctx' t'
        ∧ is_rbtree (plug ctx' (blacken t'))
        ∧ inorder (plug ctx' t') = inorder (plug (f :: ctx) t)) s') as Hnext.
  { intros [x' w'] s' (ctx' & t' & n' & Hx & Hne & HI' & Hcrb' & Hdef' & Hprog & Hin).
    simpl in Hx. subst x'. eapply wp_mono.
    { eapply IH; [|exact HI'|done|exact Hcrb'|exact Hdef'].
      unfold moved_up in Hprog. simpl in Hfuel, Hprog. destruct Hprog as [?|[?|?]]; [lia|right|right]; (split; [eauto|lia]). }
    intros x'' s'' (ctx'' & t'' & ? & ? & ? & Hin'). exists ctx'', t''. split_and!; try done.
    by rewrite Hin'. }
  apply wp_bind. eapply wp_mono; [exact Hp|]. clear Hp. intros ? ? [-> ->].
  destruct f as [p pc pk pv W|p pc W pk pv]; cbn [faddr] in *.
  - inv_facts HI. wp_go. eapply wp_mono; [eapply rbFixupLeft_spec; eauto|].
    intros res s'. apply Hnext.
  - assert (ptr_of t ≠ ptr_of W) as Hne.
    { destruct W as [|w wc wl wk wv wr]; [exfalso; clear HI; rb_auto|].
      destruct t as [|x c l k v r]; [done|]. inv_addrs HI. simpl. ptr_ne. }
    inv_facts HI. wp_go. rewrite ptr_eqb_ne by done.
    wp_go. eapply wp_mono; [eapply rbFixupRight_spec; eauto|].
    intros res s'. apply Hnext.
Qed.

Lemma rbDeleteFixup_spec sz cmp fuel s ctx t n par :
  (length ctx + 2 ≤ fuel)%nat →
  Inv sz cmp s ctx t →
  (t = E → par = cpar ctx) →
  crb (S n) ctx → def_ok n t →
  wp (rbDeleteFixup fuel (ptr_of t) par)
     (λ _ s', ∃ t', Inv sz cmp s' [] t' ∧ is_rbtree t'
                    ∧ inorder t' = inorder (plug ctx t)) s.
Proof.
  intros Hfuel HI Hpar Hcrb Hdef. unfold rbDeleteFixup.
  apply wp_bind. eapply wp_mono.
  { eapply rbDeleteFixup_loop_spec; eauto. }
  intros x' s' (ctx' & t' & -> & HI' & Hrb & Hin).
  destruct t' as [|x c l k v r]; simpl.
  - apply wp_ret. exists (plug ctx' E). split_and!; try done. by apply (proj1 (Inv_whole _ _ _ _ _)).
  - eapply wp_set_color; [exact HI'|]. intros s'' HI''.
    exists (plug ctx' (T x BLACK l k v r)). split_and!; try done.
    + by apply (proj1 (Inv_whole _ _ _ _ _)).
    + rewrite <-Hin. by apply inorder_plug_eq.
Qed.

(** ** [minimum] and [maximum] *)

Lemma wp_minimum sz cmp fuel : ∀ s ctx t Q,
  t ≠ E → (height t ≤ fuel)%nat → Inv sz cmp s ctx t →
  (∀ spine y yc yk yv yr,
     t = plug spine (T y yc E yk yv yr) → Forall is_FL spine → Q (Some y) s) →
  wp (minimum fuel (ptr_of t)) Q s.
Proof.
  induction fuel as [|fuel IH]; intros s ctx t Q Hne Hh HI HQ.
  { destruct t; [done|simpl in Hh; lia]. }
  destruct t as [|a c l k v r]; [done|]. simpl minimum. inv_facts HI. wp_go.
  destruct l as [|la lc ll lk lv lr]; simpl.
  - wp_go. eapply (HQ []); [reflexivity|constructor].
  - focus_L HI. simpl in Hh. eapply (IH _ _ (T la lc ll lk lv lr)); [done|simpl; lia|exact HI|].
    intros spine y yc yk yv yr Heq Hsp. eapply (HQ (spine ++ [FL a c k v r])).
    + by rewrite plug_app, <-Heq.
    + apply Forall_app. split; [done|]. by apply Forall_singleton.
Qed.

Lemma wp_maximum sz cmp fuel : ∀ s ctx t Q,
  t ≠ E → (height t ≤ fuel)%nat → Inv sz cmp s ctx t →
  (∀ spine y yc yl yk yv,
     t = plug spine (T y yc yl yk yv E) → Forall is_FR spine → Q (Some y) s) →
  wp (maximum fuel (ptr_of t)) Q s.
Proof.
  induction fuel as [|fuel IH]; intros s ctx t Q Hne Hh HI HQ.
  { destruct t; [done|simpl in Hh; lia]. }
  destruct t as [|a c l k v r]; [done|]. simpl maximum. inv_facts HI. wp_go.
  destruct r as [|ra rc rl rk rv rr]; simpl.
  - wp_go. eapply (HQ []); [reflexivity|constructor].
  - focus_R HI. simpl in Hh. eapply (IH _ _ (T ra rc rl rk rv rr)); [done|simpl; lia|exact HI|].
    intros spine y yc yl yk yv Heq Hsp. eapply (HQ (spine ++ [FR a c l k v])).
    + by rewrite plug_app, <-Heq.
    + apply Forall_app. split; [done|]. by apply Forall_singleton.
Qed.

Lemma rb0_black_E t : rb 0 t → tcolor t = BLACK → t = E.
Proof. destruct t as [|a [] l k v r]; simpl; [done| |done]. by intros (m & ? & _). Qed.

Lemma rb0_def_ok t : rb 0 t → def_ok 0 t.
Proof.
  destruct t as [|a [] l k v r]; simpl.
  - by left.
  - by intros (m & ? & _).
  - intros (? & ? & Hl & Hr). right. split; [done|]. simpl. eauto.
Qed.

(** The end of [Delete], once [y] is unlinked: fix up when [y] was black,
    then count down. *)
Lemma Delete_finish sz cmp fuel s ctx t y (ny : Node K V) par :
  (length ctx + 2 ≤ fuel)%nat →
  Inv sz cmp s ctx t →
  heap s !! y = Some ny →
  par = cpar ctx →
  (color ny = BLACK → crb 1 ctx ∧ def_ok 0 t) →
  (color ny = RED → is_rbtree (plug ctx t)) →
  wp (yc ← get_color (Some y);
      (if yc then rbDeleteFixup fuel (ptr_of t) par else ret tt);;
      sz0 ← get_size; set_size (int_wrap (sz0 - 1)))
    (λ _ s', ∃ t', Inv (int_wrap (sz - 1)) cmp s' [] t' ∧ is_rbtree t'
       ∧ inorder t' = inorder (plug ctx t)) s.
Proof.
  intros Hfuel HI Hy -> Hblack Hred. wp_go.
  assert (∀ t0 s0, Inv sz cmp s0 [] t0 → is_rbtree t0 →
     inorder t0 = inorder (plug ctx t) →
     wp (sz0 ← get_size; set_size (int_wrap (sz0 - 1)))
       (λ _ s', ∃ t', Inv (int_wrap (sz - 1)) cmp s' [] t' ∧ is_rbtree t'
          ∧ inorder t' = inorder (plug ctx t)) s0) as Hfin.
  { intros t0 s0 HI0 Hrb0 Hin0. wp_go. rewrite (Inv_size _ _ _ _ _ HI0).
    eapply wp_set_size_Inv; [exact HI0|]. intros s' HI' _. eauto. }
  destruct (color ny).
  - destruct Hblack as [Hcrb Hdef]; [done|]. eapply wp_mono.
    { eapply rbDeleteFixup_spec; eauto. }
    intros _ s' (t' & HI' & Hrb' & Hin'). wp_go. by eapply Hfin.
  - wp_go. eapply Hfin; [apply (proj1 (Inv_whole sz cmp s ctx t)), HI|by apply Hred|done].
Qed.

Lemma Delete_spec sz cmp fuel s ctx z c l k v r :
  (length (addrs (plug ctx (T z c l k v r))) + 2 ≤ fuel)%nat →
  Inv sz cmp s ctx (T z c l k v r) →
  is_rbtree (plug ctx (T z c l k v r)) →
  wp (Delete fuel (Some z))
    (λ _ s', ∃ t', Inv (int_wrap (sz - 1)) cmp s' [] t' ∧ is_rbtree t'
       ∧ inorder t' = cbefore ctx ++ del_entries z l r ++ cafter ctx) s.
Proof.
  intros Hfuel HI Hrb. unfold Delete. cbn [nonnil]. inv_facts HI. wp_go.
  assert (∀ t0 s0, Inv sz cmp s0 [] t0 → is_rbtree t0 →
     inorder t0 = cbefore ctx ++ del_entries z l r ++ cafter ctx →
     wp (sz0 ← get_size; set_size (int_wrap (sz0 - 1)))
       (λ _ s', ∃ t', Inv (int_wrap (sz - 1)) cmp s' [] t' ∧ is_rbtree t'
          ∧ inorder t' = cbefore ctx ++ del_entries z l r ++ cafter ctx) s0) as Hfin.
  { intros t0 s0 HI0 Hrb0 Hin0. wp_go. rewrite (Inv_size _ _ _ _ _ HI0).
    eapply wp_set_size_Inv; [exact HI0|]. intros s' HI' _. eauto. }
  destruct l as [|la lc ll lk lv lr]; [|destruct r as [|ra rc rl rk rv rr]].
  3:{ (* two children: the successor is unlinked *)
    cbn [ptr_of nonnil andb]. unfold successor. wp_go.
    assert (height (T ra rc rl rk rv rr) ≤ fuel)%nat as Hh.
    { etrans; [apply height_le_addrs|]. rewrite length_addrs_plug in Hfuel.
      simpl in Hfuel |- *. rewrite !length_app in Hfuel. simpl in Hfuel. lia. }
    pose proof HI as HIz. focus_R HIz.
    eapply (wp_minimum sz cmp fuel s _ (T ra rc rl rk rv rr)); [done|done|exact HIz|].
    intros spine y yc yk yv yr Heq Hsp.
    set (ctxy := spine ++ FR z c (T la lc ll lk lv lr) k v :: ctx).
    set (ctxy' := spine ++ FR z c (T la lc ll lk lv lr) yk yv :: ctx).
    rewrite Heq in HIz. apply (proj2 (Inv_plug _ _ _ _ _ _)) in HIz. fold ctxy in HIz.
    assert (plug ctx (T z c (T la lc ll lk lv lr) k v (T ra rc rl rk rv rr))
            = plug ctxy (T y yc E yk yv yr)) as Hwhole.
    { unfold ctxy. by rewrite plug_app, <-Heq. }
    assert (y ≠ z) as Hyz by (eapply (Inv_focus_ne_frame _ _ _ _ (FR z _ _ _ _)); exact HIz).
    assert (Forall2 frame_sim ctxy ctxy') as Hsim.
    { apply Forall2_app; [by apply Forall_Forall2_diag, Forall_true|].
      constructor; [done|]. by apply Forall_Forall2_diag, Forall_true. }
    clear H1. inv_facts HIz. wp_go.
    eapply (wp_splice' sz cmp s ctxy y yc E yk yv yr yr); [exact HIz|by left|].
    intros s1 HI1 Hy1. rewrite H1 in Hy1. wp_go.
    apply (proj1 (Inv_plug _ _ _ _ _ _)) in HI1. focus_up HI1.
    eapply wp_set_key_keep; [exact HI1|]. intros s2 HI2 Hk2.
    rewrite <-(Hk2 y Hyz) in Hy1. wp_go.
    eapply wp_set_value_keep; [exact HI2|]. intros s3 HI3 Hk3.
    rewrite <-(Hk3 y Hyz) in Hy1.
    focus_R HI3. apply (proj2 (Inv_plug _ _ _ _ _ _)) in HI3. fold ctxy' in HI3.
    rewrite Hwhole in Hrb, Hfuel.
    destruct (rb_plug_inv _ _ Hrb) as (n & Hn & Hcrb & Hcol).
    eapply wp_mono.
    { eapply (Delete_finish sz cmp fuel s3 ctxy' yr y); [|exact HI3|exact Hy1|by apply cpar_sim|..].
      - rewrite length_addrs_plug in Hfuel. pose proof (length_caddrs ctxy).
        rewrite <-(Forall2_length _ _ _ Hsim). lia.
      - cbn [color]. intros ->. simpl in Hn. destruct Hn as (m & -> & -> & Hyr).
        split; [by eapply crb_sim|by apply rb0_def_ok].
      - cbn [color]. intros ->. simpl in Hn. destruct Hn as (_ & Hyc & -> & Hyr).
        rewrite (rb0_black_E _ Hyr Hyc). eapply crb_plug; [by eapply crb_sim|done|done]. }
    intros _ s' (t' & HI' & Hrb' & Hin'). exists t'. split_and!; try done.
    rewrite Hin'. unfold ctxy'. rewrite inorder_plug, cbefore_app, cafter_app.
    unfold del_entries. rewrite Heq, inorder_plug. rewrite (cbefore_FL _ Hsp).
    by list_norm. }
  all: cbn [ptr_of nonnil andb]; wp_go.
  - eapply (wp_splice' sz cmp s ctx z c E k v r r); [exact HI|by left|].
    intros s1 HI1 Hy1. rewrite H1 in Hy1.
    apply wp_bind. rewrite ?ptr_eqb_refl. cbn [negb]. apply wp_ret.
    destruct (rb_plug_inv _ _ Hrb) as (n & Hn & Hcrb & Hcol).
    eapply wp_mono.
    { eapply (Delete_finish sz cmp fuel s1 ctx r z); [|exact HI1|exact Hy1|done|..].
      - rewrite length_addrs_plug in Hfuel. pose proof (length_caddrs ctx). lia.
      - cbn [color]. intros ->. simpl in Hn. destruct Hn as (m & -> & -> & Hyr).
        split; [done|by apply rb0_def_ok].
      - cbn [color]. intros ->. simpl in Hn. destruct Hn as (_ & Hyc & -> & Hyr).
        rewrite (rb0_black_E _ Hyr Hyc). eapply crb_plug; [done|done|done]. }
    intros _ s' (t' & HI' & Hrb' & Hin'). exists t'. split_and!; try done.
    rewrite Hin', inorder_plug. done.
  - eapply (wp_splice' sz cmp s ctx z c (T la lc ll lk lv lr) k v E (T la lc ll lk lv lr));
      [exact HI|by right|].
    intros s1 HI1 Hy1. rewrite H1 in Hy1.
    apply wp_bind. rewrite ?ptr_eqb_refl. cbn [negb]. apply wp_ret.
    destruct (rb_plug_inv _ _ Hrb) as (n & Hn & Hcrb & Hcol).
    eapply wp_mono.
    { eapply (Delete_finish sz cmp fuel s1 ctx (T la lc ll lk lv lr) z);
        [|exact HI1|exact Hy1|done|..].
      - rewrite length_addrs_plug in Hfuel. pose proof (length_caddrs ctx). lia.
      - cbn [color]. intros ->. cbn [rb] in Hn. destruct Hn as (m & -> & Hyl & ->).
        split; [done|by apply rb0_def_ok].
      - cbn [color]. intros ->. cbn [rb] in Hn. destruct Hn as (Hyc & _ & Hyl & ->).
        simpl in Hyc. subst lc. by destruct Hyl as (? & ? & _). }
    intros _ s' (t' & HI' & Hrb' & Hin'). exists t'. split_and!; try done.
    rewrite Hin', inorder_plug. unfold del_entries. by list_norm.
Qed.

End DeleteFacts.

(** * Navigation: successor, predecessor, first and last node: lemmas *)

Section NavFacts.
Context {K V : Type}.
Implicit Types (t l r : @tree K V) (f : @frame K V) (ctx : list (@frame K V)) (s : RbTree K V).
Implicit Types (es : list (addr * K * V)).

Lemma successor_loop_spec sz cmp fuel : ∀ s ctx t Q,
  (length ctx < fuel)%nat → t ≠ E → Inv sz cmp s ctx t →
  Q (first_addr (cafter ctx)) s →
  wp (successor_loop fuel (ptr_of t) (cpar ctx)) Q s.
Proof.
  induction fuel as [|fuel IH]; intros s ctx t Q Hfuel Hne HI HQ; [lia|].
  simpl successor_loop. destruct ctx as [|f ctx]; cbn [cpar nonnil].
  { by apply wp_ret. }
  destruct t as [|x c l k v r]; [done|].
  destruct f as [a ac ak av sib|a ac sib ak av]; inv_facts HI; inv_addrs HI; wp_go.
  - exact HQ.
  - focus_up HI. apply (IH s ctx (T a ac sib ak av (T x c l k v r))); [simpl in *; lia|done|done|done].
Qed.

Lemma successor_spec sz cmp fuel s ctx x c l k v r Q :
  (length ctx < fuel)%nat → (height r ≤ fuel)%nat →
  Inv sz cmp s ctx (T x c l k v r) →
  Q (first_addr (inorder r ++ cafter ctx)) s →
  wp (successor fuel (Some x)) Q s.
Proof.
  intros Hfuel Hh HI HQ. unfold successor. inv_facts HI. wp_go.
  destruct r as [|ra rc rl rk rv rr]; cbn [ptr_of nonnil].
  - wp_go. by apply (successor_loop_spec sz cmp fuel s ctx (T x c l k v E)).
  - focus_R HI. eapply (wp_minimum sz cmp fuel s _ (T ra rc rl rk rv rr)); [done|done|exact HI|].
    intros spine y yc yk yv yr Heq Hsp. revert HQ. rewrite Heq, inorder_plug.
    by rewrite (cbefore_FL _ Hsp).
Qed.

Lemma presuccessor_loop_spec sz cmp fuel : ∀ s ctx t Q,
  (length ctx < fuel)%nat → t ≠ E → Inv sz cmp s ctx t →
  Q (last_addr (cbefore ctx)) s →
  wp (presuccessor_loop fuel (ptr_of t)) Q s.
Proof.
  induction fuel as [|fuel IH]; intros s ctx t Q Hfuel Hne HI HQ; [lia|].
  simpl presuccessor_loop. destruct t as [|x c l k v r]; [done|].
  destruct ctx as [|f ctx].
  { inv_facts HI. wp_go. done. }
  destruct f as [a ac ak av sib|a ac sib ak av]; inv_facts HI; inv_addrs HI; wp_go.
  - focus_up HI. apply (IH s ctx (T a ac (T x c l k v r) ak av sib)); [simpl in *; lia|done|done|done].
  - revert HQ. simpl. unfold last_addr. by rewrite (assoc_L (++)), last_snoc.
Qed.

Lemma presuccessor_spec sz cmp fuel s ctx x c l k v r Q :
  (length ctx < fuel)%nat → (height l ≤ fuel)%nat →
  Inv sz cmp s ctx (T x c l k v r) →
  Q (last_addr (cbefore ctx ++ inorder l)) s →
  wp (presuccessor fuel (Some x)) Q s.
Proof.
  intros Hfuel Hh HI HQ. unfold presuccessor. inv_facts HI. wp_go.
  destruct l as [|la lc ll lk lv lr]; cbn [ptr_of nonnil].
  - rewrite app_nil_r in HQ. destruct ctx as [|f ctx]; cbn [cpar nonnil].
    { wp_go. done. }
    destruct f as [a ac ak av sib|a ac sib ak av]; inv_facts HI; inv_addrs HI; wp_go.
    + by apply (presuccessor_loop_spec sz cmp fuel s (FL a ac ak av sib :: ctx) (T x c E k v r)).
    + revert HQ. simpl. unfold last_addr. by rewrite (assoc_L (++)), last_snoc.
  - focus_L HI. eapply (wp_maximum sz cmp fuel s _ (T la lc ll lk lv lr)); [done|done|exact HI|].
    intros spine y yc yl yk yv Heq Hsp. revert HQ. rewrite Heq, inorder_plug.
    rewrite (cafter_FR _ Hsp). unfold last_addr. simpl.
    by rewrite app_nil_r, !(assoc_L (++)), last_snoc.
Qed.

Lemma split_unique es es1 e es2 es1' e' es2' :
  NoDup (eaddr <$> es) →
  es = es1 ++ e :: es2 → es = es1' ++ e' :: es2' → eaddr e = eaddr e' →
  es1 = es1' ∧ e = e' ∧ es2 = es2'.
Proof.
  intros Hnd -> Heq Hee. revert es1' Heq Hnd.
  induction es1 as [|x es1 IH]; intros es1' Heq Hnd.
  - destruct es1' as [|x' es1']; simpl in *.
    + by simplify_eq.
    + simplify_eq. apply NoDup_cons in Hnd as [Hni _]. exfalso. apply Hni.
      rewrite Hee, fmap_app, fmap_cons. set_solver.
  - destruct es1' as [|x' es1']; simpl in *.
    + simplify_eq. apply NoDup_cons in Hnd as [Hni _]. exfalso. apply Hni.
      rewrite <-Hee, fmap_app, fmap_cons. set_solver.
    + simplify_eq. apply NoDup_cons in Hnd as [_ Hnd].
      destruct (IH es1') as (-> & -> & ->); done.
Qed.

Lemma entry_split t a k v :
  (a, k, v) ∈ inorder t → ∃ ctx c l r, t = plug ctx (T a c l k v r).
Proof.
  induction t as [|b c l IHl kb vb r IHr]; simpl; [set_solver|].
  rewrite elem_of_app, elem_of_cons. intros [Hl|[[= -> -> ->]|Hr]].
  - destruct (IHl Hl) as (ctx & c' & l' & r' & ->).
    exists (ctx ++ [FL b c kb vb r]), c', l', r'. by rewrite plug_app.
  - by exists [], c, l, r.
  - destruct (IHr Hr) as (ctx & c' & l' & r' & ->).
    exists (ctx ++ [FR b c l kb vb]), c', l', r'. by rewrite plug_app.
Qed.

Lemma Inv_inorder_NoDup sz cmp s t : Inv sz cmp s [] t → NoDup (eaddr <$> inorder t).
Proof.
  intros HI%Inv_NoDup. simpl in HI. rewrite app_nil_r, addrs_inorder in HI.
  by rewrite <-list_fmap_compose in HI.
Qed.

(** A position in the list of entries is a focus in the tree. *)
Lemma Inv_at sz cmp s t es1 a k v es2 :
  Inv sz cmp s [] t → inorder t = es1 ++ (a, k, v) :: es2 →
  ∃ ctx c l r, Inv sz cmp s ctx (T a c l k v r)
    ∧ t = plug ctx (T a c l k v r)
    ∧ es1 = cbefore ctx ++ inorder l ∧ es2 = inorder r ++ cafter ctx.
Proof.
  intros HI Hin.
  destruct (entry_split t a k v) as (ctx & c & l & r & Ht).
  { rewrite Hin. set_solver. }
  exists ctx, c, l, r. split; [|split; [done|]].
  { rewrite Ht in HI. by apply Inv_whole. }
  pose proof (Inv_inorder_NoDup _ _ _ _ HI) as Hnd.
  assert (inorder t = (cbefore ctx ++ inorder l) ++ (a, k, v) :: inorder r ++ cafter ctx) as Hin'.
  { rewrite Ht, inorder_plug. simpl. by rewrite <-!(assoc_L (++)). }
  destruct (split_unique _ _ _ _ _ _ _ Hnd Hin Hin') as (? & _ & ?); done.
Qed.

Lemma Inv_entry sz cmp s t a k v :
  Inv sz cmp s [] t → (a, k, v) ∈ inorder t →
  ∃ n, heap s !! a = Some n ∧ key n = k ∧ value n = v.
Proof.
  intros HI Hin. destruct (entry_split _ _ _ _ Hin) as (ctx & c & l & r & ->).
  apply Inv_whole in HI. eexists. split; [by eapply Inv_lookup|done].
Qed.

Lemma length_ctx_plug ctx t : (length ctx ≤ length (addrs (plug ctx t)))%nat.
Proof. rewrite length_addrs_plug. pose proof (length_caddrs ctx). lia. Qed.

Lemma height_sub_plug ctx a c l k v r :
  (height l ≤ length (addrs (plug ctx (T a c l k v r))))%nat
  ∧ (height r ≤ length (addrs (plug ctx (T a c l k v r))))%nat.
Proof.
  rewrite length_addrs_plug. simpl. rewrite length_app. simpl.
  pose proof (height_le_addrs l). pose proof (height_le_addrs r). lia.
Qed.

Lemma successor_whole sz cmp fuel s t es1 a k v es2 Q :
  (length (addrs t) < fuel)%nat →
  Inv sz cmp s [] t → inorder t = es1 ++ (a, k, v) :: es2 →
  Q (first_addr es2) s →
  wp (successor fuel (Some a)) Q s.
Proof.
  intros Hfuel HI Hin HQ.
  destruct (Inv_at _ _ _ _ _ _ _ _ _ HI Hin) as (ctx & c & l & r & HI' & -> & -> & ->).
  pose proof (length_ctx_plug ctx (T a c l k v r)).
  pose proof (height_sub_plug ctx a c l k v r) as [_ ?].
  eapply successor_spec; [| |exact HI'|done]; lia.
Qed.

Lemma presuccessor_whole sz cmp fuel s t es1 a k v es2 Q :
  (length (addrs t) < fuel)%nat →
  Inv sz cmp s [] t → inorder t = es1 ++ (a, k, v) :: es2 →
  Q (last_addr es1) s →
  wp (presuccessor fuel (Some a)) Q s.
Proof.
  intros Hfuel HI Hin HQ.
  destruct (Inv_at _ _ _ _ _ _ _ _ _ HI Hin) as (ctx & c & l & r & HI' & -> & -> & ->).
  pose proof (length_ctx_plug ctx (T a c l k v r)).
  pose proof (height_sub_plug ctx a c l k v r) as [? _].
  eapply presuccessor_spec; [| |exact HI'|done]; lia.
Qed.

Lemma First_whole sz cmp fuel s t Q :
  (length (addrs t) < fuel)%nat →
  Inv sz cmp s [] t → Q (first_addr (inorder t)) s → wp (First fuel) Q s.
Proof.
  intros Hfuel HI HQ. unfold First. wp_go. rewrite (Inv_root _ _ _ _ HI).
  destruct t as [|a c l k v r].
  - simpl. by apply wp_ret.
  - cbn [ptr_of nonnil]. pose proof (height_le_addrs (T a c l k v r)).
    eapply (wp_minimum sz cmp fuel s [] (T a c l k v r)); [done|lia|done|].
    intros spine y yc yk yv yr Heq Hsp. revert HQ. rewrite Heq, inorder_plug.
    by rewrite (cbefore_FL _ Hsp).
Qed.

Lemma Last_whole sz cmp fuel s t Q :
  (length (addrs t) < fuel)%nat →
  Inv sz cmp s [] t → Q (last_addr (inorder t)) s → wp (Last fuel) Q s.
Proof.
  intros Hfuel HI HQ. unfold Last. wp_go. rewrite (Inv_root _ _ _ _ HI).
  destruct t as [|a c l k v r].
  - simpl. by apply wp_ret.
  - cbn [ptr_of nonnil]. pose proof (height_le_addrs (T a c l k v r)).
    eapply (wp_maximum sz cmp fuel s [] (T a c l k v r)); [done|lia|done|].
    intros spine y yc yl yk yv Heq Hsp. revert HQ. rewrite Heq, inorder_plug.
    rewrite (cafter_FR _ Hsp). unfold last_addr. simpl.
    by rewrite app_nil_r, !(assoc_L (++)), last_snoc.
Qed.

Lemma Traversal_loop_spec {A} sz cmp (visitor : K → V → A → bool * A) s t :
  Inv sz cmp s [] t →
  ∀ es2 es1 fuel acc,
  inorder t = es1 ++ es2 →
  (length (addrs t) + length es2 + 1 ≤ fuel)%nat →
  wp (Traversal_loop fuel visitor (first_addr es2) acc)
     (λ res s', s' = s ∧ res = visit visitor (ekv <$> es2) acc) s.
Proof.
  intros HI. induction es2 as [|[[a k] v] es2 IH]; intros es1 fuel acc Hin Hfuel.
  - destruct fuel; [lia|]. simpl. by apply wp_ret.
  - destruct fuel as [|fuel]; [simpl in Hfuel; lia|]. simpl Traversal_loop.
    cbn [first_addr head fmap option_fmap option_map eaddr fst nonnil].
    destruct (Inv_entry _ _ _ _ a k v HI) as (n & Hn & <- & <-).
    { rewrite Hin. set_solver. }
    wp_go. simpl. unfold ekv at 1. simpl.
    destruct (visitor (key n) (value n) acc) as [[] acc']; cbn [negb].
    + unfold Node_Next. simpl in Hfuel. apply wp_bind.
      eapply successor_whole; [|exact HI|exact Hin|]; [lia|].
      apply (IH (es1 ++ [(a, key n, value n)])); [by rewrite <-(assoc_L (++))|lia].
    + by apply wp_ret.
Qed.

Lemma Traversal_spec {A} sz cmp (visitor : K → V → A → bool * A) s t fuel acc :
  Inv sz cmp s [] t →
  (2 * length (addrs t) + 1 ≤ fuel)%nat →
  wp (Traversal fuel visitor acc)
     (λ res s', s' = s ∧ res = visit visitor (ekv <$> inorder t) acc) s.
Proof.
  intros HI Hfuel. unfold Traversal. apply wp_bind.
  eapply First_whole; [|exact HI|].
  { destruct t; simpl in *; [lia|]. rewrite length_app in *. simpl in *. lia. }
  apply (Traversal_loop_spec sz cmp visitor s t HI (inorder t) []); [done|].
  rewrite addrs_inorder, !length_fmap in *. lia.
Qed.

End NavFacts.

(** * Search and the invariant checker: lemmas *)

Section LookupFacts.
Context {K V : Type}.
Implicit Types (t l r : @tree K V) (f : @frame K V) (ctx : list (@frame K V)) (s : RbTree K V).
Implicit Types (es : list (addr * K * V)) (cmp : K → K → Z).

Lemma valid_cmp_le_lt cmp a b c :
  valid_cmp cmp → cmp a b ≤ 0 → cmp b c < 0 → cmp a c < 0.
Proof.
  intros [Hs Ht] Hab Hbc. destruct (Z.lt_ge_cases (cmp a c) 0) as [|Hac]; [done|].
  assert (cmp c a ≤ 0) as Hca.
  { destruct (Z.le_gt_cases (cmp c a) 0) as [|Hgt]; [done|]. apply Z.lt_gt, Hs in Hgt. lia. }
  pose proof (Ht _ _ _ Hca Hab) as Hcb. apply Hs in Hbc. lia.
Qed.

Lemma valid_cmp_lt_le cmp a b c :
  valid_cmp cmp → cmp a b < 0 → cmp b c ≤ 0 → cmp a c < 0.
Proof.
  intros [Hs Ht] Hab Hbc. destruct (Z.lt_ge_cases (cmp a c) 0) as [|Hac]; [done|].
  assert (cmp c a ≤ 0) as Hca.
  { destruct (Z.le_gt_cases (cmp c a) 0) as [|Hgt]; [done|]. apply Z.lt_gt, Hs in Hgt. lia. }
  pose proof (Ht _ _ _ Hbc Hca) as Hba. apply Hs in Hab. lia.
Qed.

Lemma lb_elem cmp k t e : lb cmp k t = Some e → e ∈ inorder t.
Proof.
  revert e. induction t as [|a c l IHl ka va r IHr]; intros e; simpl; [done|].
  destruct (cmp k ka <=? 0).
  - destruct (lb cmp k l) as [e'|] eqn:Hl.
    + destruct (cmp (ekey e') ka <=? 0); intros [= <-]; [|set_solver].
      apply elem_of_app. left. by apply IHl.
    + intros [= <-]. set_solver.
  - intros He. apply elem_of_app. right. apply elem_of_cons. right. by apply IHr.
Qed.

Lemma ub_elem cmp k t e : ub cmp k t = Some e → e ∈ inorder t.
Proof.
  revert e. induction t as [|a c l IHl ka va r IHr]; intros e; simpl; [done|].
  destruct (cmp k ka >=? 0).
  - intros He. apply elem_of_app. right. apply elem_of_cons. right. by apply IHr.
  - destruct (ub cmp k l) as [e'|] eqn:Hl.
    + destruct (cmp (ekey e') ka <=? 0); intros [= <-]; [|set_solver].
      apply elem_of_app. left. by apply IHl.
    + intros [= <-]. set_solver.
Qed.

Lemma Inv_entry_ctx sz cmp s ctx t a k v :
  Inv sz cmp s ctx t → (a, k, v) ∈ inorder t →
  ∃ n, heap s !! a = Some n ∧ key n = k ∧ value n = v.
Proof.
  intros HI Hin. apply Inv_whole in HI. eapply Inv_entry; [exact HI|].
  rewrite inorder_plug. set_solver.
Qed.

Lemma findLowerBoundNode_spec sz cmp fuel k : ∀ s ctx t Q,
  (height t < fuel)%nat → Inv sz cmp s ctx t →
  Q (eaddr <$> lb cmp k t) s →
  wp (findLowerBoundNode fuel (ptr_of t) k) Q s.
Proof.
  induction fuel as [|fuel IH]; intros s ctx t Q Hh HI HQ; [lia|].
  destruct t as [|a c l ka va r]; simpl findLowerBoundNode; cbn [ptr_of nonnil].
  { by apply wp_ret. }
  inv_facts HI. wp_go. rewrite (Inv_keyCmp _ _ _ _ _ HI). wp_go.
  simpl in HQ, Hh. destruct (cmp k ka <=? 0); wp_go.
  - pose proof HI as HIl. focus_L HIl.
    eapply IH; [|exact HIl|]; [lia|].
    destruct (lb cmp k l) as [[[ra rk] rv]|] eqn:Hl; cbn [fmap option_fmap option_map eaddr fst nonnil].
    + destruct (Inv_entry_ctx _ _ _ _ _ ra rk rv HIl) as (n & Hn & <- & <-).
      { by eapply lb_elem. }
      wp_go. unfold ekey in HQ. simpl in HQ. destruct (cmp (key n) ka <=? 0); by wp_go.
    + by wp_go.
  - focus_R HI. eapply IH; [|exact HI|]; [lia|done].
Qed.

Lemma findUpperBoundNode_spec sz cmp fuel k : ∀ s ctx t Q,
  (height t < fuel)%nat → Inv sz cmp s ctx t →
  Q (eaddr <$> ub cmp k t) s →
  wp (findUpperBoundNode fuel (ptr_of t) k) Q s.
Proof.
  induction fuel as [|fuel IH]; intros s ctx t Q Hh HI HQ; [lia|].
  destruct t as [|a c l ka va r]; simpl findUpperBoundNode; cbn [ptr_of nonnil].
  { by apply wp_ret. }
  inv_facts HI. wp_go. rewrite (Inv_keyCmp _ _ _ _ _ HI). wp_go.
  simpl in HQ, Hh. destruct (cmp k ka >=? 0); wp_go.
  - focus_R HI. eapply IH; [|exact HI|]; [lia|done].
  - pose proof HI as HIl. focus_L HIl.
    eapply IH; [|exact HIl|]; [lia|].
    destruct (ub cmp k l) as [[[ra rk] rv]|] eqn:Hl; cbn [fmap option_fmap option_map eaddr fst nonnil].
    + destruct (Inv_entry_ctx _ _ _ _ _ ra rk rv HIl) as (n & Hn & <- & <-).
      { by eapply ub_elem. }
      wp_go. unfold ekey in HQ. simpl in HQ. destruct (cmp (key n) ka <=? 0); by wp_go.
    + by wp_go.
Qed.

(** ** On sorted trees the bounds are the first entries that qualify *)

Lemma key_sorted_app cmp es1 es2 :
  key_sorted cmp (es1 ++ es2) ↔
  key_sorted cmp es1 ∧ key_sorted cmp es2
  ∧ ∀ e1 e2, e1 ∈ es1 → e2 ∈ es2 → cmp (ekey e1) (ekey e2) ≤ 0.
Proof.
  unfold key_sorted. induction es1 as [|e es1 IH]; simpl.
  - split; [intros ?; split_and!; [constructor|done|set_solver]|by intros (_ & ? & _)].
  - split.
    + intros Hs. apply StronglySorted_inv in Hs as [Hs Hall].
      apply IH in Hs as (? & ? & Hle). rewrite Forall_app in Hall. destruct Hall as [Ha1 Ha2].
      split_and!; [by constructor|done|].
      intros e1 e2 [->|?]%elem_of_cons ?; [|by apply Hle].
      rewrite Forall_forall in Ha2. by apply Ha2.
    + intros (Hs & ? & Hle). apply StronglySorted_inv in Hs as [Hs Hall].
      constructor.
      * apply IH. split_and!; [done..|]. intros ????. apply Hle; set_solver.
      * apply Forall_app. split; [done|]. apply Forall_forall. intros ??. apply Hle; set_solver.
Qed.

Lemma key_sorted_cons cmp e es :
  key_sorted cmp (e :: es) ↔
  key_sorted cmp es ∧ ∀ e2, e2 ∈ es → cmp (ekey e) (ekey e2) ≤ 0.
Proof.
  unfold key_sorted. split.
  - intros [? Hall]%StronglySorted_inv. rewrite Forall_forall in Hall. done.
  - intros [? Hall]. constructor; [done|]. by apply Forall_forall.
Qed.

Lemma find_app_l {A} (p : A → bool) (l1 l2 : list A) x :
  find p l1 = Some x → find p (l1 ++ l2) = Some x.
Proof. induction l1 as [|y l1 IH]; simpl; [done|]. by destruct (p y). Qed.

Lemma find_app_r {A} (p : A → bool) (l1 l2 : list A) :
  (∀ x, x ∈ l1 → p x = false) → find p (l1 ++ l2) = find p l2.
Proof.
  induction l1 as [|y l1 IH]; simpl; [done|]. intros Hall.
  rewrite (Hall y) by set_solver. apply IH. intros ??. apply Hall. set_solver.
Qed.

Lemma find_none_iff {A} (p : A → bool) (l : list A) :
  find p l = None ↔ ∀ x, x ∈ l → p x = false.
Proof.
  induction l as [|y l IH]; simpl; [set_solver|].
  destruct (p y) eqn:Hy.
  - split; [done|]. intros Hall. rewrite Hall in Hy; [done|set_solver].
  - rewrite IH. split; [|set_solver]. intros Hall x [->|?]%elem_of_cons; auto.
Qed.

Lemma find_elem {A} (p : A → bool) (l : list A) x : find p l = Some x → x ∈ l ∧ p x = true.
Proof.
  induction l as [|y l IH]; simpl; [done|]. destruct (p y) eqn:Hy.
  - intros [= ->]. set_solver.
  - intros [? ?]%IH. set_solver.
Qed.

Lemma lb_find cmp k t :
  valid_cmp cmp → key_sorted cmp (inorder t) →
  lb cmp k t = find (λ e, cmp k (ekey e) <=? 0) (inorder t).
Proof.
  intros Hv. induction t as [|a c l IHl ka va r IHr]; simpl; [done|].
  intros (Hsl & [Hsr Har]%key_sorted_cons & Hlr)%key_sorted_app.
  destruct (Z.leb_spec (cmp k ka) 0) as [Hle|Hgt].
  - rewrite (IHl Hsl). destruct (find _ (inorder l)) as [e|] eqn:Hf.
    + rewrite (find_app_l _ _ _ _ Hf). apply find_elem in Hf as [He _].
      assert (cmp (ekey e) ka ≤ 0) as Hle' by (apply (Hlr e (a, ka, va)); set_solver).
      apply Z.leb_le in Hle'. by rewrite Hle'.
    + rewrite find_app_r by (by apply find_none_iff). simpl. change (ekey (a, ka, va)) with ka.
      apply Z.leb_le in Hle. by rewrite Hle.
  - rewrite (IHr Hsr). rewrite find_app_r; simpl.
    + change (ekey (a, ka, va)) with ka. apply Z.leb_gt in Hgt. by rewrite Hgt.
    + intros e He. apply Z.leb_gt.
      assert (cmp (ekey e) ka ≤ 0) as Hle' by (apply (Hlr e (a, ka, va)); set_solver).
      destruct (Z.lt_ge_cases 0 (cmp k (ekey e))) as [|Hc]; [done|].
      destruct Hv as [_ Ht]. pose proof (Ht k (ekey e) ka ltac:(lia) Hle'). lia.
Qed.

Lemma ub_find cmp k t :
  valid_cmp cmp → key_sorted cmp (inorder t) →
  ub cmp k t = find (λ e, cmp k (ekey e) <? 0) (inorder t).
Proof.
  intros Hv. induction t as [|a c l IHl ka va r IHr]; simpl; [done|].
  intros (Hsl & [Hsr Har]%key_sorted_cons & Hlr)%key_sorted_app.
  destruct (Z.geb_spec (cmp k ka) 0) as [Hge|Hlt].
  - rewrite (IHr Hsr). rewrite find_app_r; simpl.
    + change (ekey (a, ka, va)) with ka. assert (cmp k ka <? 0 = false) as -> by (apply Z.ltb_ge; lia). done.
    + intros e He. apply Z.ltb_ge.
      assert (cmp (ekey e) ka ≤ 0) as Hle' by (apply (Hlr e (a, ka, va)); set_solver).
      destruct (Z.lt_ge_cases (cmp k (ekey e)) 0) as [Hc|]; [|lia].
      pose proof (valid_cmp_lt_le cmp _ _ _ Hv Hc Hle'). lia.
  - rewrite (IHl Hsl). destruct (find _ (inorder l)) as [e|] eqn:Hf.
    + rewrite (find_app_l _ _ _ _ Hf). apply find_elem in Hf as [He _].
      assert (cmp (ekey e) ka ≤ 0) as Hle' by (apply (Hlr e (a, ka, va)); set_solver).
      apply Z.leb_le in Hle'. by rewrite Hle'.
    + rewrite find_app_r by (by apply find_none_iff). simpl. change (ekey (a, ka, va)) with ka.
      apply Z.ltb_lt in Hlt. by rewrite Hlt.
Qed.

(** ** The wrappers *)

Lemma FindLowerBoundNode_spec sz cmp fuel k s t Q :
  (height t < fuel)%nat → Inv sz cmp s [] t →
  Q (eaddr <$> lb cmp k t) s →
  wp (FindLowerBoundNode fuel k) Q s.
Proof.
  intros Hh HI HQ. unfold FindLowerBoundNode. wp_go. rewrite (Inv_root _ _ _ _ HI).
  by eapply findLowerBoundNode_spec.
Qed.

Lemma FindUpperBoundNode_spec sz cmp fuel k s t Q :
  (height t < fuel)%nat → Inv sz cmp s [] t →
  Q (eaddr <$> ub cmp k t) s →
  wp (FindUpperBoundNode fuel k) Q s.
Proof.
  intros Hh HI HQ. unfold FindUpperBoundNode. wp_go. rewrite (Inv_root _ _ _ _ HI).
  by eapply findUpperBoundNode_spec.
Qed.

Lemma findFirstNode_spec sz cmp fuel k s t Q :
  (height t < fuel)%nat → Inv sz cmp s [] t →
  Q (eaddr <$> first_eq cmp k t) s →
  wp (findFirstNode fuel k) Q s.
Proof.
  intros Hh HI HQ. unfold findFirstNode. wp_go.
  eapply FindLowerBoundNode_spec; [done..|]. unfold first_eq in HQ.
  destruct (lb cmp k t) as [[[ra rk] rv]|] eqn:Hl; cbn [fmap option_fmap option_map eaddr fst nonnil].
  - destruct (Inv_entry_ctx _ _ _ _ _ ra rk rv HI) as (n & Hn & <- & <-).
    { by eapply lb_elem. }
    wp_go. rewrite (Inv_keyCmp _ _ _ _ _ HI). wp_go.
    unfold ekey in HQ. simpl in HQ. destruct (cmp (key n) k =? 0); by wp_go.
  - by wp_go.
Qed.

Lemma first_eq_elem cmp k t e : first_eq cmp k t = Some e → e ∈ inorder t.
Proof.
  unfold first_eq. destruct (lb cmp k t) as [e'|] eqn:Hl; [|done].
  destruct (_ =? _); [|done]. intros [= <-]. by eapply lb_elem.
Qed.

Lemma Find_spec sz cmp zero fuel k s t Q :
  (height t < fuel)%nat → Inv sz cmp s [] t →
  Q (match first_eq cmp k t with
     | Some e => (evalue e, None)
     | None => (zero, Some ErrorNotFound)
     end) s →
  wp (Find zero fuel k) Q s.
Proof.
  intros Hh HI HQ. unfold Find. wp_go.
  eapply findFirstNode_spec; [done..|].
  destruct (first_eq cmp k t) as [[[ra rk] rv]|] eqn:Hl; cbn [fmap option_fmap option_map eaddr fst nonnil].
  - destruct (Inv_entry_ctx _ _ _ _ _ ra rk rv HI) as (n & Hn & <- & <-).
    { by eapply first_eq_elem. }
    by wp_go.
  - by wp_go.
Qed.

Lemma FindNode_spec sz cmp fuel k s t Q :
  (height t < fuel)%nat → Inv sz cmp s [] t →
  Q (eaddr <$> first_eq cmp k t) s →
  wp (FindNode fuel k) Q s.
Proof. apply findFirstNode_spec. Qed.

Lemma test_spec sz cmp fuel : ∀ s ctx t n Q,
  (height t < fuel)%nat → Inv sz cmp s ctx t → rb n t →
  (ctx = [] → tcolor t = BLACK) →
  Q (bcount n, 0, true) s →
  wp (test fuel (ptr_of t)) Q s.
Proof.
  induction fuel as [|fuel IH]; intros s ctx t n Q Hh HI Hrb Hroot HQ; [lia|].
  destruct t as [|a c l ka va r]; simpl test; cbn [ptr_of nonnil].
  { simpl in Hrb. subst n. by apply wp_ret. }
  inv_facts HI. simpl in Hh. wp_go.
  assert (wp (if ptr_eqb (Some a) (root s) then c0 ← get_color (Some a); ret (negb c0) else ret false)
             (λ b s', b = false ∧ s' = s) s) as Hfirst.
  { destruct ctx as [|f ctx].
    - rewrite (Inv_root _ _ _ _ HI). cbn [ptr_of]. rewrite ptr_eqb_refl. wp_go.
      simpl in Hroot. by rewrite Hroot.
    - rewrite ptr_eqb_ne; [by wp_go|]. intros Heq. by apply (Inv_root_ne _ _ _ _ _ _ HI). }
  eapply wp_mono; [exact Hfirst|]. intros b s' [-> ->]. cbn beta iota.
  wp_go. pose proof HI as HIl. focus_L HIl. pose proof HI as HIr. focus_R HIr.
  simpl in Hrb. destruct c.
  - destruct Hrb as (m & -> & Hl & Hr).
    eapply IH; [|exact HIl|exact Hl| |]; [lia|done|]. cbn beta iota. wp_go.
    eapply IH; [|exact HIr|exact Hr| |]; [lia|done|]. cbn beta iota. wp_go.
    rewrite Z.eqb_refl. by wp_go.
  - destruct Hrb as (Hcl & Hcr & Hl & Hr).
    eapply IH; [|exact HIl|exact Hl| |]; [lia|done|]. cbn beta iota. wp_go.
    eapply IH; [|exact HIr|exact Hr| |]; [lia|done|]. cbn beta iota. wp_go.
    rewrite Z.eqb_refl. wp_go. unfold getColor.
    destruct l as [|la lc ll lk lv lr]; destruct r as [|ra rc rl rk rv rr];
      simpl in Hcl, Hcr; subst; inv_facts HIl; inv_facts HIr; by wp_go.
Qed.

Lemma IsRbTree_spec sz cmp fuel s t Q :
  (height t < fuel)%nat → Inv sz cmp s [] t → is_rbtree t →
  Q (true, None) s →
  wp (IsRbTree fuel) Q s.
Proof.
  intros Hh HI [Hc [n Hrb]] HQ. unfold IsRbTree. wp_go. rewrite (Inv_root _ _ _ _ HI).
  eapply test_spec; [done|exact HI|exact Hrb|done|]. cbn beta iota. by wp_go.
Qed.

End LookupFacts.

(** * More fuel never changes an outcome: lemmas *)

Section MonoFacts.
Context {K V : Type}.
Local Abbreviation M := (M K V).

Lemma mle_refl {A} (m : M A) : mle m m.
Proof. intros s. by right. Qed.

Lemma mle_oof {A} (m : M A) : mle out_of_fuel m.
Proof. intros s. by left. Qed.

Lemma mle_bind {A B} (m1 m2 : M A) (f1 f2 : A → M B) :
  mle m1 m2 → (∀ a, mle (f1 a) (f2 a)) → mle (bind m1 f1) (bind m2 f2).
Proof.
  intros Hm Hf s. unfold bind. destruct (Hm s) as [->| ->]; [by left|].
  destruct (m2 s) as [[a s']| |]; [apply Hf|by right|by right].
Qed.

Lemma fuel_mono_le {A} (op : nat → M A) n m s r :
  fuel_mono op → (n ≤ m)%nat → op n s = Ok r → op m s = Ok r.
Proof.
  intros Hop Hle. induction Hle as [|m Hle IH]; [done|].
  intros Hn. specialize (IH Hn). destruct (Hop m s) as [Ho|Ho]; congruence.
Qed.

Lemma fuel_mono_const {A} (m : M A) : fuel_mono (λ _, m).
Proof. intros n. apply mle_refl. Qed.

End MonoFacts.

Create HintDb mono discriminated.

Ltac mle_step :=
  match goal with
  | |- mle out_of_fuel _ => apply mle_oof
  | H : ∀ _, _ |- mle _ _ => apply H
  | |- mle _ _ => solve [auto 1 with mono nocore]
  | |- mle (bind _ _) (bind _ _) => apply mle_bind; [|intros ?]
  | |- mle (if ?b then _ else _) (if ?b then _ else _) => destruct b
  | |- mle (match ?x with _ => _ end) (match ?x with _ => _ end) => destruct x
  | |- mle _ _ => apply mle_refl
  end.
Ltac mle_auto := repeat mle_step.

(** A loop: induction on the fuel, all other arguments generalized. *)
Ltac mono_loop f :=
  let n := fresh "n" in let IH := fresh "IH" in
  intros n; induction n as [|n IH]; intros; [apply mle_oof|];
  change (f (S (S n))) with (f (S (S n)));
  simpl; mle_auto.

Lemma minimum_mono {K V} fuel n : mle (minimum (K:=K) (V:=V) fuel n) (minimum (S fuel) n).
Proof. revert fuel n. mono_loop (@minimum K V). Qed.
#[global] Hint Resolve minimum_mono : mono.

Lemma maximum_mono {K V} fuel n : mle (maximum (K:=K) (V:=V) fuel n) (maximum (S fuel) n).
Proof. revert fuel n. mono_loop (@maximum K V). Qed.
#[global] Hint Resolve maximum_mono : mono.

Lemma successor_loop_mono {K V} fuel x y :
  mle (successor_loop (K:=K) (V:=V) fuel x y) (successor_loop (S fuel) x y).
Proof. revert fuel x y. mono_loop (@successor_loop K V). Qed.
#[global] Hint Resolve successor_loop_mono : mono.

Lemma successor_mono {K V} fuel x : mle (successor (K:=K) (V:=V) fuel x) (successor (S fuel) x).
Proof. unfold successor. mle_auto. Qed.
#[global] Hint Resolve successor_mono : mono.

Lemma presuccessor_loop_mono {K V} fuel x :
  mle (presuccessor_loop (K:=K) (V:=V) fuel x) (presuccessor_loop (S fuel) x).
Proof. revert fuel x. mono_loop (@presuccessor_loop K V). Qed.
#[global] Hint Resolve presuccessor_loop_mono : mono.

Lemma presuccessor_mono {K V} fuel x :
  mle (presuccessor (K:=K) (V:=V) fuel x) (presuccessor (S fuel) x).
Proof. unfold presuccessor. mle_auto. Qed.
#[global] Hint Resolve presuccessor_mono : mono.

Lemma Next_mono {K V} fuel it : mle (Next (K:=K) (V:=V) fuel it) (Next (S fuel) it).
Proof. unfold Next, Node_Next. mle_auto. Qed.

Lemma Prev_mono {K V} fuel it : mle (Prev (K:=K) (V:=V) fuel it) (Prev (S fuel) it).
Proof. unfold Prev, Node_Prev. mle_auto. Qed.

Lemma First_mono {K V} fuel : mle (First (K:=K) (V:=V) fuel) (First (S fuel)).
Proof. unfold First. mle_auto. Qed.
#[global] Hint Resolve First_mono : mono.

Lemma Last_mono {K V} fuel : mle (Last (K:=K) (V:=V) fuel) (Last (S fuel)).
Proof. unfold Last. mle_auto. Qed.
#[global] Hint Resolve Last_mono : mono.

Lemma IterFirst_mono {K V} fuel : mle (IterFirst (K:=K) (V:=V) fuel) (IterFirst (S fuel)).
Proof. unfold IterFirst. mle_auto. Qed.

Lemma IterLast_mono {K V} fuel : mle (IterLast (K:=K) (V:=V) fuel) (IterLast (S fuel)).
Proof. unfold IterLast. mle_auto. Qed.

Lemma rbInsertFixup_loop_mono {K V} fuel z :
  mle (rbInsertFixup_loop (K:=K) (V:=V) fuel z) (rbInsertFixup_loop (S fuel) z).
Proof. revert fuel z. mono_loop (@rbInsertFixup_loop K V). Qed.
#[global] Hint Resolve rbInsertFixup_loop_mono : mono.

Lemma rbInsertFixup_mono {K V} fuel z :
  mle (rbInsertFixup (K:=K) (V:=V) fuel z) (rbInsertFixup (S fuel) z).
Proof. unfold rbInsertFixup. mle_auto. Qed.
#[global] Hint Resolve rbInsertFixup_mono : mono.

Lemma Insert_loop_mono {K V} fuel (k : K) x y :
  mle (Insert_loop (K:=K) (V:=V) fuel k x y) (Insert_loop (S fuel) k x y).
Proof. revert fuel k x y. mono_loop (@Insert_loop K V). Qed.
#[global] Hint Resolve Insert_loop_mono : mono.

Lemma Insert_mono {K V} fuel (k : K) (v : V) : mle (Insert fuel k v) (Insert (S fuel) k v).
Proof. unfold Insert. mle_auto. Qed.

Lemma rbDeleteFixup_loop_mono {K V} fuel x p w :
  mle (rbDeleteFixup_loop (K:=K) (V:=V) fuel x p w) (rbDeleteFixup_loop (S fuel) x p w).
Proof. revert fuel x p w. mono_loop (@rbDeleteFixup_loop K V). Qed.
#[global] Hint Resolve rbDeleteFixup_loop_mono : mono.

Lemma rbDeleteFixup_mono {K V} fuel x p :
  mle (rbDeleteFixup (K:=K) (V:=V) fuel x p) (rbDeleteFixup (S fuel) x p).
Proof. unfold rbDeleteFixup. mle_auto. Qed.
#[global] Hint Resolve rbDeleteFixup_mono : mono.

Lemma Delete_mono {K V} fuel z : mle (Delete (K:=K) (V:=V) fuel z) (Delete (S fuel) z).
Proof. unfold Delete. mle_auto. Qed.

Lemma findLowerBoundNode_mono {K V} fuel x (k : K) :
  mle (findLowerBoundNode (K:=K) (V:=V) fuel x k) (findLowerBoundNode (S fuel) x k).
Proof. revert fuel x k. mono_loop (@findLowerBoundNode K V). Qed.
#[global] Hint Resolve findLowerBoundNode_mono : mono.

Lemma FindLowerBoundNode_mono {K V} fuel (k : K) :
  mle (FindLowerBoundNode (K:=K) (V:=V) fuel k) (FindLowerBoundNode (S fuel) k).
Proof. unfold FindLowerBoundNode. mle_auto. Qed.
#[global] Hint Resolve FindLowerBoundNode_mono : mono.

Lemma findUpperBoundNode_mono {K V} fuel x (k : K) :
  mle (findUpperBoundNode (K:=K) (V:=V) fuel x k) (findUpperBoundNode (S fuel) x k).
Proof. revert fuel x k. mono_loop (@findUpperBoundNode K V). Qed.
#[global] Hint Resolve findUpperBoundNode_mono : mono.

Lemma FindUpperBoundNode_mono {K V} fuel (k : K) :
  mle (FindUpperBoundNode (K:=K) (V:=V) fuel k) (FindUpperBoundNode (S fuel) k).
Proof. unfold FindUpperBoundNode. mle_auto. Qed.

Lemma findFirstNode_mono {K V} fuel (k : K) :
  mle (findFirstNode (K:=K) (V:=V) fuel k) (findFirstNode (S fuel) k).
Proof. unfold findFirstNode. mle_auto. Qed.
#[global] Hint Resolve findFirstNode_mono : mono.

Lemma Find_mono {K V} (zero : V) fuel (k : K) : mle (Find zero fuel k) (Find zero (S fuel) k).
Proof. unfold Find. mle_auto. Qed.

Lemma FindNode_mono {K V} fuel (k : K) :
  mle (FindNode (K:=K) (V:=V) fuel k) (FindNode (S fuel) k).
Proof. unfold FindNode. mle_auto. Qed.

Lemma findNode_loop_mono {K V} fuel x (k : K) :
  mle (findNode_loop (K:=K) (V:=V) fuel x k) (findNode_loop (S fuel) x k).
Proof. revert fuel x k. mono_loop (@findNode_loop K V). Qed.
#[global] Hint Resolve findNode_loop_mono : mono.

Lemma findNode_mono {K V} fuel (k : K) :
  mle (findNode (K:=K) (V:=V) fuel k) (findNode (S fuel) k).
Proof. unfold findNode. mle_auto. Qed.

Lemma Traversal_loop_mono {K V A} fuel (visitor : K → V → A → bool * A) n acc :
  mle (Traversal_loop (K:=K) (V:=V) fuel visitor n acc) (Traversal_loop (S fuel) visitor n acc).
Proof.
  revert fuel n acc. intros fuel. induction fuel as [|fuel IH]; intros n acc; [apply mle_oof|].
  simpl. destruct (nonnil n); [|apply mle_refl].
  apply mle_bind; [apply mle_refl|intros k]. apply mle_bind; [apply mle_refl|intros v].
  destruct (visitor k v acc) as [go acc']. destruct (negb go); [apply mle_refl|].
  apply mle_bind; [apply successor_mono|intros n']. apply IH.
Qed.
#[global] Hint Resolve Traversal_loop_mono : mono.

Lemma Traversal_mono {K V A} fuel (visitor : K → V → A → bool * A) acc :
  mle (Traversal (K:=K) (V:=V) fuel visitor acc) (Traversal (S fuel) visitor acc).
Proof. unfold Traversal. mle_auto. Qed.

Lemma test_mono {K V} fuel n : mle (test (K:=K) (V:=V) fuel n) (test (S fuel) n).
Proof. revert fuel n. mono_loop (@test K V). Qed.
#[global] Hint Resolve test_mono : mono.

Lemma IsRbTree_mono {K V} fuel : mle (IsRbTree (K:=K) (V:=V) fuel) (IsRbTree (S fuel)).
Proof. unfold IsRbTree. mle_auto. Qed.

(** * Trees built through the public methods: lemmas *)

Section WFFacts.
Context {K V : Type}.
Local Abbreviation M := (M K V).
Implicit Types (t l r : @tree K V) (f : @frame K V) (ctx : list (@frame K V)) (s : RbTree K V).
Implicit Types (es : list (addr * K * V)) (cmp : K → K → Z).

Lemma wp_returns {A} (op : nat → M A) n (Q : A → RbTree K V → Prop) s :
  fuel_mono op → wp (op n) Q s → ∃ a s', returns op s a s' ∧ Q a s'.
Proof.
  intros Hm (a & s' & Hr & HQ). exists a, s'. split; [|done].
  exists n. intros fuel Hle. by eapply fuel_mono_le.
Qed.

Lemma returns_det {A} (op : nat → M A) s a1 s1 a2 s2 :
  returns op s a1 s1 → returns op s a2 s2 → a1 = a2 ∧ s1 = s2.
Proof.
  intros [n1 H1] [n2 H2].
  specialize (H1 (n1 `max` n2)%nat ltac:(lia)). specialize (H2 (n1 `max` n2)%nat ltac:(lia)).
  rewrite H1 in H2. by injection H2.
Qed.

Lemma returns_wp {A} (op : nat → M A) n (Q : A → RbTree K V → Prop) s a s' :
  returns op s a s' → (∀ fuel, (n ≤ fuel)%nat → wp (op fuel) Q s) → Q a s'.
Proof.
  intros [n1 H1] Hwp. destruct (Hwp (n1 `max` n)%nat ltac:(lia)) as (b & s'' & Hr & HQ).
  rewrite H1 in Hr by lia. by injection Hr as <- <-.
Qed.

Lemma returns_intro {A} (op : nat → M A) n s a s' :
  fuel_mono op → op n s = Ok (a, s') → returns op s a s'.
Proof. intros Hm Hr. exists n. intros fuel Hle. by eapply fuel_mono_le. Qed.

Lemma live_addrs sz cmp s t a : Inv sz cmp s [] t → live s a → a ∈ addrs t.
Proof.
  intros HI. induction 1 as [a Hr|p n a _ IH Hp Hl|p n a _ IH Hp Hr].
  - rewrite (Inv_root _ _ _ _ HI) in Hr. by apply ptr_of_elem.
  - destruct (tree_split _ _ IH) as (ctx & c & l & k & v & r & ->).
    apply Inv_whole in HI. rewrite (Inv_lookup _ _ _ _ _ _ _ _ _ _ HI) in Hp.
    injection Hp as <-. simpl in Hl. apply ptr_of_elem in Hl.
    rewrite addrs_plug. simpl. set_solver.
  - destruct (tree_split _ _ IH) as (ctx & c & l & k & v & r & ->).
    apply Inv_whole in HI. rewrite (Inv_lookup _ _ _ _ _ _ _ _ _ _ HI) in Hp.
    injection Hp as <-. simpl in Hr. apply ptr_of_elem in Hr.
    rewrite addrs_plug. simpl. set_solver.
Qed.

Lemma addrs_live_sub sz cmp s : ∀ t ctx a,
  Inv sz cmp s ctx t → (∀ x, ptr_of t = Some x → live s x) → a ∈ addrs t → live s a.
Proof.
  induction t as [|x c l IHl k v r IHr]; intros ctx a HI Hlive; simpl; [set_solver|].
  pose proof (Inv_lookup _ _ _ _ _ _ _ _ _ _ HI) as Hx.
  assert (live s x) as Hlx by (by apply Hlive).
  intros [Ha|[->|Ha]%elem_of_cons]%elem_of_app; [|done|].
  - eapply (IHl _ a); [apply Inv_dL, HI| |done].
    intros y Hy. by eapply live_left.
  - eapply (IHr _ a); [apply Inv_dR, HI| |done].
    intros y Hy. by eapply live_right.
Qed.

Lemma live_iff sz cmp s t a : Inv sz cmp s [] t → live s a ↔ a ∈ addrs t.
Proof.
  intros HI. split; [by eapply live_addrs|].
  eapply addrs_live_sub; [exact HI|]. intros x Hx.
  apply live_root. by rewrite (Inv_root _ _ _ _ HI).
Qed.

(** ** Sortedness is kept *)

Lemma key_sorted_keys cmp es :
  key_sorted cmp es ↔ StronglySorted (λ a b, cmp a b ≤ 0) (ekey <$> es).
Proof.
  unfold key_sorted. induction es as [|e es IH]; simpl.
  - split; constructor.
  - split; intros [? Hall]%StronglySorted_inv; constructor; try (by apply IH).
    + rewrite Forall_forall in Hall. apply Forall_forall.
      intros x (e' & -> & He')%list_elem_of_fmap. by apply Hall.
    + rewrite Forall_forall in Hall. apply Forall_forall.
      intros e' He'. apply Hall, list_elem_of_fmap. eauto.
Qed.

Lemma ekey_ekv es1 es2 : ekv <$> es1 = ekv <$> es2 → ekey <$> es1 = ekey <$> es2.
Proof.
  intros Heq. assert (ekey <$> es1 = fst <$> (ekv <$> es1)) as -> by (by rewrite <-list_fmap_compose).
  rewrite Heq. by rewrite <-list_fmap_compose.
Qed.

Lemma key_sorted_ext cmp es1 es2 :
  ekv <$> es1 = ekv <$> es2 → key_sorted cmp es1 → key_sorted cmp es2.
Proof. intros Heq%ekey_ekv. by rewrite !key_sorted_keys, Heq. Qed.

Lemma key_sorted_sublist cmp es1 es2 :
  es1 `sublist_of` es2 → key_sorted cmp es2 → key_sorted cmp es1.
Proof.
  unfold key_sorted. induction 1 as [|e es1 es2 Hsub IH|e es1 es2 Hsub IH]; [done|..].
  - intros [? Hall]%StronglySorted_inv. constructor; [by apply IH|].
    rewrite Forall_forall in Hall |- *. intros x Hx. apply Hall. by eapply elem_of_sublist.
  - intros [? _]%StronglySorted_inv. by apply IH.
Qed.

Lemma ins_bounds cmp k ctx :
  valid_cmp cmp → Forall (frame_path cmp k) ctx →
  key_sorted cmp (cbefore ctx ++ cafter ctx) →
  (∀ e, e ∈ cbefore ctx → cmp (ekey e) k ≤ 0) ∧ (∀ e, e ∈ cafter ctx → cmp k (ekey e) < 0).
Proof.
  intros Hv. induction ctx as [|[a c ka va r|a c l ka va] ctx IH]; simpl.
  - intros _ _. split; intros e He; by apply elem_of_nil in He.
  - intros [Hk Hp]%Forall_cons Hs. destruct IH as [IH1 IH2]; [done| |].
    { eapply key_sorted_sublist; [|exact Hs]. apply sublist_app; [done|].
      apply sublist_cons, sublist_inserts_l. done. }
    split; [done|]. simpl in Hk.
    intros e [->|[He|He]%elem_of_app]%elem_of_cons; [done| |by apply IH2].
    apply key_sorted_app in Hs as (_ & Hs & _). apply key_sorted_cons in Hs as [_ Hs].
    assert (cmp ka (ekey e) ≤ 0) as Hle by (apply (Hs e); set_solver).
    by apply (valid_cmp_lt_le cmp _ ka).
  - intros [Hk Hp]%Forall_cons Hs. destruct IH as [IH1 IH2]; [done| |].
    { eapply key_sorted_sublist; [|exact Hs]. apply sublist_app; [|done].
      apply sublist_inserts_r. done. }
    split; [|done]. simpl in Hk.
    assert (cmp ka k ≤ 0) as Hka.
    { destruct (Z.le_gt_cases (cmp ka k) 0) as [|Hgt]; [done|].
      apply Z.lt_gt, (proj1 Hv) in Hgt. lia. }
    intros e [He|[He|He%list_elem_of_singleton]%elem_of_app]%elem_of_app; [by apply IH1| |by subst e].
    apply key_sorted_app in Hs as (Hs & _ & _). apply key_sorted_app in Hs as (_ & Hs & _).
    apply key_sorted_app in Hs as (_ & _ & Hs).
    assert (cmp (ekey e) ka ≤ 0) as Hle by (apply (Hs e (a, ka, va)); set_solver).
    by apply (proj2 Hv _ ka).
Qed.

Lemma ins_sorted cmp k t (z : addr) (v : V) :
  valid_cmp cmp → key_sorted cmp (inorder t) →
  key_sorted cmp (cbefore (ins_ctx cmp k t []) ++ (z, k, v) :: cafter (ins_ctx cmp k t [])).
Proof.
  intros Hv Hs.
  assert (inorder t = cbefore (ins_ctx cmp k t []) ++ cafter (ins_ctx cmp k t [])) as Heq.
  { rewrite <-(ins_ctx_plug cmp k t []) at 1. by rewrite inorder_plug. }
  rewrite Heq in Hs.
  destruct (ins_bounds cmp k (ins_ctx cmp k t []) Hv) as [Hb Ha]; [by apply ins_ctx_path|done|].
  apply key_sorted_app in Hs as (Hs1 & Hs2 & Hs12).
  apply key_sorted_app. split_and!; [done| |].
  - apply key_sorted_cons. split; [done|]. intros e He. apply Z.lt_le_incl. by apply Ha.
  - intros e1 e2 He1 [->|He2]%elem_of_cons; [by apply Hb|by apply Hs12].
Qed.

Lemma del_entries_ekv (z : addr) l r :
  ekv <$> del_entries z l r = ekv <$> (inorder l ++ inorder r).
Proof.
  unfold del_entries. destruct l as [|la lc ll lk lv lr]; [done|].
  destruct r as [|ra rc rl rk rv rr]; [done|].
  destruct (inorder (T ra rc rl rk rv rr)) as [|[[y ky] vy] rest] eqn:Hr.
  { exfalso. simpl in Hr. by destruct (inorder rl). }
  by rewrite !fmap_app, !fmap_cons.
Qed.

Lemma int_wrap_add a b : int_wrap (int_wrap a + b) = int_wrap (a + b).
Proof.
  unfold int_wrap. f_equal.
  replace ((a + 2 ^ 63) mod 2 ^ 64 - 2 ^ 63 + b + 2 ^ 63) with ((a + 2 ^ 63) mod 2 ^ 64 + b) by lia.
  rewrite Zplus_mod_idemp_l. f_equal. lia.
Qed.

Lemma int_wrap_small a : int_min ≤ a ≤ int_max → int_wrap a = a.
Proof.
  unfold int_wrap, int_min, int_max. intros Ha.
  rewrite Z.mod_small; lia.
Qed.

Lemma Inv_WF sz cmp s t :
  Inv sz cmp s [] t → is_rbtree t →
  sz = int_wrap (Z.of_nat (length (inorder t))) →
  (valid_cmp cmp → key_sorted cmp (inorder t)) →
  WF s t.
Proof.
  intros HI Hrb Hsz Hs. pose proof (Inv_size _ _ _ _ _ HI) as Hsize.
  pose proof (Inv_keyCmp _ _ _ _ _ HI) as Hcmp. unfold WF. rewrite Hsize, Hcmp. done.
Qed.

Lemma WF_New cmp : WF (New (V:=V) cmp) E.
Proof.
  apply (Inv_WF 0 cmp); [|split; [done|by exists 0%nat]|done|by constructor].
  unfold Inv, New. simpl. split_and!; try done. constructor.
Qed.

Lemma length_addrs_inorder t : length (addrs t) = length (inorder t).
Proof. by rewrite addrs_inorder, !length_fmap. Qed.

Lemma Insert_step s t k v :
  WF s t →
  ∃ s' t' z es1 es2,
    returns (λ fuel, Insert fuel k v) s tt s' ∧ WF s' t'
    ∧ heap s !! z = None
    ∧ keyCmp s' = keyCmp s ∧ size s' = int_wrap (size s + 1)
    ∧ inorder t = es1 ++ es2 ∧ inorder t' = es1 ++ (z, k, v) :: es2
    ∧ (valid_cmp (keyCmp s) →
       (∀ e, e ∈ es1 → keyCmp s (ekey e) k ≤ 0) ∧ (∀ e, e ∈ es2 → keyCmp s k (ekey e) < 0)).
Proof.
  intros (HI & Hrb & Hsz & Hs).
  destruct (wp_returns (λ fuel, Insert fuel k v) (length (addrs t) + 2) _ s
              (λ n, Insert_mono n k v)
              (Insert_spec _ _ (length (addrs t) + 2) s t k v ltac:(lia) HI Hrb))
    as ([] & s' & Hret & t' & z & HI' & Hrb' & Hz & Hin').
  set (C := ins_ctx (keyCmp s) k t []) in *.
  assert (inorder t = cbefore C ++ cafter C) as Heq.
  { rewrite <-(ins_ctx_plug (keyCmp s) k t []) at 1. by rewrite inorder_plug. }
  exists s', t', z, (cbefore C), (cafter C). split_and!; try done.
  - eapply Inv_WF; [exact HI'|done| |].
    + rewrite Hsz, int_wrap_add. f_equal. rewrite Hin', Heq, !length_app. simpl. lia.
    + intros Hv. rewrite Hin'. by apply ins_sorted, Hs.
  - by rewrite (Inv_keyCmp _ _ _ _ _ HI').
  - by rewrite (Inv_size _ _ _ _ _ HI').
  - intros Hv. apply ins_bounds; [done|by apply ins_ctx_path|]. rewrite <-Heq. by apply Hs.
Qed.

Lemma length_del_entries (z : addr) l r :
  length (del_entries z l r) = (length (inorder l) + length (inorder r))%nat.
Proof.
  rewrite <-length_app, <-(length_fmap ekv (del_entries z l r)), del_entries_ekv.
  by rewrite length_fmap.
Qed.

Lemma Delete_step s ctx a c l k v r :
  WF s (plug ctx (T a c l k v r)) →
  ∃ s' t',
    returns (λ fuel, Delete fuel (Some a)) s tt s' ∧ WF s' t'
    ∧ keyCmp s' = keyCmp s ∧ size s' = int_wrap (size s - 1)
    ∧ inorder t' = cbefore ctx ++ del_entries a l r ++ cafter ctx.
Proof.
  intros (HI & Hrb & Hsz & Hs). apply Inv_whole in HI.
  destruct (wp_returns (λ fuel, Delete fuel (Some a))
              (length (addrs (plug ctx (T a c l k v r))) + 2) _ s
              (λ n, Delete_mono n (Some a))
              (Delete_spec _ _ (length (addrs (plug ctx (T a c l k v r))) + 2) s ctx a c l k v r ltac:(lia) HI Hrb))
    as ([] & s' & Hret & t' & HI' & Hrb' & Hin').
  exists s', t'. split_and!; try done.
  - eapply Inv_WF; [exact HI'|done| |].
    + rewrite Hsz. unfold Z.sub. rewrite int_wrap_add. f_equal.
      rewrite Hin', inorder_plug, !length_app, length_del_entries. simpl.
      rewrite !length_app. simpl. lia.
    + intros Hv. specialize (Hs Hv). rewrite inorder_plug in Hs. rewrite Hin'.
      eapply (key_sorted_ext _ (cbefore ctx ++ (inorder l ++ inorder r) ++ cafter ctx)).
      { by rewrite !fmap_app, del_entries_ekv, !fmap_app. }
      eapply key_sorted_sublist; [|exact Hs].
      apply sublist_app; [done|]. simpl. rewrite <-!app_assoc.
      apply sublist_app; [done|]. by apply sublist_cons.
  - by rewrite (Inv_keyCmp _ _ _ _ _ HI').
  - by rewrite (Inv_size _ _ _ _ _ HI').
Qed.

Lemma Delete_nil fuel s : Delete fuel None s = Ok (tt, s).
Proof. done. Qed.

Lemma WF_live s t a : WF s t → live s a ↔ a ∈ addrs t.
Proof. intros (HI & _). by eapply live_iff. Qed.

Lemma SetValue_step s t a v :
  WF s t → live s a →
  ∃ s' t', Node_SetValue (Some a) v s = Ok (tt, s') ∧ WF s' t'
    ∧ ekey <$> inorder t' = ekey <$> inorder t
    ∧ addrs t' = addrs t.
Proof.
  intros HW Ha. pose proof HW as (HI & Hrb & Hsz & Hs).
  apply (WF_live _ _ _ HW) in Ha.
  destruct (tree_split _ _ Ha) as (ctx & c & l & k & v0 & r & ->).
  pose proof HI as HI0. apply Inv_whole in HI0.
  destruct (wp_set_value _ _ s ctx a c l k v0 r v
              (λ _ s', Inv (size s) (keyCmp s) s' ctx (T a c l k v r)) HI0 ltac:(done))
    as ([] & s' & Hrun & HI').
  exists s', (plug ctx (T a c l k v r)). apply Inv_whole in HI'.
  assert (ekey <$> inorder (plug ctx (T a c l k v r)) = ekey <$> inorder (plug ctx (T a c l k v0 r))) as Hk.
  { rewrite !inorder_plug, !fmap_app. simpl. by rewrite !fmap_app. }
  split_and!; [done| |done|].
  2:{ rewrite !addrs_inorder, !inorder_plug, !fmap_app. simpl. by rewrite !fmap_app. }
  eapply Inv_WF; [exact HI'| | |].
  - destruct Hrb as [Hc [n Hn]]. destruct (rb_plug_inv _ _ (conj Hc (ex_intro _ n Hn)))
      as (m & Hm & Hcrb & Hcol).
    eapply crb_plug; [exact Hcrb|exact Hm|exact Hcol].
  - rewrite Hsz. f_equal. f_equal. rewrite !inorder_plug, !length_app. simpl.
    by rewrite !length_app.
  - intros Hv. apply key_sorted_keys. rewrite Hk. apply key_sorted_keys. by apply Hs.
Qed.

Lemma Clear_step s : ∃ s', Clear s = Ok (tt, s') ∧ WF s' E ∧ keyCmp s' = keyCmp s.
Proof.
  eexists. split; [reflexivity|]. split; [|done].
  unfold WF, Inv. simpl. split_and!; try done.
  - apply NoDup_nil_2.
  - split; [done|by exists 0%nat].
  - intros _. constructor.
Qed.

Lemma reachable_WF s : reachable s → ∃ t, WF s t.
Proof.
  induction 1 as [cmp|s k v s' _ [t IH] Hret|s p s' _ [t IH] Hp Hret
                  |s a v s' _ [t IH] Ha Hrun|s s' _ [t IH] Hrun].
  - exists E. apply WF_New.
  - destruct (Insert_step s t k v IH) as (s1 & t' & z & es1 & es2 & Hret1 & HW & _).
    destruct (returns_det _ _ _ _ _ _ Hret Hret1) as [_ ->]. by exists t'.
  - destruct p as [a|].
    + simpl in Hp. apply (WF_live _ _ _ IH) in Hp.
      destruct (tree_split _ _ Hp) as (ctx & c & l & k & v & r & ->).
      destruct (Delete_step s ctx a c l k v r IH) as (s1 & t' & Hret1 & HW & _).
      destruct (returns_det _ _ _ _ _ _ Hret Hret1) as [_ ->]. by exists t'.
    + destruct Hret as [n Hn]. specialize (Hn n ltac:(lia)). rewrite Delete_nil in Hn.
      injection Hn as <-. by exists t.
  - destruct (SetValue_step s t a v IH Ha) as (s1 & t' & Hrun1 & HW & _).
    rewrite Hrun in Hrun1. injection Hrun1 as <-. by exists t'.
  - destruct (Clear_step s) as (s1 & Hrun1 & HW & _).
    rewrite Hrun in Hrun1. injection Hrun1 as <-. by exists E.
Qed.

Lemma reachable_keyCmp_New cmp : keyCmp (K:=K) (V:=V) (New cmp) = cmp.
Proof. done. Qed.

End WFFacts.

(** * The entries of a tree state: lemmas *)

Section ViewsFacts.
Context {K V : Type}.
Local Abbreviation M := (M K V).
Implicit Types (t l r : @tree K V) (f : @frame K V) (ctx : list (@frame K V)) (s : RbTree K V).
Implicit Types (es : list (addr * K * V)) (cmp : K → K → Z).

Lemma own_unique h : ∀ t1 t2 p1 p2,
  own h p1 t1 → own h p2 t2 → ptr_of t1 = ptr_of t2 → t1 = t2.
Proof.
  induction t1 as [|a c l IHl k v r IHr]; intros [|a2 c2 l2 k2 v2 r2] p1 p2; simpl; try done.
  intros (Ha & Hl & Hr) (Ha2 & Hl2 & Hr2) [= <-]. rewrite Ha in Ha2.
  injection Ha2 as <- Hpl Hpr <- <- <-. f_equal; [by eapply IHl|by eapply IHr].
Qed.

Lemma represents_unique s t1 t2 : represents s t1 → represents s t2 → t1 = t2.
Proof.
  intros (_ & _ & _ & Hc1 & Ho1) (_ & _ & _ & Hc2 & Ho2). simpl in *.
  eapply own_unique; [done..|]. by rewrite <-Hc1, <-Hc2.
Qed.

Lemma entries_unique s es1 es2 : entries s es1 → entries s es2 → es1 = es2.
Proof.
  intros (t1 & H1 & <-) (t2 & H2 & <-). by rewrite (represents_unique _ _ _ H1 H2).
Qed.

Lemma WF_entries s t : WF s t → entries s (inorder t).
Proof. intros (HI & _). by exists t. Qed.

Lemma entries_WF s es : reachable s → entries s es → ∃ t, WF s t ∧ inorder t = es.
Proof.
  intros [t HW]%reachable_WF Hes. exists t. split; [done|].
  eapply entries_unique; [|exact Hes]. by apply WF_entries.
Qed.

Lemma reachable_entries s : reachable s → ∃ es, entries s es.
Proof. intros [t HW]%reachable_WF. exists (inorder t). by apply WF_entries. Qed.

Lemma entries_live s es a : entries s es → live s a ↔ a ∈ eaddr <$> es.
Proof.
  intros (t & HI & <-). rewrite (live_iff _ _ _ _ a HI), addrs_inorder.
  by rewrite <-list_fmap_compose.
Qed.

Lemma entries_NoDup s es : entries s es → NoDup (eaddr <$> es).
Proof. intros (t & HI & <-). by eapply Inv_inorder_NoDup. Qed.

Lemma entries_lookup s es a k v :
  entries s es → (a, k, v) ∈ es → ∃ n, heap s !! a = Some n ∧ key n = k ∧ value n = v.
Proof. intros (t & HI & <-). by eapply Inv_entry. Qed.

Lemma entries_root s es : entries s es → root s = None ↔ es = [].
Proof.
  intros (t & HI & <-). rewrite (Inv_root _ _ _ _ HI). destruct t as [|a c l k v r]; simpl; [done|].
  split; [done|]. intros Hnil. by destruct (inorder l).
Qed.

Lemma entries_sorted s es :
  reachable s → valid_cmp (keyCmp s) → entries s es → key_sorted (keyCmp s) es.
Proof. intros Hr Hv Hes. destruct (entries_WF _ _ Hr Hes) as (t & (_ & _ & _ & Hs) & <-). auto. Qed.

Lemma entries_size s es :
  reachable s → entries s es → size s = int_wrap (Z.of_nat (length es)).
Proof. intros Hr Hes. by destruct (entries_WF _ _ Hr Hes) as (t & (_ & _ & ? & _) & <-). Qed.

End ViewsFacts.

Lemma int_cmp_valid : valid_cmp int_cmp.
Proof.
  unfold int_cmp. split.
  - intros a b. destruct (Z.ltb_spec a b), (Z.ltb_spec b a); lia.
  - intros a b c. destruct (Z.ltb_spec a b), (Z.ltb_spec b a), (Z.ltb_spec b c),
      (Z.ltb_spec c b), (Z.ltb_spec a c), (Z.ltb_spec c a); lia.
Qed.

Lemma run_Ok {K V A} (m : M K V A) s a :
  run_value m s = Some a → m s = Ok (a, run_state m s).
Proof. unfold run_value, run_state. destruct (m s) as [[b s']| |]; naive_solver. Qed.

Lemma reachable_Insert_run {K V} n (k : K) (v : V) s :
  reachable s → run_value (Insert n k v) s = Some tt →
  reachable (run_state (Insert n k v) s).
Proof.
  intros Hr Hrun%run_Ok. eapply reach_Insert; [exact Hr|].
  eapply (returns_intro (λ fuel, Insert fuel k v)); [|exact Hrun].
  intros m. apply Insert_mono.
Qed.

Lemma reachable_Delete_run {K V} n (p : ptr) (s : RbTree K V) :
  reachable s → handle s p → run_value (Delete n p) s = Some tt →
  reachable (run_state (Delete n p) s).
Proof.
  intros Hr Hp Hrun%run_Ok. eapply reach_Delete; [exact Hr|exact Hp|].
  eapply (returns_intro (λ fuel, Delete fuel p)); [|exact Hrun].
  intros m. apply Delete_mono.
Qed.

Lemma tree1357_reachable : reachable tree1357.
Proof.
  unfold tree1357.
  repeat (apply reachable_Insert_run; [|vm_compute; reflexivity]).
  apply reach_New.
Qed.

Lemma tree1357_keyCmp : keyCmp tree1357 = int_cmp.
Proof. vm_compute. reflexivity. Qed.

Lemma tree1357_valid : valid_cmp (keyCmp tree1357).
Proof. rewrite tree1357_keyCmp. apply int_cmp_valid. Qed.

(** * The claims *)

(** C1.  Whatever sequence of [Insert] and [Delete] calls (and [SetValue],
    [Clear]) is made on a tree built by [New], after each call the nodes
    under the root form a red-black tree: the root is black, no red node has
    a red child, every path from the root to nil passes the same number of
    black nodes; and [IsRbTree] returns [(true, nil)].  The next [Insert] and
    the next [Delete] of a handle complete. *)
Theorem C1_red_black_after_every_call {K V} (s : RbTree K V) :
  reachable s →
  (∃ t, represents s t ∧ is_rbtree t)
  ∧ returns IsRbTree s (true, None) s
  ∧ (∀ k v, ∃ s', returns (λ fuel, Insert fuel k v) s tt s')
  ∧ (∀ p, handle s p → ∃ s', returns (λ fuel, Delete fuel p) s tt s').
Proof.
  intros [t HW]%reachable_WF. pose proof HW as (HI & Hrb & _). split_and!.
  - by exists t.
  - destruct (wp_returns IsRbTree (S (height t)) (λ r s', r = (true, None) ∧ s' = s) s)
      as (r & s' & Hret & -> & ->); [intros n; apply IsRbTree_mono| |done].
    eapply IsRbTree_spec; [|exact HI|exact Hrb|done]. lia.
  - intros k v. destruct (Insert_step s t k v HW) as (s' & _ & _ & _ & _ & Hret & _). eauto.
  - intros [a|] Hp.
    + simpl in Hp. apply (WF_live _ _ _ HW) in Hp.
      destruct (tree_split _ _ Hp) as (ctx & c & l & k & v & r & ->).
      destruct (Delete_step s ctx a c l k v r HW) as (s' & _ & Hret & _). eauto.
    + exists s. exists 0%nat. intros fuel _. apply Delete_nil.
Qed.

Lemma C1_witness :
  (∃ t, represents tree1357 t ∧ is_rbtree t)
  ∧ returns IsRbTree tree1357 (true, None) tree1357
  ∧ (∀ k v, ∃ s', returns (λ fuel, Insert fuel k v) tree1357 tt s')
  ∧ (∀ p, handle tree1357 p → ∃ s', returns (λ fuel, Delete fuel p) tree1357 tt s').
Proof. apply (C1_red_black_after_every_call tree1357). exact tree1357_reachable. Defined.

Lemma visit_log {K V} (p : K → V → bool) kvs log :
  visit (log_visitor p) kvs log = log ++ calls p kvs.
Proof.
  revert log. induction kvs as [|[k v] kvs IH]; intros log; simpl; [by rewrite app_nil_r|].
  destruct (p k v); [|done]. by rewrite IH, <-app_assoc.
Qed.

Lemma calls_all {K V} (p : K → V → bool) kvs :
  (∀ k v, (k, v) ∈ kvs → p k v = true) → calls p kvs = kvs.
Proof.
  induction kvs as [|[k v] kvs IH]; intros Hall; simpl; [done|].
  rewrite (Hall k v) by set_solver. f_equal. apply IH. intros ???. apply Hall. set_solver.
Qed.

Lemma calls_stop {K V} (p : K → V → bool) kvs1 k v kvs2 :
  (∀ k' v', (k', v') ∈ kvs1 → p k' v' = true) → p k v = false →
  calls p (kvs1 ++ (k, v) :: kvs2) = kvs1 ++ [(k, v)].
Proof.
  induction kvs1 as [|[k1 v1] kvs1 IH]; intros Hall Hp; simpl; [by rewrite Hp|].
  rewrite (Hall k1 v1) by set_solver. f_equal. apply IH; [|done].
  intros ???. apply Hall. set_solver.
Qed.

(** C2.  On a tree reached under a valid comparator, with [es] its live
    entries in symmetric order (one per live node, keys non-decreasing),
    [Traversal] calls the visitor on the entries of [es] in this order and
    stops after the first call answered [false]: with any visitor it leaves the
    visitor's state as [visit] computes it, and a recording visitor ends with
    exactly the entries up to and including the first one answered [false],
    all of them if none is.  The loop is [First] followed by [successor]:
    [First] returns the first entry's node and [successor] of an entry's node
    the next entry's node, nil after the last. *)
Theorem C2_traversal_in_key_order {K V} (s : RbTree K V) :
  reachable s → valid_cmp (keyCmp s) →
  ∃ es, entries s es
    ∧ (∀ a, live s a ↔ a ∈ eaddr <$> es) ∧ NoDup (eaddr <$> es)
    ∧ (∀ a k v, (a, k, v) ∈ es → ∃ n, heap s !! a = Some n ∧ key n = k ∧ value n = v)
    ∧ key_sorted (keyCmp s) es
    ∧ (∀ A (visitor : K → V → A → bool * A) acc,
        returns (λ fuel, Traversal fuel visitor acc) s (visit visitor (ekv <$> es) acc) s)
    ∧ (∀ p, returns (λ fuel, Traversal fuel (log_visitor p) []) s (calls p (ekv <$> es)) s)
    ∧ returns First s (first_addr es) s
    ∧ (∀ es1 e es2, es = es1 ++ e :: es2 →
        returns (λ fuel, successor fuel (Some (eaddr e))) s (first_addr es2) s).
Proof.
  intros Hr Hv. destruct (reachable_WF _ Hr) as [t HW]. pose proof HW as (HI & Hrb & Hsz & Hs).
  pose proof (WF_entries _ _ HW) as Hes. exists (inorder t).
  assert (∀ A (visitor : K → V → A → bool * A) acc,
    returns (λ fuel, Traversal fuel visitor acc) s (visit visitor (ekv <$> inorder t) acc) s) as Htrav.
  { intros A visitor acc.
    destruct (wp_returns (λ fuel, Traversal fuel visitor acc) (2 * length (addrs t) + 1) _ s
                (λ n, Traversal_mono n visitor acc)
                (Traversal_spec _ _ visitor s t (2 * length (addrs t) + 1) acc HI ltac:(lia)))
      as (r & s' & Hret & -> & ->). done. }
  split_and!; try done.
  - intros a. by apply entries_live.
  - by eapply entries_NoDup.
  - intros a k v. by apply entries_lookup.
  - by apply Hs.
  - intros p. specialize (Htrav _ (log_visitor p) []). by rewrite visit_log in Htrav.
  - destruct (wp_returns First (S (length (addrs t))) (λ r s', r = first_addr (inorder t) ∧ s' = s) s)
      as (r & s' & Hret & -> & ->); [intros n; apply First_mono| |done].
    eapply First_whole; [|exact HI|done]. lia.
  - intros es1 [[a k] v] es2 Heq.
    destruct (wp_returns (λ fuel, successor fuel (Some a)) (S (length (addrs t)))
                (λ r s', r = first_addr es2 ∧ s' = s) s)
      as (r & s' & Hret & -> & ->); [intros n; apply successor_mono| |done].
    eapply successor_whole; [|exact HI|exact Heq|done]. lia.
Qed.

Lemma C2_witness :
  ∃ es, entries tree1357 es
    ∧ (∀ a, live tree1357 a ↔ a ∈ eaddr <$> es) ∧ NoDup (eaddr <$> es)
    ∧ (∀ a k v, (a, k, v) ∈ es → ∃ n, heap tree1357 !! a = Some n ∧ key n = k ∧ value n = v)
    ∧ key_sorted (keyCmp tree1357) es
    ∧ (∀ A (visitor : Z → Z → A → bool * A) acc,
        returns (λ fuel, Traversal fuel visitor acc) tree1357
          (visit visitor (ekv <$> es) acc) tree1357)
    ∧ (∀ p, returns (λ fuel, Traversal fuel (log_visitor p) []) tree1357
          (calls p (ekv <$> es)) tree1357)
    ∧ returns First tree1357 (first_addr es) tree1357
    ∧ (∀ es1 e es2, es = es1 ++ e :: es2 →
        returns (λ fuel, successor fuel (Some (eaddr e))) tree1357 (first_addr es2) tree1357).
Proof.
  apply (C2_traversal_in_key_order tree1357); [exact tree1357_reachable|exact tree1357_valid].
Defined.

Lemma int_wrap_range z : int_min ≤ int_wrap z ≤ int_max.
Proof.
  unfold int_wrap, int_min, int_max.
  pose proof (Z.mod_pos_bound (z + 2 ^ 63) (2 ^ 64) ltac:(lia)). lia.
Qed.

(** [Insert] into the empty tree, step by step: the node is allocated, the
    size counted up, the node coloured black and made the root. *)
Lemma Insert_empty {K V} fuel (k : K) (v : V) s :
  root s = None →
  Insert (S fuel) k v s =
    Ok (tt, mkRbTree (<[fresh (dom (heap s)) := mkNode None None None BLACK k v]> (heap s))
              (Some (fresh (dom (heap s)))) (int_wrap (size s + 1)) (keyCmp s)).
Proof.
  intros Hroot. unfold Insert, bind, get_root, alloc, get_size, set_size, set_color, store,
    set_root, ret. rewrite Hroot. simpl. rewrite lookup_insert_eq. simpl.
  by rewrite insert_insert_eq.
Qed.

(** C3.  [Insert(key, value)] on any tree reached through the public methods
    returns; the entries afterwards are those before, untouched, plus one
    entry for the key and value at a node [z] that did not exist before (also
    when the key is already there: under a valid comparator the new entry
    comes after all entries whose key is less than or equal to the new key).
    Size goes up by one ([int] arithmetic; exactly one below the largest
    [int]).  On the empty tree the result is the old state with the one
    node, BLACK and without parent or children, as root: nothing else is
    written. *)
Theorem C3_insert_adds_one_node {K V} (s : RbTree K V) (k : K) (v : V) :
  reachable s →
  ∃ s' z es1 es2,
    returns (λ fuel, Insert fuel k v) s tt s'
    ∧ heap s !! z = None
    ∧ entries s (es1 ++ es2) ∧ entries s' (es1 ++ (z, k, v) :: es2)
    ∧ (valid_cmp (keyCmp s) →
       (∀ e, e ∈ es1 → keyCmp s (ekey e) k ≤ 0) ∧ (∀ e, e ∈ es2 → keyCmp s k (ekey e) < 0))
    ∧ size s' = int_wrap (size s + 1)
    ∧ (size s < int_max → size s' = size s + 1)
    ∧ (root s = None →
       s' = mkRbTree (<[z := mkNode None None None BLACK k v]> (heap s))
              (Some z) (int_wrap (size s + 1)) (keyCmp s)).
Proof.
  intros Hr. destruct (reachable_WF _ Hr) as [t HW].
  destruct (Insert_step s t k v HW)
    as (s' & t' & z & es1 & es2 & Hret & HW' & Hz & Hcmp & Hsz & Hin & Hin' & Hb).
  exists s', z, es1, es2.
  assert (entries s' (es1 ++ (z, k, v) :: es2)) as Hes'.
  { rewrite <-Hin'. by apply WF_entries. }
  split_and!; try done.
  - rewrite <-Hin. by apply WF_entries.
  - intros Hlt. rewrite Hsz. apply int_wrap_small.
    destruct HW as (_ & _ & Hsize & _). pose proof (int_wrap_range (Z.of_nat (length (inorder t)))).
    unfold int_min, int_max in *. lia.
  - intros Hroot. set (z0 := fresh (dom (heap s))).
    pose proof (returns_intro (λ fuel, Insert fuel k v) 1 s tt _
                  (λ n, Insert_mono n k v) (Insert_empty 0 k v s Hroot)) as Hret0.
    destruct (returns_det _ _ _ _ _ _ Hret Hret0) as [_ Hs']. fold z0 in Hs'.
    assert (es1 ++ es2 = []) as Hnil.
    { apply (entries_root s); [|done]. rewrite <-Hin. by apply WF_entries. }
    apply app_eq_nil in Hnil as [-> ->]. simpl in Hes'.
    assert (entries s' [(z0, k, v)]) as Hes0.
    { exists (T z0 BLACK E k v E). split; [|done]. rewrite Hs'. unfold represents, Inv. simpl.
      split_and!; try done; [apply NoDup_singleton|by rewrite lookup_insert_eq]. }
    pose proof (entries_unique _ _ _ Hes' Hes0) as [= Hzz]. by rewrite Hzz.
Qed.

Lemma C3_witness :
  ∃ s' z es1 es2,
    returns (λ fuel, Insert fuel 5 51) tree1357 tt s'
    ∧ heap tree1357 !! z = None
    ∧ entries tree1357 (es1 ++ es2) ∧ entries s' (es1 ++ (z, 5, 51) :: es2)
    ∧ (valid_cmp (keyCmp tree1357) →
       (∀ e, e ∈ es1 → keyCmp tree1357 (ekey e) 5 ≤ 0)
       ∧ (∀ e, e ∈ es2 → keyCmp tree1357 5 (ekey e) < 0))
    ∧ size s' = int_wrap (size tree1357 + 1)
    ∧ (size tree1357 < int_max → size s' = size tree1357 + 1)
    ∧ (root tree1357 = None →
       s' = mkRbTree (<[z := mkNode None None None BLACK 5 51]> (heap tree1357))
              (Some z) (int_wrap (size tree1357 + 1)) (keyCmp tree1357)).
Proof. apply (C3_insert_adds_one_node tree1357 5 51). exact tree1357_reachable. Defined.

Lemma bind_assoc_step {K V A B C} (m : M K V A) (k : A → M K V C)
    (f : A → M K V B) (g : B → M K V C) s :
  (∀ a s', k a s' = bind (f a) g s') → bind m k s = bind (bind m f) g s.
Proof.
  intros Hk. change (bind m k s) with (match m s with Ok (a, s') => k a s' | Panic => Panic | OutOfFuel => OutOfFuel end).
  change (bind (bind m f) g s)
    with (match bind m f s with Ok (a, s') => g a s' | Panic => Panic | OutOfFuel => OutOfFuel end).
  unfold bind. destruct (m s) as [[a s']| |]; [exact (Hk a s')|done..].
Qed.

Lemma Delete_split {K V} fuel (z : addr) (s : RbTree K V) :
  Delete fuel (Some z) s = bind (Delete_unlink fuel (Some z)) (Delete_finish_with fuel) s.
Proof.
  unfold Delete, Delete_unlink. cbn [nonnil]. cbv zeta.
  repeat (apply bind_assoc_step; intros ? ?).
  reflexivity.
Qed.

Lemma Delete_unlink_mono {K V} fuel z :
  mle (Delete_unlink (K:=K) (V:=V) fuel z) (Delete_unlink (S fuel) z).
Proof. unfold Delete_unlink. mle_auto. Qed.

Section DeleteTwo.
Context {K V : Type}.
Implicit Types (t l r : @tree K V) (ctx : list (@frame K V)) (s : RbTree K V).

Lemma Delete_unlink_two sz cmp fuel s ctx z c l k v r y ky vy rest :
  l ≠ E → inorder r = (y, ky, vy) :: rest →
  (length (addrs (plug ctx (T z c l k v r))) + 2 ≤ fuel)%nat →
  Inv sz cmp s ctx (T z c l k v r) →
  ∃ ny, heap s !! y = Some ny ∧ key ny = ky ∧ value ny = vy ∧ left ny = None ∧ y ≠ z
    ∧ wp (Delete_unlink fuel (Some z))
         (λ res _, res = (right ny, parent ny, color ny)) s.
Proof.
  intros Hl Hr Hfuel HI.
  destruct l as [|la lc ll lk lv lr]; [done|]. clear Hl.
  destruct r as [|ra rc rl rk rv rr]; [done|].
  assert (height (T ra rc rl rk rv rr) ≤ fuel)%nat as Hh.
  { etrans; [apply height_le_addrs|]. rewrite length_addrs_plug in Hfuel.
    simpl in Hfuel |- *. rewrite !length_app in Hfuel. simpl in Hfuel. lia. }
  pose proof HI as HIz. focus_R HIz.
  destruct (wp_minimum sz cmp fuel s _ (T ra rc rl rk rv rr)
              (λ p _, ∃ spine y' yc yk yv yr,
                 T ra rc rl rk rv rr = plug spine (T y' yc E yk yv yr)
                 ∧ Forall is_FL spine ∧ p = Some y') ltac:(done) Hh HIz)
    as (p & s0 & Hmin & spine & y' & yc & yk & yv & yr & Heq & Hsp & ->).
  { intros spine y' yc yk yv yr Heq Hsp. by exists spine, y', yc, yk, yv, yr. }
  assert (y' = y ∧ yk = ky ∧ yv = vy) as (-> & -> & ->).
  { rewrite Heq, inorder_plug, (cbefore_FL _ Hsp) in Hr. simpl in Hr. by injection Hr. }
  set (ctxy := spine ++ FR z c (T la lc ll lk lv lr) k v :: ctx).
  rewrite Heq in HIz. apply (proj2 (Inv_plug _ _ _ _ _ _)) in HIz. fold ctxy in HIz.
  assert (y ≠ z) as Hyz by (eapply (Inv_focus_ne_frame _ _ _ _ (FR z _ _ _ _)); exact HIz).
  exists (mkNode (cpar ctxy) None (ptr_of yr) yc ky vy).
  split_and!; try done; [by apply (Inv_lookup _ _ _ _ _ _ _ _ _ _ HIz)|].
  unfold Delete_unlink. cbv zeta. inv_facts HI. wp_go.
  cbn [ptr_of nonnil andb]. unfold successor. wp_go.
  eapply (wp_minimum sz cmp fuel s _ (T ra rc rl rk rv rr)); [done|done|apply Inv_dR, HI|].
  intros spine2 y2 yc2 yk2 yv2 yr2 Heq2 Hsp2.
  assert (y2 = y) as ->.
  { pose proof Hr as Hr2. rewrite Heq2, inorder_plug, (cbefore_FL _ Hsp2) in Hr2.
    simpl in Hr2. by injection Hr2. }
  clear H1. inv_facts HIz. wp_go.
  eapply (wp_splice' sz cmp s ctxy y yc E ky vy yr yr); [exact HIz|by left|].
  intros s1 HI1 Hy1. rewrite H1 in Hy1. wp_go.
  apply (proj1 (Inv_plug _ _ _ _ _ _)) in HI1. focus_up HI1.
  eapply wp_set_key_keep; [exact HI1|]. intros s2 HI2 Hk2.
  rewrite <-(Hk2 y Hyz) in Hy1. wp_go.
  eapply wp_set_value_keep; [exact HI2|]. intros s3 HI3 Hk3.
  rewrite <-(Hk3 y Hyz) in Hy1. wp_go. done.
Qed.

End DeleteTwo.

Lemma elem_of_remove_mid {A} (l1 l2 : list A) y a :
  NoDup (l1 ++ y :: l2) → a ∈ l1 ++ l2 ↔ a ∈ l1 ++ y :: l2 ∧ a ≠ y.
Proof.
  intros Hnd. apply NoDup_app in Hnd as (_ & Hd & [Hy _]%NoDup_cons).
  rewrite !elem_of_app, elem_of_cons. split.
  - intros [Ha|Ha]; (split; [tauto|]); intros ->; [by apply (Hd y); [|left]|done].
  - intros [[Ha|[->|Ha]] Hne]; tauto.
Qed.

(** C4.  [Delete(nil)] returns at once and leaves the state as it is.
    [Delete(z)] of a live node [z] with two children: the node unlinked is
    [y = successor(z)], a node other than [z]; afterwards [y] is no longer
    live and every other live node still is, [z] among them, now with the
    key and value [y] had; size goes down by one ([int] arithmetic; exactly
    one above the smallest [int]).  [Delete] is its first phase, which ends in
    state [s1] with the child and parent [y] had and [y]'s colour, followed by
    [rbDeleteFixup] on these when [y] was BLACK and by nothing when it was
    RED, and the decrement of size. *)
Theorem C4_delete_unlinks_successor {K V} (s : RbTree K V) :
  (∀ fuel, Delete fuel None s = Ok (tt, s))
  ∧ ∀ z nz,
      reachable s → live s z → heap s !! z = Some nz →
      left nz ≠ None → right nz ≠ None →
      ∃ y ny s1 s',
        returns (λ fuel, successor fuel (Some z)) s (Some y) s
        ∧ y ≠ z ∧ live s y ∧ heap s !! y = Some ny
        ∧ returns (λ fuel, Delete fuel (Some z)) s tt s'
        ∧ (∀ a, live s' a ↔ live s a ∧ a ≠ y)
        ∧ (∃ nz', heap s' !! z = Some nz' ∧ key nz' = key ny ∧ value nz' = value ny)
        ∧ size s' = int_wrap (size s - 1)
        ∧ (int_min < size s → size s' = size s - 1)
        ∧ returns (λ fuel, Delete_unlink fuel (Some z)) s (right ny, parent ny, color ny) s1
        ∧ (color ny = BLACK →
           ∃ s2, returns (λ fuel, rbDeleteFixup fuel (right ny) (parent ny)) s1 tt s2
                 ∧ s' = dec_size s2)
        ∧ (color ny = RED → s' = dec_size s1).
Proof.
  split; [intros fuel; apply Delete_nil|].
  intros z nz Hr Hz Hnz Hleft Hright.
  destruct (reachable_WF _ Hr) as [t HW]. pose proof HW as (HI & Hrb & Hsz & Hs).
  apply (WF_live _ _ _ HW) in Hz.
  destruct (tree_split _ _ Hz) as (ctx & c & l & k & v & r & ->).
  pose proof HI as HIz. apply Inv_whole in HIz.
  rewrite (Inv_lookup _ _ _ _ _ _ _ _ _ _ HIz) in Hnz. injection Hnz as <-. simpl in Hleft, Hright.
  destruct (Delete_step s ctx z c l k v r HW) as (s' & t' & Hret & HW' & Hcmp & Hsz' & Hin').
  assert (l ≠ E) as Hl by (by intros ->).
  destruct (inorder r) as [|[[y ky] vy] rest] eqn:Hinr.
  { exfalso. destruct r as [|ra rc rl rk rv rr]; [done|]. simpl in Hinr. by destruct (inorder rl). }
  destruct (Delete_unlink_two _ _ (length (addrs (plug ctx (T z c l k v r))) + 2) s
              ctx z c l k v r y ky vy rest Hl Hinr ltac:(lia) HIz)
    as (ny & Hy & Hky & Hvy & Hyl & Hyz & Hwp).
  destruct (wp_returns (λ fuel, Delete_unlink fuel (Some z)) _ _ s
              (λ n, Delete_unlink_mono n (Some z)) Hwp) as (res & s1 & Hun & ->).
  assert (inorder (plug ctx (T z c l k v r))
          = (cbefore ctx ++ inorder l ++ [(z, k, v)]) ++ (y, ky, vy) :: rest ++ cafter ctx) as Hes.
  { rewrite inorder_plug. simpl. rewrite Hinr. by rewrite <-!app_assoc. }
  assert (inorder t' = (cbefore ctx ++ inorder l ++ [(z, ky, vy)]) ++ rest ++ cafter ctx) as Hes'.
  { rewrite Hin'. unfold del_entries. destruct l; [done|]. destruct r; [done|].
    rewrite Hinr. by rewrite <-!app_assoc. }
  pose proof (WF_entries _ _ HW) as Hent. pose proof (WF_entries _ _ HW') as Hent'.
  assert (∀ a, live s' a ↔ live s a ∧ a ≠ y) as Hlive.
  { intros a. rewrite (entries_live _ _ a Hent), (entries_live _ _ a Hent').
    pose proof (entries_NoDup _ _ Hent) as Hnd. rewrite Hes in Hnd |- *. rewrite Hes'.
    set (P := cbefore ctx ++ inorder l ++ [(z, k, v)]) in *.
    assert (eaddr <$> cbefore ctx ++ inorder l ++ [(z, ky, vy)] = eaddr <$> P) as HP.
    { unfold P. by rewrite !fmap_app. }
    rewrite (fmap_app _ (cbefore ctx ++ inorder l ++ [(z, ky, vy)])), HP.
    rewrite (fmap_app _ P), fmap_cons in Hnd |- *.
    by apply elem_of_remove_mid. }
  exists y, ny, s1, s'. split_and!; try done.
  - destruct (wp_returns (λ fuel, successor fuel (Some z))
                (S (length (addrs (plug ctx (T z c l k v r)))))
                (λ p s0, p = Some y ∧ s0 = s) s) as (p & s0 & Hsucc & -> & ->);
      [intros n; apply successor_mono| |done].
    eapply (successor_whole _ _ _ s _ (cbefore ctx ++ inorder l) z k v ((y, ky, vy) :: rest ++ cafter ctx));
      [|exact HI| |done]; [lia|].
    rewrite Hes. by rewrite <-!app_assoc.
  - apply (entries_live _ _ y Hent). rewrite Hes, fmap_app, fmap_cons. set_solver.
  - destruct (entries_lookup s' _ z ky vy Hent') as (nz' & ? & ? & ?).
    { rewrite Hes'. set_solver. }
    exists nz'. by rewrite Hky, Hvy.
  - intros Hlt. rewrite Hsz'. apply int_wrap_small.
    pose proof (int_wrap_range (Z.of_nat (length (inorder (plug ctx (T z c l k v r)))))).
    unfold int_min, int_max in *. lia.
  - intros Hblack. destruct Hret as [n1 Hn1], Hun as [n2 Hn2].
    specialize (Hn1 (n1 `max` n2)%nat ltac:(lia)). specialize (Hn2 (n1 `max` n2)%nat ltac:(lia)).
    rewrite Delete_split in Hn1. unfold bind at 1 in Hn1. rewrite Hn2 in Hn1.
    unfold Delete_finish_with in Hn1. rewrite Hblack in Hn1. unfold bind at 1 in Hn1.
    destruct (rbDeleteFixup _ _ _ s1) as [[[] s2]| |] eqn:Hfix; try done.
    exists s2. split.
    + eapply (returns_intro (λ fuel, rbDeleteFixup fuel (right ny) (parent ny))); [|exact Hfix].
      intros n. apply rbDeleteFixup_mono.
    + by injection Hn1.
  - intros Hred. destruct Hret as [n1 Hn1], Hun as [n2 Hn2].
    specialize (Hn1 (n1 `max` n2)%nat ltac:(lia)). specialize (Hn2 (n1 `max` n2)%nat ltac:(lia)).
    rewrite Delete_split in Hn1. unfold bind at 1 in Hn1. rewrite Hn2 in Hn1.
    unfold Delete_finish_with in Hn1. rewrite Hred in Hn1. by injection Hn1.
Qed.

Lemma C4_witness :
  ∃ y ny s1 s',
    returns (λ fuel, successor fuel (Some 2%positive)) tree1357 (Some y) tree1357
    ∧ y ≠ 2%positive ∧ live tree1357 y ∧ heap tree1357 !! y = Some ny
    ∧ returns (λ fuel, Delete fuel (Some 2%positive)) tree1357 tt s'
    ∧ (∀ a, live s' a ↔ live tree1357 a ∧ a ≠ y)
    ∧ (∃ nz', heap s' !! 2%positive = Some nz' ∧ key nz' = key ny ∧ value nz' = value ny)
    ∧ size s' = int_wrap (size tree1357 - 1)
    ∧ (int_min < size tree1357 → size s' = size tree1357 - 1)
    ∧ returns (λ fuel, Delete_unlink fuel (Some 2%positive)) tree1357
        (right ny, parent ny, color ny) s1
    ∧ (color ny = BLACK →
       ∃ s2, returns (λ fuel, rbDeleteFixup fuel (right ny) (parent ny)) s1 tt s2
             ∧ s' = dec_size s2)
    ∧ (color ny = RED → s' = dec_size s1).
Proof.
  apply (proj2 (C4_delete_unlinks_successor tree1357) 2%positive
           (mkNode None (Some 1%positive) (Some 3%positive) BLACK 3 30)).
  - exact tree1357_reachable.
  - apply live_root. vm_compute. reflexivity.
  - vm_compute. reflexivity.
  - simpl. discriminate.
  - simpl. discriminate.
Defined.

(** ** Bounds *)

Lemma valid_cmp_ge {K} (cmp : K → K → Z) a b : valid_cmp cmp → 0 ≤ cmp a b ↔ cmp b a ≤ 0.
Proof. intros [Hs _]. specialize (Hs a b). lia. Qed.

Lemma find_first_split {A} (p : A → bool) (l1 l2 : list A) x :
  (∀ y, y ∈ l1 → p y = false) → p x = true → find p (l1 ++ x :: l2) = Some x.
Proof. intros Hall Hx. rewrite find_app_r by done. simpl. by rewrite Hx. Qed.

Lemma int_cmp_le a b : int_cmp a b ≤ 0 ↔ a ≤ b.
Proof. unfold int_cmp. destruct (Z.ltb_spec a b), (Z.ltb_spec b a); lia. Qed.

(** A tree of integer keys that holds 1, 3, 5 and 7 has them in this order. *)
Lemma keys_1357 {V} (s : RbTree Z V) es :
  reachable s → keyCmp s = int_cmp → entries s es →
  ekey <$> es ≡ₚ [1; 3; 5; 7] →
  ∃ a1 v1 a3 v3 a5 v5 a7 v7, es = [(a1, 1, v1); (a3, 3, v3); (a5, 5, v5); (a7, 7, v7)].
Proof.
  intros Hr Hcmp Hes Hperm.
  assert (valid_cmp (keyCmp s)) as Hv by (rewrite Hcmp; apply int_cmp_valid).
  pose proof (entries_sorted _ _ Hr Hv Hes) as Hs. rewrite Hcmp in Hs.
  apply key_sorted_keys in Hs.
  assert (ekey <$> es = [1; 3; 5; 7]) as Hk.
  { eapply (StronglySorted_unique_strong (λ a b, int_cmp a b ≤ 0)); [|exact Hs| |exact Hperm].
    - intros x1 x2 _ _ H1 H2. apply (proj1 (int_cmp_le _ _)) in H1, H2. lia.
    - repeat (constructor; [|repeat constructor; apply (proj2 (int_cmp_le _ _)); lia]).
      constructor. }
  destruct es as [|[[a1 k1] v1] [|[[a3 k3] v3] [|[[a5 k5] v5] [|[[a7 k7] v7] [|? ?]]]]]; try done.
  cbn in Hk. injection Hk as -> -> -> ->. by exists a1, v1, a3, v3, a5, v5, a7, v7.
Qed.

Lemma tree1357_entries : entries tree1357 entries1357.
Proof.
  exists (T 2%positive BLACK (T 1%positive BLACK E 1 10 E) 3 30
            (T 3%positive BLACK E 5 50 (T 4%positive RED E 7 70 E))).
  split; [|done]. unfold represents, Inv. simpl. split_and!; try (vm_compute; reflexivity); try done.
  apply (bool_decide_unpack _). vm_compute. reflexivity.
Qed.

Lemma FindLowerBoundNode_returns {K V} (s : RbTree K V) t k :
  WF s t → valid_cmp (keyCmp s) →
  returns (λ fuel, FindLowerBoundNode fuel k) s
    (eaddr <$> find (λ e, keyCmp s k (ekey e) <=? 0) (inorder t)) s.
Proof.
  intros (HI & _ & _ & Hs) Hv.
  destruct (wp_returns (λ fuel, FindLowerBoundNode fuel k) (S (height t))
              (λ r s', r = eaddr <$> lb (keyCmp s) k t ∧ s' = s) s)
    as (r & s' & Hret & -> & ->); [intros n; apply FindLowerBoundNode_mono| |].
  - eapply FindLowerBoundNode_spec; [|exact HI|done]. lia.
  - by rewrite lb_find in Hret by auto.
Qed.

Lemma FindUpperBoundNode_returns {K V} (s : RbTree K V) t k :
  WF s t → valid_cmp (keyCmp s) →
  returns (λ fuel, FindUpperBoundNode fuel k) s
    (eaddr <$> find (λ e, keyCmp s k (ekey e) <? 0) (inorder t)) s.
Proof.
  intros (HI & _ & _ & Hs) Hv.
  destruct (wp_returns (λ fuel, FindUpperBoundNode fuel k) (S (height t))
              (λ r s', r = eaddr <$> ub (keyCmp s) k t ∧ s' = s) s)
    as (r & s' & Hret & -> & ->); [intros n; apply FindUpperBoundNode_mono| |].
  - eapply FindUpperBoundNode_spec; [|exact HI|done]. lia.
  - by rewrite ub_find in Hret by auto.
Qed.

(** C5.  Under a valid comparator, with [es] the live entries in symmetric
    order, [FindLowerBoundNode(k)] returns the node of the first entry of
    [es] whose key is not below [k], and nil when there is none: if [es]
    splits into entries with keys below [k] followed by an entry [e] with
    key at or above [k], the node of [e] is returned; if all keys are below
    [k], nil.  On a tree of integer keys holding 1, 3, 5, 7 the answer for 2
    is the node with key 3, for 5 the node with key 5, for 8 nil. *)
Theorem C5_lower_bound :
  (∀ K V (s : RbTree K V) (k : K),
     reachable s → valid_cmp (keyCmp s) →
     ∃ es, entries s es ∧ key_sorted (keyCmp s) es
       ∧ returns (λ fuel, FindLowerBoundNode fuel k) s
           (eaddr <$> find (λ e, keyCmp s k (ekey e) <=? 0) es) s
       ∧ (∀ es1 e es2, es = es1 ++ e :: es2 →
            (∀ e', e' ∈ es1 → keyCmp s (ekey e') k < 0) → 0 ≤ keyCmp s (ekey e) k →
            returns (λ fuel, FindLowerBoundNode fuel k) s (Some (eaddr e)) s)
       ∧ ((∀ e, e ∈ es → keyCmp s (ekey e) k < 0) →
            returns (λ fuel, FindLowerBoundNode fuel k) s None s))
  ∧ (∀ V (s : RbTree Z V) es,
       reachable s → keyCmp s = int_cmp → entries s es →
       ekey <$> es ≡ₚ [1; 3; 5; 7] →
       (∃ a n, returns (λ fuel, FindLowerBoundNode fuel 2) s (Some a) s
               ∧ heap s !! a = Some n ∧ key n = 3)
       ∧ (∃ a n, returns (λ fuel, FindLowerBoundNode fuel 5) s (Some a) s
                 ∧ heap s !! a = Some n ∧ key n = 5)
       ∧ returns (λ fuel, FindLowerBoundNode fuel 8) s None s).
Proof.
  split.
  - intros K V s k Hr Hv. destruct (reachable_WF _ Hr) as [t HW].
    pose proof (FindLowerBoundNode_returns s t k HW Hv) as Hret.
    exists (inorder t). split_and!; [by apply WF_entries|by apply HW|done|..].
    + intros es1 e es2 Heq Hlt Hge. rewrite Heq, (find_first_split _ es1 es2 e) in Hret; [done|..].
      * intros e' He'. apply Z.leb_gt. apply Z.gt_lt, (proj1 Hv). by apply Hlt.
      * apply Z.leb_le. by apply (valid_cmp_ge (keyCmp s)).
    + intros Hall. rewrite (proj2 (find_none_iff _ (inorder t))) in Hret; [done|].
      intros e He. apply Z.leb_gt. apply Z.gt_lt, (proj1 Hv). by apply Hall.
  - intros V s es Hr Hcmp Hes Hperm.
    destruct (keys_1357 s es Hr Hcmp Hes Hperm) as (a1 & v1 & a3 & v3 & a5 & v5 & a7 & v7 & ->).
    assert (valid_cmp (keyCmp s)) as Hv by (rewrite Hcmp; apply int_cmp_valid).
    destruct (entries_WF _ _ Hr Hes) as (t & HW & Hin).
    pose proof (λ k, FindLowerBoundNode_returns s t k HW Hv) as Hret.
    rewrite Hin, Hcmp in Hret. split_and!.
    + destruct (entries_lookup _ _ a3 3 v3 Hes) as (n & ? & ? & _); [set_solver|].
      exists a3, n. split; [apply (Hret 2)|done].
    + destruct (entries_lookup _ _ a5 5 v5 Hes) as (n & ? & ? & _); [set_solver|].
      exists a5, n. split; [apply (Hret 5)|done].
    + apply (Hret 8).
Qed.

Lemma C5_witness :
  (∃ es, entries tree1357 es ∧ key_sorted (keyCmp tree1357) es
     ∧ returns (λ fuel, FindLowerBoundNode fuel 4) tree1357
         (eaddr <$> find (λ e, keyCmp tree1357 4 (ekey e) <=? 0) es) tree1357
     ∧ (∀ es1 e es2, es = es1 ++ e :: es2 →
          (∀ e', e' ∈ es1 → keyCmp tree1357 (ekey e') 4 < 0) → 0 ≤ keyCmp tree1357 (ekey e) 4 →
          returns (λ fuel, FindLowerBoundNode fuel 4) tree1357 (Some (eaddr e)) tree1357)
     ∧ ((∀ e, e ∈ es → keyCmp tree1357 (ekey e) 4 < 0) →
          returns (λ fuel, FindLowerBoundNode fuel 4) tree1357 None tree1357))
  ∧ ((∃ a n, returns (λ fuel, FindLowerBoundNode fuel 2) tree1357 (Some a) tree1357
             ∧ heap tree1357 !! a = Some n ∧ key n = 3)
     ∧ (∃ a n, returns (λ fuel, FindLowerBoundNode fuel 5) tree1357 (Some a) tree1357
               ∧ heap tree1357 !! a = Some n ∧ key n = 5)
     ∧ returns (λ fuel, FindLowerBoundNode fuel 8) tree1357 None tree1357).
Proof.
  split.
  - apply (proj1 C5_lower_bound Z Z tree1357 4); [exact tree1357_reachable|exact tree1357_valid].
  - apply (proj2 C5_lower_bound Z tree1357 entries1357);
      [exact tree1357_reachable|exact tree1357_keyCmp|exact tree1357_entries|reflexivity].
Defined.

(** C6.  Under a valid comparator, with [es] the live entries in symmetric
    order, [FindUpperBoundNode(k)] returns the node of the first entry of
    [es] whose key is above [k], and nil when there is none: if [es] splits
    into entries with keys at or below [k] followed by an entry [e] with key
    above [k], the node of [e] is returned; if no key is above [k], nil.  On
    a tree of integer keys holding 1, 3, 5, 7 the answer for 1 is the node
    with key 3 and for 7 nil. *)
Theorem C6_upper_bound :
  (∀ K V (s : RbTree K V) (k : K),
     reachable s → valid_cmp (keyCmp s) →
     ∃ es, entries s es ∧ key_sorted (keyCmp s) es
       ∧ returns (λ fuel, FindUpperBoundNode fuel k) s
           (eaddr <$> find (λ e, keyCmp s k (ekey e) <? 0) es) s
       ∧ (∀ es1 e es2, es = es1 ++ e :: es2 →
            (∀ e', e' ∈ es1 → keyCmp s (ekey e') k ≤ 0) → 0 < keyCmp s (ekey e) k →
            returns (λ fuel, FindUpperBoundNode fuel k) s (Some (eaddr e)) s)
       ∧ ((∀ e, e ∈ es → keyCmp s (ekey e) k ≤ 0) →
            returns (λ fuel, FindUpperBoundNode fuel k) s None s))
  ∧ (∀ V (s : RbTree Z V) es,
       reachable s → keyCmp s = int_cmp → entries s es →
       ekey <$> es ≡ₚ [1; 3; 5; 7] →
       (∃ a n, returns (λ fuel, FindUpperBoundNode fuel 1) s (Some a) s
               ∧ heap s !! a = Some n ∧ key n = 3)
       ∧ returns (λ fuel, FindUpperBoundNode fuel 7) s None s).
Proof.
  split.
  - intros K V s k Hr Hv. destruct (reachable_WF _ Hr) as [t HW].
    pose proof (FindUpperBoundNode_returns s t k HW Hv) as Hret.
    exists (inorder t). split_and!; [by apply WF_entries|by apply HW|done|..].
    + intros es1 e es2 Heq Hle Hgt. rewrite Heq, (find_first_split _ es1 es2 e) in Hret; [done|..].
      * intros e' He'. apply Z.ltb_ge. apply (valid_cmp_ge (keyCmp s)); [done|]. by apply Hle.
      * apply Z.ltb_lt. apply (proj1 Hv). lia.
    + intros Hall. rewrite (proj2 (find_none_iff _ (inorder t))) in Hret; [done|].
      intros e He. apply Z.ltb_ge. apply (valid_cmp_ge (keyCmp s)); [done|]. by apply Hall.
  - intros V s es Hr Hcmp Hes Hperm.
    destruct (keys_1357 s es Hr Hcmp Hes Hperm) as (a1 & v1 & a3 & v3 & a5 & v5 & a7 & v7 & ->).
    assert (valid_cmp (keyCmp s)) as Hv by (rewrite Hcmp; apply int_cmp_valid).
    destruct (entries_WF _ _ Hr Hes) as (t & HW & Hin).
    pose proof (λ k, FindUpperBoundNode_returns s t k HW Hv) as Hret.
    rewrite Hin, Hcmp in Hret. split.
    + destruct (entries_lookup _ _ a3 3 v3 Hes) as (n & ? & ? & _); [set_solver|].
      exists a3, n. split; [apply (Hret 1)|done].
    + apply (Hret 7).
Qed.

Lemma C6_witness :
  (∃ es, entries tree1357 es ∧ key_sorted (keyCmp tree1357) es
     ∧ returns (λ fuel, FindUpperBoundNode fuel 3) tree1357
         (eaddr <$> find (λ e, keyCmp tree1357 3 (ekey e) <? 0) es) tree1357
     ∧ (∀ es1 e es2, es = es1 ++ e :: es2 →
          (∀ e', e' ∈ es1 → keyCmp tree1357 (ekey e') 3 ≤ 0) → 0 < keyCmp tree1357 (ekey e) 3 →
          returns (λ fuel, FindUpperBoundNode fuel 3) tree1357 (Some (eaddr e)) tree1357)
     ∧ ((∀ e, e ∈ es → keyCmp tree1357 (ekey e) 3 ≤ 0) →
          returns (λ fuel, FindUpperBoundNode fuel 3) tree1357 None tree1357))
  ∧ ((∃ a n, returns (λ fuel, FindUpperBoundNode fuel 1) tree1357 (Some a) tree1357
             ∧ heap tree1357 !! a = Some n ∧ key n = 3)
     ∧ returns (λ fuel, FindUpperBoundNode fuel 7) tree1357 None tree1357).
Proof.
  split.
  - apply (proj1 C6_upper_bound Z Z tree1357 3); [exact tree1357_reachable|exact tree1357_valid].
  - apply (proj2 C6_upper_bound Z tree1357 entries1357);
      [exact tree1357_reachable|exact tree1357_keyCmp|exact tree1357_entries|reflexivity].
Defined.

(** ** Find *)

Lemma find_split {A} (p : A → bool) (l : list A) x :
  find p l = Some x →
  ∃ l1 l2, l = l1 ++ x :: l2 ∧ (∀ y, y ∈ l1 → p y = false) ∧ p x = true.
Proof.
  induction l as [|y l IH]; simpl; [done|]. destruct (p y) eqn:Hy.
  - intros [= ->]. exists [], l. split_and!; [done| |done]. intros ? ?%elem_of_nil. done.
  - intros (l1 & l2 & -> & Hall & Hx)%IH. exists (y :: l1), l2. split_and!; [done| |done].
    intros z [->|?]%elem_of_cons; auto.
Qed.

Lemma valid_cmp_eq_sym {K} (cmp : K → K → Z) a b : valid_cmp cmp → cmp a b = 0 → cmp b a = 0.
Proof. intros [Hs _] Hab. pose proof (Hs a b). pose proof (Hs b a). lia. Qed.

Lemma valid_cmp_refl {K} (cmp : K → K → Z) a : valid_cmp cmp → cmp a a = 0.
Proof. intros [Hs _]. pose proof (Hs a a). lia. Qed.

Lemma first_eq_found {K V} cmp (k : K) (t : @tree K V) :
  valid_cmp cmp → key_sorted cmp (inorder t) →
  (∃ e, e ∈ inorder t ∧ cmp (ekey e) k = 0) →
  ∃ e0, first_eq cmp k t = Some e0 ∧ e0 ∈ inorder t ∧ cmp (ekey e0) k = 0.
Proof.
  intros Hv Hs (e & He & Hek). unfold first_eq. rewrite lb_find by done.
  pose proof (valid_cmp_eq_sym _ _ _ Hv Hek) as Hke.
  destruct (find _ (inorder t)) as [e0|] eqn:Hf.
  2:{ rewrite find_none_iff in Hf. specialize (Hf e He). apply Z.leb_gt in Hf. lia. }
  destruct (find_split _ _ _ Hf) as (l1 & l2 & Heq & Hall & Hp0). apply Z.leb_le in Hp0.
  assert (cmp (ekey e0) (ekey e) ≤ 0) as Hle.
  { rewrite Heq in He, Hs. apply elem_of_app in He as [He|He].
    - specialize (Hall e He). apply Z.leb_gt in Hall. lia.
    - apply elem_of_cons in He as [->|He]; [rewrite valid_cmp_refl by done; lia|].
      apply key_sorted_app in Hs as (_ & Hs & _). apply key_sorted_cons in Hs as [_ Hs]. by apply Hs. }
  assert (cmp (ekey e0) k ≤ 0) as Hle' by (apply (proj2 Hv _ (ekey e)); lia).
  assert (0 ≤ cmp (ekey e0) k) as Hge by (by apply valid_cmp_ge).
  assert (cmp (ekey e0) k = 0) as H0 by lia.
  exists e0. rewrite H0. simpl. split_and!; [done| |done].
  rewrite Heq. set_solver.
Qed.

Lemma first_eq_Some {K V} cmp (k : K) (t : @tree K V) e :
  first_eq cmp k t = Some e → e ∈ inorder t ∧ cmp (ekey e) k = 0.
Proof.
  intros Hf. split; [by eapply first_eq_elem|]. unfold first_eq in Hf.
  destruct (lb cmp k t) as [e'|]; [|done]. destruct (Z.eqb_spec (cmp (ekey e') k) 0); [|done].
  by injection Hf as <-.
Qed.

(** C7.  On any tree reached through the public methods [Find(key)]
    returns, it never panics.  With [p] the node [FindLowerBoundNode(key)]
    returns: if [p] is nil, or the key of [p] does not compare equal to
    [key], [Find] returns the zero value and [ErrorNotFound]; if the key of
    [p] compares equal, [Find] returns the value of [p] and the error nil.
    Under a valid comparator: when no live entry has a key comparing equal to
    [key] the result is the zero value with [ErrorNotFound], and when one has
    it is the value of such an entry with the error nil. *)
Theorem C7_find {K V} (s : RbTree K V) (zero : V) (k : K) :
  reachable s →
  (∃ p, returns (λ fuel, FindLowerBoundNode fuel k) s p s
     ∧ match p with
       | None => returns (λ fuel, Find zero fuel k) s (zero, Some ErrorNotFound) s
       | Some a =>
           ∃ n, heap s !! a = Some n
             ∧ if keyCmp s (key n) k =? 0
               then returns (λ fuel, Find zero fuel k) s (value n, None) s
               else returns (λ fuel, Find zero fuel k) s (zero, Some ErrorNotFound) s
       end)
  ∧ (valid_cmp (keyCmp s) → ∀ es, entries s es →
       ((∀ e, e ∈ es → keyCmp s (ekey e) k ≠ 0) →
          returns (λ fuel, Find zero fuel k) s (zero, Some ErrorNotFound) s)
       ∧ ((∃ e, e ∈ es ∧ keyCmp s (ekey e) k = 0) →
          ∃ e, e ∈ es ∧ keyCmp s (ekey e) k = 0
               ∧ returns (λ fuel, Find zero fuel k) s (evalue e, None) s)).
Proof.
  intros Hr. destruct (reachable_WF _ Hr) as [t HW]. pose proof HW as (HI & _ & _ & Hs).
  destruct (wp_returns (λ fuel, FindLowerBoundNode fuel k) (S (height t))
              (λ r s', r = eaddr <$> lb (keyCmp s) k t ∧ s' = s) s)
    as (p & s0 & Hlb & -> & ->); [intros n; apply FindLowerBoundNode_mono| |].
  { eapply FindLowerBoundNode_spec; [|exact HI|done]. lia. }
  destruct (wp_returns (λ fuel, Find zero fuel k) (S (height t))
              (λ r s', r = match first_eq (keyCmp s) k t with
                           | Some e => (evalue e, None)
                           | None => (zero, Some ErrorNotFound)
                           end ∧ s' = s) s)
    as (r & s0 & Hfind & -> & ->); [intros n; apply Find_mono| |].
  { eapply Find_spec; [|exact HI|done]. lia. }
  split.
  - eexists. split; [exact Hlb|]. unfold first_eq in Hfind.
    destruct (lb (keyCmp s) k t) as [[[a ka] va]|] eqn:Hl; simpl; [|done].
    destruct (Inv_entry _ _ _ _ a ka va HI) as (n & Hn & <- & <-); [by eapply lb_elem|].
    exists n. split; [done|]. unfold ekey, evalue in Hfind. simpl in Hfind.
    by destruct (keyCmp s (key n) k =? 0).
  - intros Hv es Hes.
    assert (es = inorder t) as -> by (eapply entries_unique; [exact Hes|by apply WF_entries]).
    split.
    + intros Hall. destruct (first_eq (keyCmp s) k t) as [e|] eqn:Hf; [|done].
      apply first_eq_Some in Hf as [He H0]. by destruct (Hall e He).
    + intros Hex. destruct (first_eq_found _ k t Hv (Hs Hv) Hex) as (e0 & Hf & He0 & H0).
      rewrite Hf in Hfind. by exists e0.
Qed.

Lemma C7_witness :
  (∃ p, returns (λ fuel, FindLowerBoundNode fuel 5) tree1357 p tree1357
     ∧ match p with
       | None => returns (λ fuel, Find 0 fuel 5) tree1357 (0, Some ErrorNotFound) tree1357
       | Some a =>
           ∃ n, heap tree1357 !! a = Some n
             ∧ if keyCmp tree1357 (key n) 5 =? 0
               then returns (λ fuel, Find 0 fuel 5) tree1357 (value n, None) tree1357
               else returns (λ fuel, Find 0 fuel 5) tree1357 (0, Some ErrorNotFound) tree1357
       end)
  ∧ (valid_cmp (keyCmp tree1357) → ∀ es, entries tree1357 es →
       ((∀ e, e ∈ es → keyCmp tree1357 (ekey e) 5 ≠ 0) →
          returns (λ fuel, Find 0 fuel 5) tree1357 (0, Some ErrorNotFound) tree1357)
       ∧ ((∃ e, e ∈ es ∧ keyCmp tree1357 (ekey e) 5 = 0) →
          ∃ e, e ∈ es ∧ keyCmp tree1357 (ekey e) 5 = 0
               ∧ returns (λ fuel, Find 0 fuel 5) tree1357 (evalue e, None) tree1357)).
Proof. apply (C7_find tree1357 0 5). exact tree1357_reachable. Defined.

Section RoundTripFacts.
Context {K V : Type}.
Implicit Types (t : @tree K V) (s : RbTree K V) (cmp : K → K → Z).

Lemma distinct_perm cmp ks1 ks2 :
  valid_cmp cmp → ks1 ≡ₚ ks2 → distinct cmp ks1 → distinct cmp ks2.
Proof.
  intros Hv. induction 1 as [|x l l' Hp IH|x y l|l l' l'' _ IH1 _ IH2]; simpl; [done|..].
  - intros [Hx Hd]. split; [|by apply IH]. intros k' Hk'. apply Hx. by rewrite Hp.
  - intros (Hy & Hx & Hd). split_and!; [|intros k' Hk'; apply Hy; set_solver|done].
    intros k' [->|Hk']%elem_of_cons; [|by apply Hx].
    intros H0. apply (Hy x); [set_solver|]. by apply valid_cmp_eq_sym.
  - auto.
Qed.

Lemma insert_all_det kvs s s1 s2 : insert_all kvs s s1 → insert_all kvs s s2 → s1 = s2.
Proof.
  induction 1 as [s|k v kvs s sa sb Hret _ IH]; inversion 1 as [|k' v' kvs' s' sa' sb' Hret' Hrest]; subst.
  - done.
  - destruct (returns_det _ _ _ _ _ _ Hret Hret') as [_ <-]. by apply IH.
Qed.

Lemma delete_all_det ks s s1 s2 : delete_all ks s s1 → delete_all ks s s2 → s1 = s2.
Proof.
  induction 1 as [s|k ks s p sa sb Hf Hd _ IH]; inversion 1 as [|k' ks' s' p' sa' sb' Hf' Hd' Hrest]; subst.
  - done.
  - destruct (returns_det _ _ _ _ _ _ Hf Hf') as [<- _].
    destruct (returns_det _ _ _ _ _ _ Hd Hd') as [_ <-]. by apply IH.
Qed.

Lemma insert_all_run kvs : ∀ s t,
  WF s t →
  ∃ s1 t1, insert_all kvs s s1 ∧ WF s1 t1 ∧ keyCmp s1 = keyCmp s
    ∧ ekey <$> inorder t1 ≡ₚ kvs.*1 ++ (ekey <$> inorder t).
Proof.
  induction kvs as [|[k v] kvs IH]; intros s t HW.
  - exists s, t. split_and!; [constructor|done..].
  - destruct (Insert_step s t k v HW)
      as (s' & t' & z & es1 & es2 & Hret & HW' & _ & Hcmp & _ & Hin & Hin' & _).
    destruct (IH s' t' HW') as (s1 & t1 & Hall & HW1 & Hcmp1 & Hperm).
    exists s1, t1. split_and!; [by econstructor|done|congruence|].
    rewrite Hperm, Hin', Hin, !fmap_app, fmap_cons. simpl. unfold ekey at 2. simpl.
    solve_Permutation.
Qed.

Lemma valid_cmp_eq_trans cmp (a b c : K) :
  valid_cmp cmp → cmp a b = 0 → cmp b c = 0 → cmp a c = 0.
Proof.
  intros Hv Hab Hbc.
  pose proof (valid_cmp_eq_sym _ _ _ Hv Hab). pose proof (valid_cmp_eq_sym _ _ _ Hv Hbc).
  assert (cmp a c ≤ 0) by (apply (proj2 Hv _ b); lia).
  assert (cmp c a ≤ 0) by (apply (proj2 Hv _ b); lia).
  assert (0 ≤ cmp a c) by (by apply valid_cmp_ge). lia.
Qed.

Lemma delete_all_run ks : ∀ s t,
  valid_cmp (keyCmp s) → WF s t → distinct (keyCmp s) ks →
  length (inorder t) = length ks →
  (∀ k, k ∈ ks → ∃ e, e ∈ inorder t ∧ keyCmp s (ekey e) k = 0) →
  ∃ s2, delete_all ks s s2 ∧ WF s2 E.
Proof.
  induction ks as [|k ks IH]; intros s t Hv HW Hd Hlen Hall.
  - exists s. split; [constructor|]. destruct t; [done|]. simpl in Hlen.
    rewrite length_app in Hlen. simpl in Hlen. lia.
  - pose proof HW as (HI & _ & _ & Hs). destruct Hd as [Hk Hd].
    destruct (first_eq_found _ k t Hv (Hs Hv) (Hall k ltac:(set_solver)))
      as ([[a k0] v0] & Hf & He0 & H0).
    destruct (wp_returns (λ fuel, FindNode fuel k) (S (height t))
                (λ r s', r = Some a ∧ s' = s) s)
      as (p & s0 & Hfind & -> & ->); [intros n; apply FindNode_mono| |].
    { eapply FindNode_spec; [|exact HI|by rewrite Hf]. lia. }
    apply list_elem_of_split in He0 as (es1 & es2 & Hin).
    destruct (Inv_at _ _ _ _ _ _ _ _ _ HI Hin) as (ctx & c & l & r & _ & -> & -> & ->).
    destruct (Delete_step s ctx a c l k0 v0 r HW) as (s' & t' & Hret & HW' & Hcmp & _ & Hin').
    assert (ekv <$> inorder t' = ekv <$> ((cbefore ctx ++ inorder l) ++ inorder r ++ cafter ctx)) as Hkv.
    { rewrite Hin', !fmap_app, del_entries_ekv, !fmap_app. by rewrite <-!app_assoc. }
    destruct (IH s' t') as (s2 & Hrest & HW2); try done.
    + by rewrite Hcmp.
    + by rewrite Hcmp.
    + rewrite <-(length_fmap ekv), Hkv, length_fmap. rewrite Hin in Hlen.
      rewrite !length_app in Hlen |- *. simpl in Hlen. lia.
    + intros k' Hk'. destruct (Hall k' ltac:(set_solver)) as (e' & He' & H0').
      rewrite Hin in He'.
      assert (e' ∈ (cbefore ctx ++ inorder l) ++ inorder r ++ cafter ctx) as He''.
      { apply elem_of_app in He' as [?|[->|?]%elem_of_cons]; [set_solver| |set_solver].
        exfalso. apply (Hk k' Hk'). eapply valid_cmp_eq_trans; [done| |exact H0'].
        by apply valid_cmp_eq_sym. }
      apply (list_elem_of_fmap_2 ekv) in He''. rewrite <-Hkv in He''.
      apply list_elem_of_fmap in He'' as (e2 & Heq & He2). exists e2. split; [done|].
      rewrite Hcmp. assert (ekey e2 = ekey e') as -> by (unfold ekey, ekv in *; congruence). done.
    + exists s2. split; [|done]. by econstructor.
Qed.

End RoundTripFacts.

(** C8.  With a valid comparator and key-value pairs whose keys are
    pairwise different under it: inserting the pairs into a new tree and
    then, for the keys in any order, deleting the node [FindNode] returns
    for the key, can be done, and however it is done it ends with the root
    nil, size 0 and no entries; [Empty()] answers true and [Size()] 0. *)
Theorem C8_round_trip {K V} (cmp : K → K → Z) (kvs : list (K * V)) (ks : list K) :
  valid_cmp cmp → distinct cmp kvs.*1 → ks ≡ₚ kvs.*1 →
  (∃ s1 s2, insert_all kvs (New cmp) s1 ∧ delete_all ks s1 s2)
  ∧ (∀ s1 s2, insert_all kvs (New cmp) s1 → delete_all ks s1 s2 →
       root s2 = None ∧ size s2 = 0 ∧ entries s2 []
       ∧ Empty s2 = Ok (true, s2) ∧ Size s2 = Ok (0, s2)).
Proof.
  intros Hv Hd Hperm.
  destruct (insert_all_run kvs (New cmp) E (WF_New cmp)) as (s1 & t1 & Hins & HW1 & Hcmp & Hk).
  simpl in Hk, Hcmp. rewrite app_nil_r in Hk.
  destruct (delete_all_run ks s1 t1) as (s2 & Hdel & HW2); try done.
  - by rewrite Hcmp.
  - rewrite Hcmp. eapply distinct_perm; [done| |exact Hd]. done.
  - rewrite <-(length_fmap ekey), Hk, <-Hperm. done.
  - intros k Hin. rewrite Hperm, <-Hk in Hin.
    apply list_elem_of_fmap in Hin as (e & -> & He). exists e. split; [done|].
    rewrite Hcmp. by apply valid_cmp_refl.
  - split; [by exists s1, s2|]. intros s1' s2' Hins' Hdel'.
    rewrite <-(insert_all_det _ _ _ _ Hins Hins') in Hdel'.
    rewrite <-(delete_all_det _ _ _ _ Hdel Hdel').
    pose proof HW2 as (HI & _ & Hsz & _). simpl in Hsz.
    assert (size s2 = 0) as Hsize by (rewrite Hsz; done).
    split_and!; [by rewrite (Inv_root _ _ _ _ HI)|done|by apply (WF_entries _ E)| |].
    + unfold Empty, bind, get_size, ret. by rewrite Hsize.
    + unfold Size, get_size. by rewrite Hsize.
Qed.

Lemma C8_witness :
  (∃ s1 s2, insert_all [(1, 10); (3, 30); (5, 50); (7, 70)] (New int_cmp) s1
            ∧ delete_all [5; 1; 7; 3] s1 s2)
  ∧ (∀ s1 s2, insert_all [(1, 10); (3, 30); (5, 50); (7, 70)] (New int_cmp) s1 →
       delete_all [5; 1; 7; 3] s1 s2 →
       root s2 = None ∧ size s2 = 0 ∧ entries s2 []
       ∧ Empty s2 = Ok (true, s2) ∧ Size s2 = Ok (0, s2)).
Proof.
  apply (C8_round_trip int_cmp [(1, 10); (3, 30); (5, 50); (7, 70)] [5; 1; 7; 3]).
  - exact int_cmp_valid.
  - simpl. repeat split; intros k' Hk';
      repeat (apply elem_of_cons in Hk' as [->|Hk']; [vm_compute; discriminate|]);
      by apply elem_of_nil in Hk'.
  - simpl. apply (Permutation_trans (l' := [1; 5; 7; 3])); [apply perm_swap|].
    apply perm_skip. apply (Permutation_trans (l' := [5; 3; 7])); [apply perm_skip, perm_swap|].
    apply perm_swap.
Defined.

Lemma repeat_Next_mono {K V} n fuel it :
  mle (repeat_op (K:=K) (V:=V) Next n fuel it) (repeat_op Next n (S fuel) it).
Proof.
  revert it. induction n as [|n IH]; intros it; simpl; [apply mle_refl|].
  apply mle_bind; [apply Next_mono|done].
Qed.

Lemma repeat_Prev_mono {K V} n fuel it :
  mle (repeat_op (K:=K) (V:=V) Prev n fuel it) (repeat_op Prev n (S fuel) it).
Proof.
  revert it. induction n as [|n IH]; intros it; simpl; [apply mle_refl|].
  apply mle_bind; [apply Prev_mono|done].
Qed.

Lemma forth_and_back_mono {K V} n fuel :
  mle (forth_and_back (K:=K) (V:=V) n fuel) (forth_and_back n (S fuel)).
Proof.
  unfold forth_and_back. apply mle_bind; [apply IterFirst_mono|intros it1].
  apply mle_bind; [apply repeat_Next_mono|intros it2].
  apply mle_bind; [apply repeat_Prev_mono|intros it3]. apply mle_refl.
Qed.

Section Cursor.
Context {K V : Type}.
Implicit Types (t : @tree K V) (s : RbTree K V) (es : list (addr * K * V)).

Lemma repeat_Next_spec sz cmp s t fuel :
  Inv sz cmp s [] t → (length (addrs t) < fuel)%nat →
  ∀ j i e Q, inorder t !! i = Some e → (i + j < length (inorder t))%nat →
    Q (mkIter (eaddr <$> inorder t !! (i + j)%nat)) s →
    wp (repeat_op Next j fuel (mkIter (Some (eaddr e)))) Q s.
Proof.
  intros HI Hfuel. induction j as [|j IH]; intros i e Q He Hlt HQ; simpl.
  - apply wp_ret. by rewrite Nat.add_0_r, He in HQ.
  - apply wp_bind. unfold Next, IsValid, Node_Next. cbn [node nonnil]. apply wp_bind.
    destruct e as [[a k] v].
    eapply (successor_whole _ _ _ s t (take i (inorder t)) a k v (drop (S i) (inorder t)));
      [done|exact HI|by rewrite take_drop_middle|].
    apply wp_ret. unfold first_addr. rewrite head_lookup, lookup_drop, Nat.add_0_r.
    destruct (inorder t !! S i) as [e'|] eqn:He'.
    2:{ apply lookup_ge_None in He'. lia. }
    simpl. eapply (IH (S i)); [done|lia|]. by rewrite Nat.add_succ_comm.
Qed.

Lemma repeat_Prev_spec sz cmp s t fuel :
  Inv sz cmp s [] t → (length (addrs t) < fuel)%nat →
  ∀ j i e Q, inorder t !! (i + j)%nat = Some e →
    Q (mkIter (eaddr <$> inorder t !! i)) s →
    wp (repeat_op Prev j fuel (mkIter (Some (eaddr e)))) Q s.
Proof.
  intros HI Hfuel. induction j as [|j IH]; intros i e Q He HQ; simpl.
  - apply wp_ret. by rewrite Nat.add_0_r in He; rewrite He in HQ.
  - apply wp_bind. unfold Prev, IsValid, Node_Prev. cbn [node nonnil]. apply wp_bind.
    destruct e as [[a k] v].
    eapply (presuccessor_whole _ _ _ s t (take (i + S j) (inorder t)) a k v
              (drop (S (i + S j)) (inorder t)));
      [done|exact HI|by rewrite take_drop_middle|].
    apply wp_ret. unfold last_addr. pose proof (lookup_lt_Some _ _ _ He) as Hlt.
    rewrite last_lookup, length_take_le by lia.
    rewrite lookup_take_lt by lia.
    replace (Init.Nat.pred (i + S j)) with (i + j)%nat by lia.
    destruct (inorder t !! (i + j)%nat) as [e'|] eqn:He'.
    2:{ apply lookup_ge_None in He'. lia. }
    simpl. by eapply (IH i).
Qed.

End Cursor.

(** C9.  On a tree reached through the public methods with [N ≥ 1] live
    entries [es] in symmetric order: [IterFirst] returns the cursor at the
    first entry; [N-1] calls of [Next] bring it to the last entry; [N-1] calls
    of [Prev] from there bring it back to the first entry.  The whole
    sequence ends with the cursor [IterFirst] gave, which compares [Equal] to
    it, and [Key] on it reads the first key, under a valid comparator a
    smallest one. *)
Theorem C9_next_then_prev {K V} (s : RbTree K V) es e0 :
  reachable s → entries s es → head es = Some e0 →
  ∃ e1, last es = Some e1
    ∧ returns IterFirst s (mkIter (Some (eaddr e0))) s
    ∧ returns (λ fuel, repeat_op Next (length es - 1) fuel (mkIter (Some (eaddr e0)))) s
        (mkIter (Some (eaddr e1))) s
    ∧ returns (λ fuel, repeat_op Prev (length es - 1) fuel (mkIter (Some (eaddr e1)))) s
        (mkIter (Some (eaddr e0))) s
    ∧ returns (forth_and_back (length es - 1)) s (mkIter (Some (eaddr e0)), ekey e0) s
    ∧ Equal (mkIter (Some (eaddr e0))) (TreeIter (mkIter (Some (eaddr e0)))) = Ok true
    ∧ (valid_cmp (keyCmp s) → ∀ e, e ∈ es → keyCmp s (ekey e0) (ekey e) ≤ 0).
Proof.
  intros Hr Hes Hhead. destruct (entries_WF _ _ Hr Hes) as (t & HW & <-).
  pose proof HW as (HI & _ & _ & Hs).
  set (es := inorder t) in *. set (N := length es).
  assert (0 < N)%nat as HN by (unfold N; destruct es; [done|simpl; lia]).
  assert (es !! 0%nat = Some e0) as H0 by (by rewrite <-head_lookup).
  destruct (es !! (N - 1)%nat) as [e1|] eqn:H1.
  2:{ apply lookup_ge_None in H1. unfold N in *. lia. }
  assert (last es = Some e1) as Hlast.
  { rewrite last_lookup. fold N. by replace (Init.Nat.pred N) with (N - 1)%nat by lia. }
  set (fuel := S (length (addrs t))).
  assert (wp (IterFirst fuel) (λ it s', it = mkIter (Some (eaddr e0)) ∧ s' = s) s) as Hfirst.
  { unfold IterFirst. apply wp_bind. eapply First_whole; [|exact HI|]; [unfold fuel; lia|].
    apply wp_ret. unfold first_addr. fold es. by rewrite Hhead. }
  assert (wp (repeat_op Next (N - 1) fuel (mkIter (Some (eaddr e0))))
            (λ it s', it = mkIter (Some (eaddr e1)) ∧ s' = s) s) as Hnext.
  { eapply (repeat_Next_spec _ _ s t fuel HI ltac:(unfold fuel; lia) (N - 1) 0);
      [exact H0|fold es N; lia|]. simpl. fold es. by rewrite H1. }
  assert (wp (repeat_op Prev (N - 1) fuel (mkIter (Some (eaddr e1))))
            (λ it s', it = mkIter (Some (eaddr e0)) ∧ s' = s) s) as Hprev.
  { eapply (repeat_Prev_spec _ _ s t fuel HI ltac:(unfold fuel; lia) (N - 1) 0);
      [exact H1|]. fold es. by rewrite H0. }
  destruct e0 as [[a0 k0] v0] eqn:He0.
  destruct (Inv_entry _ _ _ _ a0 k0 v0 HI) as (n0 & Hn0 & Hk0 & _).
  { fold es. eapply list_elem_of_lookup_2. exact H0. }
  exists e1. split_and!; try done.
  - destruct (wp_returns IterFirst fuel _ s (λ n, IterFirst_mono n) Hfirst)
      as (r & s' & Hret & -> & ->). done.
  - destruct (wp_returns (λ fuel, repeat_op Next (N - 1) fuel (mkIter (Some (eaddr (a0, k0, v0)))))
                fuel _ s (λ n, repeat_Next_mono (N - 1) n _) Hnext)
      as (r & s' & Hret & -> & ->). done.
  - destruct (wp_returns (λ fuel, repeat_op Prev (N - 1) fuel (mkIter (Some (eaddr e1))))
                fuel _ s (λ n, repeat_Prev_mono (N - 1) n _) Hprev)
      as (r & s' & Hret & -> & ->). done.
  - destruct (wp_returns (forth_and_back (N - 1)) fuel
                (λ r s', r = (mkIter (Some a0), k0) ∧ s' = s) s
                (λ n, forth_and_back_mono (N - 1) n))
      as (r & s' & Hret & -> & ->); [|done].
    unfold forth_and_back. apply wp_bind.
    eapply wp_mono; [exact Hfirst|]. intros it s' [-> ->]. apply wp_bind.
    eapply wp_mono; [exact Hnext|]. intros it s' [-> ->]. apply wp_bind.
    eapply wp_mono; [exact Hprev|]. intros it s' [-> ->]. apply wp_bind.
    unfold Key, Node_Key. cbn [node eaddr fst]. eapply wp_get_key; [exact Hn0|].
    apply wp_ret. by rewrite Hk0.
  - simpl. by rewrite ptr_eqb_refl.
  - intros Hv e He. specialize (Hs Hv). fold es in Hs.
    destruct es as [|e' es']; [done|]. injection Hhead as ->.
    apply elem_of_cons in He as [->|He].
    + rewrite valid_cmp_refl by done. lia.
    + apply key_sorted_cons in Hs as [_ Hs]. by apply Hs.
Qed.

Lemma C9_witness :
  ∃ e1, last entries1357 = Some e1
    ∧ returns IterFirst tree1357 (mkIter (Some (eaddr (1%positive, 1, 10)))) tree1357
    ∧ returns (λ fuel, repeat_op Next (length entries1357 - 1) fuel
                         (mkIter (Some (eaddr (1%positive, 1, 10))))) tree1357
        (mkIter (Some (eaddr e1))) tree1357
    ∧ returns (λ fuel, repeat_op Prev (length entries1357 - 1) fuel
                         (mkIter (Some (eaddr e1)))) tree1357
        (mkIter (Some (eaddr (1%positive, 1, 10)))) tree1357
    ∧ returns (forth_and_back (length entries1357 - 1)) tree1357
        (mkIter (Some (eaddr (1%positive, 1, 10))), ekey (1%positive, 1, 10)) tree1357
    ∧ Equal (mkIter (Some (eaddr (1%positive, 1, 10))))
        (TreeIter (mkIter (Some (eaddr (1%positive, 1, 10))))) = Ok true
    ∧ (valid_cmp (keyCmp tree1357) →
       ∀ e, e ∈ entries1357 → keyCmp tree1357 (ekey (1%positive, 1, 10)) (ekey e) ≤ 0).
Proof.
  apply (C9_next_then_prev tree1357 entries1357 (1%positive, 1, 10));
    [exact tree1357_reachable|exact tree1357_entries|reflexivity].
Defined.

(** [Equal] reads [otherIter.node]: on a nil [*RbTreeIterator], which is no
    cursor at all, it panics whatever the receiver. *)
Lemma Equal_nil_pointer (it : RbTreeIterator) : Equal it NilTreeIter = Panic.
Proof. done. Qed.

(** C10.  On the invalid cursor, the one that holds the nil node (what
    [IterFirst] gives on an empty tree, and what [Next] gives from the last
    entry), [IsValid] is false and [Key], [Value] and [SetValue] panic, in
    every state; [Next] and [Prev] return the cursor as it is, [Clone] gives an
    invalid cursor, [Equal] answers for every cursor, true exactly for the
    invalid ones, and false for an iterator of another type.  On a cursor
    that holds a node, [Key] and [Value] read the node and [SetValue] writes
    its value and returns the error nil. *)
Theorem C10_invalid_cursor {K V} (s : RbTree K V) (val : V) :
  IsValid (mkIter None) = false
  ∧ Key (mkIter None) s = Panic
  ∧ Value (mkIter None) s = Panic
  ∧ SetValue (mkIter None) val s = Panic
  ∧ (∀ fuel, Next fuel (mkIter None) s = Ok (mkIter None, s))
  ∧ (∀ fuel, Prev fuel (mkIter None) s = Ok (mkIter None, s))
  ∧ Clone (mkIter None) = mkIter None
  ∧ (∀ o, Equal (mkIter None) (TreeIter o) = Ok (negb (IsValid o)))
  ∧ Equal (mkIter None) ForeignIter = Ok false
  ∧ (∀ cmp fuel, IterFirst (S fuel) (New cmp) = Ok (mkIter None, New (K:=K) (V:=V) cmp))
  ∧ (∀ es e1, reachable s → entries s es → last es = Some e1 →
       returns (λ fuel, Next fuel (mkIter (Some (eaddr e1)))) s (mkIter None) s)
  ∧ (∀ a n, heap s !! a = Some n →
       IsValid (mkIter (Some a)) = true
       ∧ Key (mkIter (Some a)) s = Ok (key n, s)
       ∧ Value (mkIter (Some a)) s = Ok (value n, s)
       ∧ SetValue (mkIter (Some a)) val s =
           Ok (None, mkRbTree
                 (<[a := mkNode (parent n) (left n) (right n) (color n) (key n) val]> (heap s))
                 (root s) (size s) (keyCmp s))).
Proof.
  split_and!; try done.
  - by intros [[a|]].
  - intros es e1 Hr Hes Hlast. destruct (entries_WF _ _ Hr Hes) as (t & (HI & _) & <-).
    destruct (wp_returns (λ fuel, Next fuel (mkIter (Some (eaddr e1)))) (S (length (addrs t)))
                (λ it s', it = mkIter None ∧ s' = s) s)
      as (r & s' & Hret & -> & ->); [intros n; apply Next_mono| |done].
    unfold Next, IsValid, Node_Next. cbn [node nonnil]. apply wp_bind.
    destruct e1 as [[a k] v].
    destruct (inorder t) as [|e es] eqn:Hin using rev_ind; [done|]. clear IHes.
    rewrite last_snoc in Hlast. injection Hlast as ->.
    eapply (successor_whole _ _ _ s t es a k v []); [|exact HI|exact Hin|]; [lia|].
    by apply wp_ret.
  - intros a n Hn. unfold Key, Value, SetValue, Node_Key, Node_Value, Node_SetValue,
      get_key, get_value, set_value, store, load, bind, ret. simpl. by rewrite Hn.
Qed.

Lemma C10_witness :
  IsValid (mkIter (Some 2%positive)) = true
  ∧ Key (mkIter (Some 2%positive)) tree1357 = Ok (3, tree1357)
  ∧ Value (mkIter (Some 2%positive)) tree1357 = Ok (30, tree1357)
  ∧ returns (λ fuel, Next fuel (mkIter (Some 4%positive))) tree1357 (mkIter None) tree1357.
Proof.
  pose proof (C10_invalid_cursor tree1357 31)
    as (_ & _ & _ & _ & _ & _ & _ & _ & _ & _ & Hend & Hvalid).
  destruct (Hvalid 2%positive (mkNode None (Some 1%positive) (Some 3%positive) BLACK 3 30))
    as (H1 & H2 & H3 & _); [vm_compute; reflexivity|].
  split_and!; [exact H1|exact H2|exact H3|].
  apply (Hend entries1357 (4%positive, 7, 70));
    [exact tree1357_reachable|exact tree1357_entries|reflexivity].
Defined.

(** * Further properties of the tree *)

(** ** Delete, for every live node *)

(** X1.  [Delete(a)] of any live node [a] returns, and removes exactly the
    entry of [a] from the symmetric order: the keys and values that remain
    are the old ones in the old order, size goes down by one ([int]
    arithmetic) and the comparator stays.  When [a] has at most one child
    every other node keeps its entry, so all other handles stay good.  When
    [a] has two children the node that disappears is the next one in order,
    and [a] carries its key and value from then on. *)
Theorem X1_delete_removes_entry {K V} (s : RbTree K V) es1 a k v es2 :
  reachable s → entries s (es1 ++ (a, k, v) :: es2) →
  ∃ s' es' n,
    returns (λ fuel, Delete fuel (Some a)) s tt s'
    ∧ entries s' es'
    ∧ ekv <$> es' = ekv <$> (es1 ++ es2)
    ∧ size s' = int_wrap (size s - 1) ∧ keyCmp s' = keyCmp s
    ∧ heap s !! a = Some n
    ∧ (left n = None ∨ right n = None → es' = es1 ++ es2)
    ∧ (left n ≠ None → right n ≠ None →
       ∃ y ky vy rest, es2 = (y, ky, vy) :: rest ∧ es' = es1 ++ (a, ky, vy) :: rest).
Proof.
  intros Hr Hes. destruct (entries_WF _ _ Hr Hes) as (t & HW & Hin).
  pose proof HW as (HI & _).
  destruct (Inv_at _ _ _ _ _ _ _ _ _ HI Hin) as (ctx & c & l & r & HIa & -> & -> & ->).
  destruct (Delete_step s ctx a c l k v r HW) as (s' & t' & Hret & HW' & Hcmp & Hsz & Hin').
  exists s', (inorder t'), (mkNode (cpar ctx) (ptr_of l) (ptr_of r) c k v).
  split_and!; try done.
  - by apply WF_entries.
  - rewrite Hin', !fmap_app, del_entries_ekv, !fmap_app. by rewrite <-!app_assoc.
  - by apply (Inv_lookup _ _ _ _ _ _ _ _ _ _ HIa).
  - simpl. rewrite Hin'. unfold del_entries.
    intros [Hl|Hrr]; [destruct l; [|done]|destruct r; [|done]].
    + by rewrite <-!app_assoc.
    + destruct l; by rewrite <-!app_assoc.
  - simpl. intros Hl Hrr. rewrite Hin'. unfold del_entries.
    destruct l as [|la lc ll lk lv lr]; [done|]. destruct r as [|ra rc rl rk rv rr]; [done|].
    destruct (inorder (T ra rc rl rk rv rr)) as [|[[y ky] vy] rest] eqn:Hinr.
    { exfalso. simpl in Hinr. by destruct (inorder rl). }
    exists y, ky, vy, (rest ++ cafter ctx). split; [done|]. by rewrite <-!app_assoc.
Qed.

Lemma X1_witness :
  ∃ s' es' n,
    returns (λ fuel, Delete fuel (Some 3%positive)) tree1357 tt s'
    ∧ entries s' es'
    ∧ ekv <$> es' = ekv <$> ([(1%positive, 1, 10); (2%positive, 3, 30)] ++ [(4%positive, 7, 70)])
    ∧ size s' = int_wrap (size tree1357 - 1) ∧ keyCmp s' = keyCmp tree1357
    ∧ heap tree1357 !! 3%positive = Some n
    ∧ (left n = None ∨ right n = None →
       es' = [(1%positive, 1, 10); (2%positive, 3, 30)] ++ [(4%positive, 7, 70)])
    ∧ (left n ≠ None → right n ≠ None →
       ∃ y ky vy rest, [(4%positive, 7, 70)] = (y, ky, vy) :: rest
         ∧ es' = [(1%positive, 1, 10); (2%positive, 3, 30)] ++ (3%positive, ky, vy) :: rest).
Proof.
  apply (X1_delete_removes_entry tree1357 [(1%positive, 1, 10); (2%positive, 3, 30)]
           3%positive 5 50 [(4%positive, 7, 70)]);
    [exact tree1357_reachable|exact tree1357_entries].
Defined.

(** ** Writing a value *)

(** X2.  [SetValue(val)] through a cursor on a live node [a] returns the
    error nil and changes the value of [a] and nothing else: the entries
    afterwards are the old ones with [val] at [a], root, size and comparator
    are as before, and [Value] then reads [val], [Key] the old key. *)
Theorem X2_set_value_changes_one_value {K V} (s : RbTree K V) es1 a k v es2 (val : V) :
  reachable s → entries s (es1 ++ (a, k, v) :: es2) →
  ∃ s', SetValue (mkIter (Some a)) val s = Ok (None, s')
    ∧ reachable s'
    ∧ entries s' (es1 ++ (a, k, val) :: es2)
    ∧ root s' = root s ∧ size s' = size s ∧ keyCmp s' = keyCmp s
    ∧ Value (mkIter (Some a)) s' = Ok (val, s')
    ∧ Key (mkIter (Some a)) s' = Ok (k, s').
Proof.
  intros Hr Hes. destruct (entries_WF _ _ Hr Hes) as (t & HW & Hin).
  pose proof HW as (HI & _).
  destruct (Inv_at _ _ _ _ _ _ _ _ _ HI Hin) as (ctx & c & l & r & HIa & -> & -> & ->).
  pose proof (Inv_lookup _ _ _ _ _ _ _ _ _ _ HIa) as Ha.
  pose proof (Inv_store_data _ _ _ _ _ _ _ _ _ _ c k val HIa) as HI'.
  set (s' := mkRbTree (<[a := mkNode (cpar ctx) (ptr_of l) (ptr_of r) c k val]> (heap s))
               (root s) (size s) (keyCmp s)) in *.
  assert (Node_SetValue (Some a) val s = Ok (tt, s')) as Hrun.
  { unfold Node_SetValue, set_value, store. by rewrite Ha. }
  exists s'. split_and!; try done.
  - unfold SetValue, bind. cbn [node]. by rewrite Hrun.
  - eapply reach_SetValue; [exact Hr| |exact Hrun].
    apply (entries_live _ _ a Hes). rewrite fmap_app, fmap_cons. set_solver.
  - exists (plug ctx (T a c l k val r)). split.
    + apply Inv_whole in HI'. exact HI'.
    + rewrite inorder_plug. simpl. by rewrite <-!app_assoc.
  - unfold Value, Node_Value, get_value, bind, load. simpl. by rewrite lookup_insert_eq.
  - unfold Key, Node_Key, get_key, bind, load. simpl. by rewrite lookup_insert_eq.
Qed.

Lemma X2_witness :
  ∃ s', SetValue (mkIter (Some 3%positive)) 55 tree1357 = Ok (None, s')
    ∧ reachable s'
    ∧ entries s' ([(1%positive, 1, 10); (2%positive, 3, 30)]
                    ++ (3%positive, 5, 55) :: [(4%positive, 7, 70)])
    ∧ root s' = root tree1357 ∧ size s' = size tree1357 ∧ keyCmp s' = keyCmp tree1357
    ∧ Value (mkIter (Some 3%positive)) s' = Ok (55, s')
    ∧ Key (mkIter (Some 3%positive)) s' = Ok (5, s').
Proof.
  apply (X2_set_value_changes_one_value tree1357 [(1%positive, 1, 10); (2%positive, 3, 30)]
           3%positive 5 50 [(4%positive, 7, 70)] 55);
    [exact tree1357_reachable|exact tree1357_entries].
Defined.

(** ** The size counter *)

(** X3.  On a tree reached through the public methods that holds fewer than
    2^63 entries, [Size()] is the number of live entries and [Empty()] is
    true exactly when there is none. *)
Theorem X3_size_counts_live_entries {K V} (s : RbTree K V) es :
  reachable s → entries s es → Z.of_nat (length es) ≤ int_max →
  Size s = Ok (Z.of_nat (length es), s)
  ∧ Empty s = Ok (match es with [] => true | _ :: _ => false end, s).
Proof.
  intros Hr Hes Hle. pose proof (entries_size _ _ Hr Hes) as Hsz.
  rewrite int_wrap_small in Hsz by (unfold int_min, int_max in *; lia).
  unfold Size, Empty, bind, get_size, ret. rewrite Hsz. split; [done|].
  by destruct es.
Qed.

Lemma X3_witness :
  Size tree1357 = Ok (Z.of_nat (length entries1357), tree1357)
  ∧ Empty tree1357 = Ok (match entries1357 with [] => true | _ :: _ => false end, tree1357).
Proof.
  apply (X3_size_counts_live_entries tree1357 entries1357);
    [exact tree1357_reachable|exact tree1357_entries|vm_compute; discriminate].
Defined.

(** ** The two ends *)

(** X4.  [First()] and [Begin()] return the node of the first live entry in
    symmetric order, [Last()] and [RBegin()] the node of the last one, nil on
    the empty tree, and [IterFirst()], [IterLast()] the cursors on them.
    Under a valid comparator no key is below the key of the first entry and
    none is above the key of the last. *)
Theorem X4_first_and_last {K V} (s : RbTree K V) es :
  reachable s → entries s es →
  returns First s (first_addr es) s ∧ returns Begin s (first_addr es) s
  ∧ returns Last s (last_addr es) s ∧ returns RBegin s (last_addr es) s
  ∧ returns IterFirst s (mkIter (first_addr es)) s
  ∧ returns IterLast s (mkIter (last_addr es)) s
  ∧ (first_addr es = None ↔ es = []) ∧ (last_addr es = None ↔ es = [])
  ∧ (valid_cmp (keyCmp s) → ∀ e0 e1 e, head es = Some e0 → last es = Some e1 → e ∈ es →
       keyCmp s (ekey e0) (ekey e) ≤ 0 ∧ keyCmp s (ekey e) (ekey e1) ≤ 0).
Proof.
  intros Hr Hes. destruct (entries_WF _ _ Hr Hes) as (t & HW & <-).
  pose proof HW as (HI & _ & _ & Hs).
  assert (returns First s (first_addr (inorder t)) s) as HF.
  { destruct (wp_returns First (S (length (addrs t)))
                (λ r s', r = first_addr (inorder t) ∧ s' = s) s)
      as (r & s' & Hret & -> & ->); [intros n; apply First_mono| |done].
    eapply First_whole; [|exact HI|done]. lia. }
  assert (returns Last s (last_addr (inorder t)) s) as HL.
  { destruct (wp_returns Last (S (length (addrs t)))
                (λ r s', r = last_addr (inorder t) ∧ s' = s) s)
      as (r & s' & Hret & -> & ->); [intros n; apply Last_mono| |done].
    eapply Last_whole; [|exact HI|done]. lia. }
  split_and!; try done.
  - destruct HF as [n Hn]. exists n. intros fuel Hle. unfold IterFirst, bind. by rewrite Hn.
  - destruct HL as [n Hn]. exists n. intros fuel Hle. unfold IterLast, bind. by rewrite Hn.
  - unfold first_addr. destruct (inorder t); simpl; split; done.
  - unfold last_addr. destruct (inorder t) as [|e es] using rev_ind; [done|].
    rewrite last_snoc. simpl. split; [done|]. intros Hnil. by destruct es.
  - intros Hv e0 e1 e H0 H1 He. specialize (Hs Hv). split.
    + destruct (inorder t) as [|e' es']; [done|]. injection H0 as ->.
      apply elem_of_cons in He as [->|He]; [rewrite valid_cmp_refl by done; lia|].
      apply key_sorted_cons in Hs as [_ Hs]. by apply Hs.
    + destruct (inorder t) as [|e' es' _] using rev_ind; [done|].
      rewrite last_snoc in H1. injection H1 as ->.
      apply elem_of_app in He as [He|He%list_elem_of_singleton].
      * apply key_sorted_app in Hs as (_ & _ & Hs). apply Hs; [done|set_solver].
      * subst e. rewrite valid_cmp_refl by done. lia.
Qed.

Lemma X4_witness :
  returns First tree1357 (first_addr entries1357) tree1357
  ∧ returns Begin tree1357 (first_addr entries1357) tree1357
  ∧ returns Last tree1357 (last_addr entries1357) tree1357
  ∧ returns RBegin tree1357 (last_addr entries1357) tree1357
  ∧ returns IterFirst tree1357 (mkIter (first_addr entries1357)) tree1357
  ∧ returns IterLast tree1357 (mkIter (last_addr entries1357)) tree1357
  ∧ (first_addr entries1357 = None ↔ entries1357 = [])
  ∧ (last_addr entries1357 = None ↔ entries1357 = [])
  ∧ (valid_cmp (keyCmp tree1357) → ∀ e0 e1 e,
       head entries1357 = Some e0 → last entries1357 = Some e1 → e ∈ entries1357 →
       keyCmp tree1357 (ekey e0) (ekey e) ≤ 0 ∧ keyCmp tree1357 (ekey e) (ekey e1) ≤ 0).
Proof.
  apply (X4_first_and_last tree1357 entries1357);
    [exact tree1357_reachable|exact tree1357_entries].
Defined.

(** ** Moving a cursor *)

Section CursorMoves.
Context {K V : Type}.
Implicit Types (t : @tree K V) (s : RbTree K V) (es : list (addr * K * V)).

Lemma repeat_invalid (op : nat → RbTreeIterator → M K V RbTreeIterator) n fuel s :
  (∀ s, op fuel (mkIter None) s = Ok (mkIter None, s)) →
  repeat_op op n fuel (mkIter None) s = Ok (mkIter None, s).
Proof.
  intros Hop. induction n as [|n IH]; simpl; [done|]. unfold bind. by rewrite Hop.
Qed.

Lemma repeat_Next_any sz cmp s t fuel :
  Inv sz cmp s [] t → (length (addrs t) < fuel)%nat →
  ∀ j i, wp (repeat_op Next j fuel (mkIter (eaddr <$> inorder t !! i)))
           (λ it s', it = mkIter (eaddr <$> inorder t !! (i + j)%nat) ∧ s' = s) s.
Proof.
  intros HI Hfuel. induction j as [|j IH]; intros i; simpl.
  - apply wp_ret. by rewrite Nat.add_0_r.
  - destruct (inorder t !! i) as [[[a k] v]|] eqn:He; simpl.
    + apply wp_bind. unfold Next, IsValid, Node_Next. cbn [node nonnil]. apply wp_bind.
      eapply (successor_whole _ _ _ s t (take i (inorder t)) a k v (drop (S i) (inorder t)));
        [done|exact HI|by rewrite take_drop_middle|].
      apply wp_ret. unfold first_addr. rewrite head_lookup, lookup_drop, Nat.add_0_r.
      eapply wp_mono; [apply (IH (S i))|]. intros it s' [-> ->].
      by rewrite Nat.add_succ_comm.
    + apply wp_bind. unfold Next, IsValid. cbn [node nonnil]. apply wp_ret.
      assert (inorder t !! (i + S j)%nat = None) as ->.
      { apply lookup_ge_None in He. apply lookup_ge_None. lia. }
      exists (mkIter None), s. split; [|done]. apply repeat_invalid. done.
Qed.

Lemma repeat_Prev_any sz cmp s t fuel :
  Inv sz cmp s [] t → (length (addrs t) < fuel)%nat →
  ∀ j i e, inorder t !! i = Some e →
    wp (repeat_op Prev j fuel (mkIter (Some (eaddr e))))
       (λ it s', it = mkIter (if decide (j ≤ i)%nat then eaddr <$> inorder t !! (i - j)%nat
                              else None) ∧ s' = s) s.
Proof.
  intros HI Hfuel. induction j as [|j IH]; intros i e He; simpl.
  - apply wp_ret. by rewrite Nat.sub_0_r, He.
  - apply wp_bind. unfold Prev, IsValid, Node_Prev. cbn [node nonnil]. apply wp_bind.
    destruct e as [[a k] v].
    eapply (presuccessor_whole _ _ _ s t (take i (inorder t)) a k v (drop (S i) (inorder t)));
      [done|exact HI|by rewrite take_drop_middle|].
    apply wp_ret. unfold last_addr. pose proof (lookup_lt_Some _ _ _ He) as Hlt.
    rewrite last_lookup, length_take_le by lia.
    destruct i as [|i]; simpl.
    + exists (mkIter None), s. split; [|done]. apply repeat_invalid. done.
    + rewrite lookup_take_lt by lia.
      destruct (inorder t !! i) as [e'|] eqn:He'.
      2:{ apply lookup_ge_None in He'. lia. }
      simpl. eapply wp_mono; [apply (IH i e' He')|]. intros it s' [-> ->].
      split; [|done]. destruct (decide (j ≤ i)%nat), (decide (S j ≤ S i)%nat); try lia; done.
Qed.

End CursorMoves.

(** X5.  A cursor on the live entry number [i] (counted from 0 in symmetric
    order): [j] calls of [Next] leave it on entry [i + j], and invalid once
    that is past the last entry; [j] calls of [Prev] leave it on entry
    [i - j], and invalid once [j] exceeds [i].  The tree is not changed. *)
Theorem X5_cursor_steps {K V} (s : RbTree K V) es i e :
  reachable s → entries s es → es !! i = Some e →
  (∀ j, returns (λ fuel, repeat_op Next j fuel (mkIter (Some (eaddr e)))) s
          (mkIter (eaddr <$> es !! (i + j)%nat)) s)
  ∧ (∀ j, returns (λ fuel, repeat_op Prev j fuel (mkIter (Some (eaddr e)))) s
          (mkIter (if decide (j ≤ i)%nat then eaddr <$> es !! (i - j)%nat else None)) s).
Proof.
  intros Hr Hes He. destruct (entries_WF _ _ Hr Hes) as (t & (HI & _) & <-). split; intros j.
  - pose proof (repeat_Next_any _ _ s t (S (length (addrs t))) HI ltac:(lia) j i) as Hwp.
    rewrite He in Hwp.
    destruct (wp_returns (λ fuel, repeat_op Next j fuel (mkIter (Some (eaddr e))))
                (S (length (addrs t))) _ s (λ n, repeat_Next_mono j n _) Hwp)
      as (r & s' & Hret & -> & ->). done.
  - pose proof (repeat_Prev_any _ _ s t (S (length (addrs t))) HI ltac:(lia) j i e He) as Hwp.
    destruct (wp_returns (λ fuel, repeat_op Prev j fuel (mkIter (Some (eaddr e))))
                (S (length (addrs t))) _ s (λ n, repeat_Prev_mono j n _) Hwp)
      as (r & s' & Hret & -> & ->). done.
Qed.

Lemma X5_witness :
  (∀ j, returns (λ fuel, repeat_op Next j fuel (mkIter (Some (eaddr (2%positive, 3, 30)))))
          tree1357 (mkIter (eaddr <$> entries1357 !! (1 + j)%nat)) tree1357)
  ∧ (∀ j, returns (λ fuel, repeat_op Prev j fuel (mkIter (Some (eaddr (2%positive, 3, 30)))))
          tree1357
          (mkIter (if decide (j ≤ 1)%nat then eaddr <$> entries1357 !! (1 - j)%nat else None))
          tree1357).
Proof.
  apply (X5_cursor_steps tree1357 entries1357 1 (2%positive, 3, 30));
    [exact tree1357_reachable|exact tree1357_entries|reflexivity].
Defined.

Section LookupChangeFacts.
Context {K V : Type}.
Implicit Types (t : @tree K V) (s : RbTree K V) (es : list (addr * K * V)) (cmp : K → K → Z).

Lemma Find_returns_lookup s t zero k :
  WF s t → valid_cmp (keyCmp s) →
  returns (λ fuel, Find zero fuel k) s (find_result zero (lookup_entry (keyCmp s) k (inorder t))) s.
Proof.
  intros (HI & _ & _ & Hs) Hv.
  destruct (wp_returns (λ fuel, Find zero fuel k) (S (height t))
              (λ r s', r = match first_eq (keyCmp s) k t with
                           | Some e => (evalue e, None)
                           | None => (zero, Some ErrorNotFound)
                           end ∧ s' = s) s)
    as (r & s0 & Hfind & -> & ->); [intros n; apply Find_mono| |].
  { eapply Find_spec; [|exact HI|done]. lia. }
  unfold first_eq in Hfind. rewrite lb_find in Hfind by auto.
  unfold lookup_entry, find_result.
  destruct (find _ (inorder t)) as [e|]; [|done]. by destruct (keyCmp s (ekey e) k =? 0).
Qed.

Lemma find_ext_ekv (p : K → bool) es es' :
  ekv <$> es = ekv <$> es' →
  ekv <$> find (λ e, p (ekey e)) es = ekv <$> find (λ e, p (ekey e)) es'.
Proof.
  revert es'. induction es as [|e es IH]; intros [|e' es']; simpl; try done.
  intros [= Hk Hv Hrest]. assert (ekey e = ekey e') as Hke by done.
  rewrite Hke. destruct (p (ekey e')); [|by apply IH].
  simpl. unfold ekv. by rewrite Hk, Hv.
Qed.

Lemma lookup_entry_ext cmp k es es' :
  ekv <$> es = ekv <$> es' → lookup_entry cmp k es = lookup_entry cmp k es'.
Proof.
  intros Heq. unfold lookup_entry.
  pose proof (find_ext_ekv (λ x, cmp k x <=? 0) es es' Heq) as Hf.
  destruct (find _ es) as [e|], (find _ es') as [e'|]; simpl in Hf; try done.
  injection Hf as Hk Hv. unfold ekey, evalue. by rewrite Hk, Hv.
Qed.

(** An entry whose key does not compare equal to [k] does not matter to the
    lookup of [k]. *)
Lemma lookup_entry_skip cmp k es1 x es2 :
  valid_cmp cmp → key_sorted cmp (es1 ++ x :: es2) → cmp (ekey x) k ≠ 0 →
  lookup_entry cmp k (es1 ++ x :: es2) = lookup_entry cmp k (es1 ++ es2).
Proof.
  intros Hv Hs Hne. unfold lookup_entry.
  destruct (find (λ e, cmp k (ekey e) <=? 0) es1) as [e|] eqn:Hf.
  { by rewrite !(find_app_l _ _ _ _ Hf). }
  rewrite find_none_iff in Hf. rewrite !find_app_r by done. simpl.
  destruct (Z.leb_spec (cmp k (ekey x)) 0) as [Hle|Hgt]; [|done].
  destruct (Z.eqb_spec (cmp (ekey x) k) 0) as [|_]; [done|].
  assert (cmp k (ekey x) < 0) as Hlt.
  { assert (cmp k (ekey x) ≠ 0) by (intros ?%(valid_cmp_eq_sym cmp); done). lia. }
  destruct es2 as [|y es2]; [done|]. simpl.
  apply key_sorted_app in Hs as (_ & Hs & _). apply key_sorted_cons in Hs as [_ Hs].
  assert (cmp k (ekey y) < 0) as Hy.
  { apply (valid_cmp_lt_le cmp _ (ekey x)); [done..|]. apply Hs. set_solver. }
  destruct (Z.leb_spec (cmp k (ekey y)) 0); [|lia].
  destruct (Z.eqb_spec (cmp (ekey y) k) 0) as [H0|]; [|done].
  apply (valid_cmp_eq_sym cmp) in H0; [lia|done].
Qed.

(** Inserting an entry for [k] after all keys that are not above [k]. *)
Lemma lookup_entry_insert cmp k (z : addr) (v : V) es1 es2 :
  valid_cmp cmp →
  (∀ e, e ∈ es1 → cmp (ekey e) k ≤ 0) → (∀ e, e ∈ es2 → cmp k (ekey e) < 0) →
  lookup_entry cmp k (es1 ++ (z, k, v) :: es2)
  = match lookup_entry cmp k (es1 ++ es2) with Some v0 => Some v0 | None => Some v end.
Proof.
  intros Hv H1 H2. unfold lookup_entry.
  destruct (find (λ e, cmp k (ekey e) <=? 0) es1) as [e|] eqn:Hf.
  - rewrite !(find_app_l _ _ _ _ Hf). apply find_elem in Hf as [He Hp]. apply Z.leb_le in Hp.
    assert (cmp (ekey e) k = 0) as ->.
    { pose proof (H1 e He). apply (valid_cmp_ge cmp) in Hp; [lia|done]. }
    done.
  - rewrite find_none_iff in Hf. rewrite !find_app_r by done. simpl.
    change (ekey (z, k, v)) with k. rewrite (valid_cmp_refl cmp k Hv). simpl.
    change (ekey (z, k, v)) with k. rewrite (valid_cmp_refl cmp k Hv). simpl.
    change (evalue (z, k, v)) with v.
    destruct es2 as [|y es2]; [done|]. simpl.
    pose proof (H2 y ltac:(set_solver)) as Hy.
    destruct (Z.leb_spec (cmp k (ekey y)) 0); [|lia].
    destruct (Z.eqb_spec (cmp (ekey y) k) 0) as [H0|]; [|done].
    apply (valid_cmp_eq_sym cmp) in H0; [lia|done].
Qed.

Lemma lookup_entry_Some cmp k es v :
  lookup_entry cmp k es = Some v → ∃ e, e ∈ es ∧ cmp (ekey e) k = 0 ∧ evalue e = v.
Proof.
  unfold lookup_entry. destruct (find _ es) as [e|] eqn:Hf; [|done].
  destruct (Z.eqb_spec (cmp (ekey e) k) 0); [|done]. intros [= <-].
  apply find_elem in Hf as [He _]. eauto.
Qed.

End LookupChangeFacts.

(** X6.  Under a valid comparator, [Insert(k, v)] does not replace: if
    [Find(k)] succeeded before, it returns the same value afterwards; if it
    reported not-found before, it returns [v] afterwards.  [Find] of a key
    that does not compare equal to [k] returns after the insert what it
    returned before. *)
Theorem X6_insert_then_find {K V} (s : RbTree K V) (k : K) (v zero : V) :
  reachable s → valid_cmp (keyCmp s) →
  ∃ s' r,
    returns (λ fuel, Insert fuel k v) s tt s'
    ∧ returns (λ fuel, Find zero fuel k) s r s
    ∧ returns (λ fuel, Find zero fuel k) s'
        (match r.2 with None => r | Some _ => (v, None) end) s'
    ∧ (∀ k', keyCmp s k' k ≠ 0 →
         ∃ r', returns (λ fuel, Find zero fuel k') s r' s
               ∧ returns (λ fuel, Find zero fuel k') s' r' s').
Proof.
  intros Hr Hv. destruct (reachable_WF _ Hr) as [t HW].
  destruct (Insert_step s t k v HW)
    as (s' & t' & z & es1 & es2 & Hret & HW' & _ & Hcmp & _ & Hin & Hin' & Hb).
  destruct (Hb Hv) as [Hb1 Hb2].
  assert (valid_cmp (keyCmp s')) as Hv' by (by rewrite Hcmp).
  pose proof (λ k0, Find_returns_lookup s t zero k0 HW Hv) as HF.
  pose proof (λ k0, Find_returns_lookup s' t' zero k0 HW' Hv') as HF'.
  rewrite Hcmp, Hin' in HF'. rewrite Hin in HF.
  exists s', (find_result zero (lookup_entry (keyCmp s) k (es1 ++ es2))).
  split_and!; [done|apply HF| |].
  - specialize (HF' k). rewrite lookup_entry_insert in HF' by done.
    by destruct (lookup_entry (keyCmp s) k (es1 ++ es2)).
  - intros k' Hne. eexists. split; [apply HF|].
    specialize (HF' k'). rewrite lookup_entry_skip in HF'; [done|done| |].
    + destruct HW' as (_ & _ & _ & Hs'). rewrite <-Hin', <-Hcmp. by apply Hs'.
    + change (ekey (z, k, v)) with k. intros H0. apply Hne. by apply valid_cmp_eq_sym.
Qed.

Lemma X6_witness :
  ∃ s' r,
    returns (λ fuel, Insert fuel 5 51) tree1357 tt s'
    ∧ returns (λ fuel, Find 0 fuel 5) tree1357 r tree1357
    ∧ returns (λ fuel, Find 0 fuel 5) s'
        (match r.2 with None => r | Some _ => (51, None) end) s'
    ∧ (∀ k', keyCmp tree1357 k' 5 ≠ 0 →
         ∃ r', returns (λ fuel, Find 0 fuel k') tree1357 r' tree1357
               ∧ returns (λ fuel, Find 0 fuel k') s' r' s').
Proof.
  apply (X6_insert_then_find tree1357 5 51 0); [exact tree1357_reachable|exact tree1357_valid].
Defined.

(** X7.  Under a valid comparator, deleting the node [FindNode(k)] returns
    leaves [Find] of every key that does not compare equal to [k] as it was;
    and when no other live entry has a key comparing equal to [k], [Find(k)]
    afterwards reports not-found. *)
Theorem X7_delete_then_find {K V} (s : RbTree K V) (k : K) (zero : V) (a : addr) :
  reachable s → valid_cmp (keyCmp s) →
  returns (λ fuel, FindNode fuel k) s (Some a) s →
  ∃ s',
    returns (λ fuel, Delete fuel (Some a)) s tt s'
    ∧ (∀ k', keyCmp s k' k ≠ 0 →
         ∃ r', returns (λ fuel, Find zero fuel k') s r' s
               ∧ returns (λ fuel, Find zero fuel k') s' r' s')
    ∧ (∀ es, entries s es → (∀ e, e ∈ es → keyCmp s (ekey e) k = 0 → eaddr e = a) →
         returns (λ fuel, Find zero fuel k) s' (zero, Some ErrorNotFound) s').
Proof.
  intros Hr Hv Hfn. destruct (reachable_WF _ Hr) as [t HW]. pose proof HW as (HI & _ & _ & Hs).
  assert (∃ e0, first_eq (keyCmp s) k t = Some e0 ∧ eaddr e0 = a) as (e0 & Hf & Ha).
  { assert (Some a = eaddr <$> first_eq (keyCmp s) k t) as Heq.
    { apply (returns_wp (λ fuel, FindNode fuel k) (S (height t))
               (λ r s', r = eaddr <$> first_eq (keyCmp s) k t) s _ _ Hfn).
      intros fuel Hle. eapply FindNode_spec; [|exact HI|done]. lia. }
    destruct (first_eq (keyCmp s) k t) as [e0|]; [|done].
    exists e0. split; [done|]. by injection Heq. }
  apply first_eq_Some in Hf as [He0 H0].
  apply list_elem_of_split in He0 as (es1 & es2 & Hin). destruct e0 as [[a0 k0] v0].
  change (eaddr (a0, k0, v0)) with a0 in Ha. subst a0. change (ekey (a, k0, v0)) with k0 in H0.
  destruct (Inv_at _ _ _ _ _ _ _ _ _ HI Hin) as (ctx & c & l & r & _ & -> & -> & ->).
  destruct (Delete_step s ctx a c l k0 v0 r HW) as (s' & t' & Hret & HW' & Hcmp & _ & Hin').
  assert (ekv <$> inorder t' = ekv <$> ((cbefore ctx ++ inorder l) ++ inorder r ++ cafter ctx)) as Hkv.
  { rewrite Hin', !fmap_app, del_entries_ekv, !fmap_app. by rewrite <-!app_assoc. }
  assert (valid_cmp (keyCmp s')) as Hv' by (by rewrite Hcmp).
  pose proof (λ k1, Find_returns_lookup s _ zero k1 HW Hv) as HF.
  pose proof (λ k1, Find_returns_lookup s' t' zero k1 HW' Hv') as HF'.
  rewrite Hcmp in HF'. rewrite Hin in HF.
  exists s'. split_and!; [done| |].
  - intros k' Hne. eexists. split; [apply HF|].
    specialize (HF' k'). rewrite (lookup_entry_ext _ _ _ _ Hkv) in HF'.
    rewrite lookup_entry_skip; [done|done| |].
    + rewrite <-Hin. by apply Hs.
    + change (ekey (a, k0, v0)) with k0. intros H1. apply Hne.
      eapply valid_cmp_eq_trans; [done| |exact H0]. by apply valid_cmp_eq_sym.
  - intros es Hes Hall.
    assert (es = inorder (plug ctx (T a c l k0 v0 r))) as ->
      by (eapply entries_unique; [exact Hes|by apply WF_entries]).
    specialize (HF' k). rewrite (lookup_entry_ext _ _ _ _ Hkv) in HF'.
    destruct (lookup_entry _ k _) as [v1|] eqn:Hl; [|done].
    exfalso. apply lookup_entry_Some in Hl as (e & He & He0 & _).
    pose proof (entries_NoDup _ _ Hes) as Hnd. rewrite Hin in Hnd, Hall.
    rewrite fmap_app, fmap_cons in Hnd.
    apply NoDup_app in Hnd as (_ & Hd1 & [Hd2 _]%NoDup_cons).
    assert (eaddr e = a) as Hea by (apply Hall; [set_solver|done]).
    apply elem_of_app in He as [He|He].
    + apply (Hd1 (eaddr e)); [by apply list_elem_of_fmap_2|]. rewrite Hea. simpl. set_solver.
    + apply Hd2. change (eaddr (a, k0, v0)) with a. rewrite <-Hea. by apply list_elem_of_fmap_2.
Qed.

Lemma X7_witness :
  ∃ s',
    returns (λ fuel, Delete fuel (Some 3%positive)) tree1357 tt s'
    ∧ (∀ k', keyCmp tree1357 k' 5 ≠ 0 →
         ∃ r', returns (λ fuel, Find 0 fuel k') tree1357 r' tree1357
               ∧ returns (λ fuel, Find 0 fuel k') s' r' s')
    ∧ (∀ es, entries tree1357 es →
         (∀ e, e ∈ es → keyCmp tree1357 (ekey e) 5 = 0 → eaddr e = 3%positive) →
         returns (λ fuel, Find 0 fuel 5) s' (0, Some ErrorNotFound) s').
Proof.
  apply (X7_delete_then_find tree1357 5 0 3%positive);
    [exact tree1357_reachable|exact tree1357_valid|].
  apply (returns_intro (λ fuel, FindNode fuel 5) 8); [intros n; apply FindNode_mono|].
  vm_compute. reflexivity.
Defined.

(** ** The range of equal keys *)

Lemma find_head {A} (p : A → bool) (l1 l2 : list A) :
  (∀ x, x ∈ l1 → p x = false) → (∀ x, x ∈ l2 → p x = true) →
  find p (l1 ++ l2) = head l2.
Proof.
  intros H1 H2. rewrite find_app_r by done. destruct l2 as [|x l2]; [done|].
  simpl. by rewrite H2 by set_solver.
Qed.

(** A sorted list of entries is: the keys below [k], those comparing equal
    to [k], those above [k]. *)
Lemma key_sorted_split3 {K V} (cmp : K → K → Z) (k : K) (es : list (addr * K * V)) :
  valid_cmp cmp → key_sorted cmp es →
  ∃ es1 eqs es3, es = es1 ++ eqs ++ es3
    ∧ (∀ e, e ∈ es1 → cmp (ekey e) k < 0)
    ∧ (∀ e, e ∈ eqs → cmp (ekey e) k = 0)
    ∧ (∀ e, e ∈ es3 → 0 < cmp (ekey e) k).
Proof.
  intros Hv. induction es as [|e es IH]; intros Hs.
  { exists [], [], []. split_and!; [done|intros ? ?%elem_of_nil; done..]. }
  apply key_sorted_cons in Hs as [Hs Hle].
  destruct (IH Hs) as (es1 & eqs & es3 & -> & H1 & H2 & H3).
  destruct (Z.lt_trichotomy (cmp (ekey e) k) 0) as [Hlt|[Heq|Hgt]].
  - exists (e :: es1), eqs, es3. split_and!; [done| |done..].
    intros x [->|?]%elem_of_cons; auto.
  - assert (es1 = []) as ->.
    { destruct es1 as [|x es1]; [done|]. exfalso.
      pose proof (H1 x ltac:(set_solver)). pose proof (Hle x ltac:(set_solver)).
      assert (cmp k (ekey x) ≤ 0).
      { apply (proj2 Hv _ (ekey e)); [|done]. apply (valid_cmp_eq_sym cmp) in Heq; [lia|done]. }
      apply (valid_cmp_ge cmp) in H4; [lia|done]. }
    exists [], (e :: eqs), es3. split_and!; [done|intros ? ?%elem_of_nil; done| |done].
    intros x [->|?]%elem_of_cons; auto.
  - assert (∀ x, x ∈ es1 ++ eqs ++ es3 → 0 < cmp (ekey x) k) as Hall.
    { intros x Hx. pose proof (Hle x Hx) as Hex.
      assert (cmp k (ekey e) < 0) by (apply (proj1 Hv); lia).
      pose proof (valid_cmp_lt_le cmp _ _ _ Hv H Hex). apply (proj1 Hv) in H0. lia. }
    assert (es1 = []) as ->.
    { destruct es1 as [|x es1]; [done|]. exfalso.
      pose proof (H1 x ltac:(set_solver)). pose proof (Hall x ltac:(set_solver)). lia. }
    assert (eqs = []) as ->.
    { destruct eqs as [|x eqs]; [done|]. exfalso.
      pose proof (H2 x ltac:(set_solver)). pose proof (Hall x ltac:(set_solver)). lia. }
    exists [], [], (e :: es3). split_and!; [done|intros ? ?%elem_of_nil; done..|].
    intros x [->|?]%elem_of_cons; auto.
Qed.

(** X8.  Under a valid comparator the live entries are, in symmetric order,
    those with keys below [k], then those with keys comparing equal to [k],
    then those with keys above [k]; [FindLowerBoundNode(k)] returns the node
    of the first entry of the second and third part together and
    [FindUpperBoundNode(k)] the node of the first entry of the third part,
    nil if there is none.  So the entries from the lower bound up to, not
    including, the upper bound are exactly those whose key compares equal to
    [k]. *)
Theorem X8_bounds_bracket_equal_keys {K V} (s : RbTree K V) (k : K) :
  reachable s → valid_cmp (keyCmp s) →
  ∃ es1 eqs es3,
    entries s (es1 ++ eqs ++ es3)
    ∧ (∀ e, e ∈ es1 → keyCmp s (ekey e) k < 0)
    ∧ (∀ e, e ∈ eqs → keyCmp s (ekey e) k = 0)
    ∧ (∀ e, e ∈ es3 → 0 < keyCmp s (ekey e) k)
    ∧ returns (λ fuel, FindLowerBoundNode fuel k) s (first_addr (eqs ++ es3)) s
    ∧ returns (λ fuel, FindUpperBoundNode fuel k) s (first_addr es3) s.
Proof.
  intros Hr Hv. destruct (reachable_WF _ Hr) as [t HW]. pose proof HW as (_ & _ & _ & Hs).
  destruct (key_sorted_split3 (keyCmp s) k (inorder t) Hv (Hs Hv))
    as (es1 & eqs & es3 & Hin & H1 & H2 & H3).
  pose proof (FindLowerBoundNode_returns s t k HW Hv) as Hlb.
  pose proof (FindUpperBoundNode_returns s t k HW Hv) as Hub.
  rewrite Hin in Hlb, Hub.
  exists es1, eqs, es3. split_and!; try done.
  - rewrite <-Hin. by apply WF_entries.
  - rewrite find_head in Hlb; [done|..].
    + intros e He. apply Z.leb_gt. apply Z.gt_lt, (proj1 Hv). by apply H1.
    + intros e [He|He]%elem_of_app; apply Z.leb_le.
      * apply (valid_cmp_ge (keyCmp s)); [done|]. rewrite (H2 e He). lia.
      * apply (valid_cmp_ge (keyCmp s)); [done|]. pose proof (H3 e He). lia.
  - rewrite app_assoc, find_head in Hub; [done|..].
    + intros e [He|He]%elem_of_app; apply Z.ltb_ge.
      * apply (valid_cmp_ge (keyCmp s)); [done|]. pose proof (H1 e He). lia.
      * apply (valid_cmp_ge (keyCmp s)); [done|]. rewrite (H2 e He). lia.
    + intros e He. apply Z.ltb_lt. apply (proj1 Hv). pose proof (H3 e He). lia.
Qed.

Lemma X8_witness :
  ∃ es1 eqs es3,
    entries tree1357 (es1 ++ eqs ++ es3)
    ∧ (∀ e, e ∈ es1 → keyCmp tree1357 (ekey e) 5 < 0)
    ∧ (∀ e, e ∈ eqs → keyCmp tree1357 (ekey e) 5 = 0)
    ∧ (∀ e, e ∈ es3 → 0 < keyCmp tree1357 (ekey e) 5)
    ∧ returns (λ fuel, FindLowerBoundNode fuel 5) tree1357 (first_addr (eqs ++ es3)) tree1357
    ∧ returns (λ fuel, FindUpperBoundNode fuel 5) tree1357 (first_addr es3) tree1357.
Proof.
  apply (X8_bounds_bracket_equal_keys tree1357 5);
    [exact tree1357_reachable|exact tree1357_valid].
Defined.

Section StableSortFacts.
Context {K V : Type}.
Implicit Types (cmp : K → K → Z) (x y : K * V) (l acc : list (K * V)).

Lemma insert_sorted_split cmp x l1 l2 :
  valid_cmp cmp →
  (∀ y, y ∈ l1 → cmp y.1 x.1 ≤ 0) → (∀ y, y ∈ l2 → cmp x.1 y.1 < 0) →
  insert_sorted cmp x (l1 ++ l2) = l1 ++ x :: l2.
Proof.
  intros Hv. induction l1 as [|y l1 IH]; intros H1 H2; simpl.
  - destruct l2 as [|y l2]; [done|]. simpl.
    pose proof (H2 y ltac:(set_solver)) as Hy. apply Z.ltb_lt in Hy. by rewrite Hy.
  - pose proof (H1 y ltac:(set_solver)) as Hy. apply (valid_cmp_ge cmp) in Hy; [|done].
    apply Z.ltb_ge in Hy. rewrite Hy. f_equal. apply IH; [|done].
    intros ??. apply H1. set_solver.
Qed.

Lemma insert_sorted_perm cmp x l : insert_sorted cmp x l ≡ₚ x :: l.
Proof.
  induction l as [|y l IH]; simpl; [done|]. destruct (cmp x.1 y.1 <? 0); [done|].
  rewrite IH. apply perm_swap.
Qed.

Lemma insert_sorted_sorted cmp x l :
  valid_cmp cmp → kv_sorted cmp l → kv_sorted cmp (insert_sorted cmp x l).
Proof.
  intros Hv. unfold kv_sorted. induction l as [|y l IH]; simpl; intros Hs.
  { repeat constructor. }
  apply StronglySorted_inv in Hs as [Hs Hall]. rewrite Forall_forall in Hall.
  destruct (Z.ltb_spec (cmp x.1 y.1) 0) as [Hlt|Hge].
  - constructor; [by constructor; [|apply Forall_forall]|].
    apply Forall_forall. intros z [->|Hz]%elem_of_cons; [lia|].
    apply (proj2 Hv _ y.1); [lia|by apply Hall].
  - constructor; [by apply IH|]. apply Forall_forall. intros z Hz.
    rewrite insert_sorted_perm in Hz. apply elem_of_cons in Hz as [->|Hz]; [|by apply Hall].
    by apply (valid_cmp_ge cmp).
Qed.

Lemma filter_none (P : K * V → Prop) `{∀ y, Decision (P y)} l :
  (∀ y, y ∈ l → ¬ P y) → filter P l = [].
Proof.
  induction l as [|y l IH]; intros Hall; [done|].
  rewrite filter_cons_False by (apply Hall; set_solver). apply IH.
  intros ??. apply Hall. set_solver.
Qed.

Lemma insert_sorted_filter cmp (k : K) x l :
  valid_cmp cmp → kv_sorted cmp l →
  filter (λ y, cmp y.1 k = 0) (insert_sorted cmp x l)
  = filter (λ y, cmp y.1 k = 0) l ++ filter (λ y, cmp y.1 k = 0) [x].
Proof.
  intros Hv. unfold kv_sorted. induction l as [|y l IH]; simpl; intros Hs; [done|].
  apply StronglySorted_inv in Hs as [Hs Hall]. rewrite Forall_forall in Hall.
  destruct (Z.ltb_spec (cmp x.1 y.1) 0) as [Hlt|Hge].
  - rewrite (filter_cons _ x), (filter_cons _ x []), filter_nil.
    destruct (decide (cmp x.1 k = 0)) as [Hx|Hx]; [|by rewrite app_nil_r].
    assert (filter (λ y0, cmp y0.1 k = 0) (y :: l) = []) as ->; [|done].
    apply filter_none. intros z Hz Hzk.
    assert (cmp y.1 z.1 ≤ 0) as Hyz.
    { apply elem_of_cons in Hz as [->|Hz]; [rewrite valid_cmp_refl by done; lia|by apply Hall]. }
    pose proof (valid_cmp_lt_le cmp _ _ _ Hv Hlt Hyz) as Hxz.
    assert (cmp x.1 z.1 = 0); [|lia].
    eapply (valid_cmp_eq_trans cmp); [done|exact Hx|by apply valid_cmp_eq_sym].
  - rewrite !(filter_cons _ y). rewrite IH by done.
    by destruct (decide (cmp y.1 k = 0)).
Qed.

Lemma foldl_insert_sorted cmp l : ∀ acc,
  valid_cmp cmp → kv_sorted cmp acc →
  let r := foldl (λ acc x, insert_sorted cmp x acc) acc l in
  r ≡ₚ acc ++ l ∧ kv_sorted cmp r
  ∧ ∀ k, filter (λ y, cmp y.1 k = 0) r
         = filter (λ y, cmp y.1 k = 0) acc ++ filter (λ y, cmp y.1 k = 0) l.
Proof.
  induction l as [|x l IH]; intros acc Hv Hs; simpl.
  - split_and!; [by rewrite app_nil_r|done|]. intros k. by rewrite filter_nil, app_nil_r.
  - destruct (IH (insert_sorted cmp x acc) Hv (insert_sorted_sorted _ _ _ Hv Hs))
      as (Hp & Hs' & Hf).
    split_and!; [|done|].
    + rewrite Hp, insert_sorted_perm. by rewrite <-Permutation_middle.
    + intros k. rewrite Hf, insert_sorted_filter by done.
      by rewrite <-app_assoc, <-filter_app.
Qed.

Lemma insert_all_sorts kvs : ∀ (s : RbTree K V) t,
  WF s t → valid_cmp (keyCmp s) →
  ∃ s1 t1, insert_all kvs s s1 ∧ WF s1 t1 ∧ keyCmp s1 = keyCmp s
    ∧ ekv <$> inorder t1
      = foldl (λ acc x, insert_sorted (keyCmp s) x acc) (ekv <$> inorder t) kvs.
Proof.
  induction kvs as [|[k v] kvs IH]; intros s t HW Hv.
  - exists s, t. split_and!; [constructor|done..].
  - destruct (Insert_step s t k v HW)
      as (s' & t' & z & es1 & es2 & Hret & HW' & _ & Hcmp & _ & Hin & Hin' & Hb).
    destruct (Hb Hv) as [Hb1 Hb2].
    destruct (IH s' t' HW') as (s1 & t1 & Hall & HW1 & Hcmp1 & Hkv); [by rewrite Hcmp|].
    exists s1, t1. split_and!; [by econstructor|done|congruence|].
    rewrite Hkv, Hcmp. simpl. f_equal.
    rewrite Hin', Hin, !fmap_app, fmap_cons.
    change (ekv (z, k, v)) with (k, v). symmetry. apply insert_sorted_split; [done|..].
    + intros y (e & -> & He)%list_elem_of_fmap. by apply Hb1.
    + intros y (e & -> & He)%list_elem_of_fmap. by apply Hb2.
Qed.

End StableSortFacts.

(** X9.  Under a valid comparator, inserting the pairs of a list into a new
    tree, first to last, and then traversing with a visitor that always
    answers true, calls the visitor on the pairs sorted by key, pairs whose
    keys compare equal coming in the order they were inserted: the calls are
    the stable insertion sort of the list, a permutation of it in
    non-decreasing key order that keeps, for every key, the pairs comparing
    equal to it in their order. *)
Theorem X9_insert_then_traverse_sorts {K V} (cmp : K → K → Z) (kvs : list (K * V)) :
  valid_cmp cmp →
  ∃ s, insert_all kvs (New cmp) s
    ∧ returns (λ fuel, Traversal fuel (log_visitor (λ _ _, true)) []) s (stable_sort cmp kvs) s
    ∧ stable_sort cmp kvs ≡ₚ kvs
    ∧ kv_sorted cmp (stable_sort cmp kvs)
    ∧ ∀ k, filter (λ y, cmp y.1 k = 0) (stable_sort cmp kvs) = filter (λ y, cmp y.1 k = 0) kvs.
Proof.
  intros Hv.
  destruct (insert_all_sorts kvs (New cmp) E (WF_New cmp) Hv) as (s & t & Hins & HW & Hcmp & Hkv).
  simpl in Hkv. fold (stable_sort cmp kvs) in Hkv. pose proof HW as (HI & _).
  destruct (foldl_insert_sorted cmp kvs [] Hv) as (Hp & Hs & Hf); [constructor|].
  fold (stable_sort cmp kvs) in Hp, Hs, Hf.
  exists s. split_and!; try done.
  destruct (wp_returns
              (λ fuel, Traversal fuel (log_visitor (λ (_ : K) (_ : V), true)) [])
              (2 * length (addrs t) + 1) _ s
              (λ n, Traversal_mono n _ [])
              (Traversal_spec _ _ _ s t (2 * length (addrs t) + 1) [] HI ltac:(lia)))
    as (r & s' & Hret & -> & ->).
  rewrite visit_log, Hkv in Hret. simpl in Hret.
  rewrite calls_all in Hret; done.
Qed.

Lemma X9_witness :
  ∃ s, insert_all [(3, 1); (1, 2); (3, 3); (1, 4)] (New int_cmp) s
    ∧ returns (λ fuel, Traversal fuel (log_visitor (λ _ _, true)) []) s
        (stable_sort int_cmp [(3, 1); (1, 2); (3, 3); (1, 4)]) s
    ∧ stable_sort int_cmp [(3, 1); (1, 2); (3, 3); (1, 4)] ≡ₚ [(3, 1); (1, 2); (3, 3); (1, 4)]
    ∧ kv_sorted int_cmp (stable_sort int_cmp [(3, 1); (1, 2); (3, 3); (1, 4)])
    ∧ ∀ k, filter (λ y, int_cmp y.1 k = 0) (stable_sort int_cmp [(3, 1); (1, 2); (3, 3); (1, 4)])
           = filter (λ y, int_cmp y.1 k = 0) [(3, 1); (1, 2); (3, 3); (1, 4)].
Proof. apply (X9_insert_then_traverse_sorts int_cmp). exact int_cmp_valid. Defined.

(** ** The tree is shallow *)

Section Depth.
Context {K V : Type}.
Implicit Types (t l r : @tree K V) (s : RbTree K V).

Lemma rb_height n t :
  rb n t → (height t ≤ 2 * n + (if tcolor t then 0 else 1))%nat.
Proof.
  revert n. induction t as [|a c l IHl k v r IHr]; intros n; simpl.
  { intros ->. lia. }
  destruct c.
  - intros (m & -> & Hl%IHl & Hr%IHr). destruct (tcolor l), (tcolor r); lia.
  - intros (Hcl & Hcr & Hl%IHl & Hr%IHr). rewrite Hcl in Hl. rewrite Hcr in Hr. lia.
Qed.

Lemma rb_size n t : rb n t → (2 ^ n ≤ length (addrs t) + 1)%nat.
Proof.
  revert n. induction t as [|a c l IHl k v r IHr]; intros n; simpl.
  { intros ->. simpl. lia. }
  rewrite length_app. simpl. destruct c.
  - intros (m & -> & Hl%IHl & Hr%IHr). rewrite Nat.pow_succ_r'. lia.
  - intros (_ & _ & Hl%IHl & _). lia.
Qed.

Lemma is_rbtree_height t :
  is_rbtree t → (height t ≤ 2 * Nat.log2 (length (inorder t) + 1))%nat.
Proof.
  intros [Hc [n Hn]]. pose proof (rb_height n t Hn) as Hh. rewrite Hc in Hh.
  pose proof (rb_size n t Hn) as Hsz. rewrite length_addrs_inorder in Hsz.
  assert (n ≤ Nat.log2 (length (inorder t) + 1))%nat; [|lia].
  rewrite <-(Nat.log2_pow2 n) by lia. by apply Nat.log2_le_mono.
Qed.

End Depth.

(** X10.  A tree reached through the public methods with [N] live entries
    is at most [2 * log2 (N + 1)] nodes deep, and the descents of
    [FindLowerBoundNode], [FindUpperBoundNode], [FindNode] and [Find] end
    within that many nested calls: in the model, any fuel above the bound is
    enough for them to return. *)
Theorem X10_logarithmic_depth {K V} (s : RbTree K V) es (k : K) (zero : V) (fuel : nat) :
  reachable s → entries s es → (2 * Nat.log2 (length es + 1) < fuel)%nat →
  (∃ t, represents s t ∧ (height t ≤ 2 * Nat.log2 (length es + 1))%nat)
  ∧ (∃ p, FindLowerBoundNode fuel k s = Ok (p, s))
  ∧ (∃ p, FindUpperBoundNode fuel k s = Ok (p, s))
  ∧ (∃ p, FindNode fuel k s = Ok (p, s))
  ∧ (∃ r, Find zero fuel k s = Ok (r, s)).
Proof.
  intros Hr Hes Hfuel. destruct (entries_WF _ _ Hr Hes) as (t & (HI & Hrb & _) & <-).
  pose proof (is_rbtree_height t Hrb) as Hh.
  split_and!.
  - by exists t.
  - destruct (FindLowerBoundNode_spec _ _ fuel k s t (λ _ s', s' = s) ltac:(lia) HI eq_refl)
      as (p & s' & Hrun & ->). by exists p.
  - destruct (FindUpperBoundNode_spec _ _ fuel k s t (λ _ s', s' = s) ltac:(lia) HI eq_refl)
      as (p & s' & Hrun & ->). by exists p.
  - destruct (FindNode_spec _ _ fuel k s t (λ _ s', s' = s) ltac:(lia) HI eq_refl)
      as (p & s' & Hrun & ->). by exists p.
  - destruct (Find_spec _ _ zero fuel k s t (λ _ s', s' = s) ltac:(lia) HI eq_refl)
      as (p & s' & Hrun & ->). by exists p.
Qed.

Lemma X10_witness :
  (∃ t, represents tree1357 t ∧ (height t ≤ 2 * Nat.log2 (length entries1357 + 1))%nat)
  ∧ (∃ p, FindLowerBoundNode 5 6 tree1357 = Ok (p, tree1357))
  ∧ (∃ p, FindUpperBoundNode 5 6 tree1357 = Ok (p, tree1357))
  ∧ (∃ p, FindNode 5 6 tree1357 = Ok (p, tree1357))
  ∧ (∃ r, Find 0 5 6 tree1357 = Ok (r, tree1357)).
Proof.
  apply (X10_logarithmic_depth tree1357 entries1357 6 0 5);
    [exact tree1357_reachable|exact tree1357_entries|vm_compute; lia].
Defined.

Section PlainSearchFacts.
Context {K V : Type}.
Implicit Types (t l r : @tree K V) (s : RbTree K V) (ctx : list (@frame K V)).
Implicit Types (cmp : K → K → Z).

Lemma findNode_loop_spec sz cmp fuel k : ∀ s ctx t (Q : ptr → RbTree K V → Prop),
  (height t < fuel)%nat → Inv sz cmp s ctx t →
  Q (eaddr <$> descend cmp k t) s →
  wp (findNode_loop fuel (ptr_of t) k) Q s.
Proof.
  induction fuel as [|fuel IH]; intros s ctx t Q Hh HI HQ; [lia|].
  destruct t as [|a c l ka va r]; simpl findNode_loop; cbn [ptr_of nonnil].
  { by apply wp_ret. }
  inv_facts HI. wp_go. rewrite (Inv_keyCmp _ _ _ _ _ HI). wp_go.
  simpl in HQ, Hh. destruct (cmp k ka <? 0); wp_go.
  - focus_L HI. eapply IH; [|exact HI|]; [lia|done].
  - destruct (cmp k ka =? 0); wp_go; [done|].
    focus_R HI. eapply IH; [|exact HI|]; [lia|done].
Qed.

Lemma descend_Some cmp k t e :
  descend cmp k t = Some e → e ∈ inorder t ∧ cmp k (ekey e) = 0.
Proof.
  induction t as [|a c l IHl ka va r IHr]; simpl; [done|].
  destruct (cmp k ka <? 0).
  - intros [? ?]%IHl. split; [set_solver|done].
  - destruct (Z.eqb_spec (cmp k ka) 0).
    + intros [= <-]. split; [set_solver|done].
    + intros [? ?]%IHr. split; [set_solver|done].
Qed.

Lemma descend_None cmp k t :
  valid_cmp cmp → key_sorted cmp (inorder t) →
  descend cmp k t = None → ∀ e, e ∈ inorder t → cmp k (ekey e) ≠ 0.
Proof.
  intros Hv. induction t as [|a c l IHl ka va r IHr]; simpl; [intros _ _ e He; set_solver|].
  intros (Hsl & [Hsr Har]%key_sorted_cons & Hlr)%key_sorted_app.
  change (ekey (a, ka, va)) with ka in Har.
  destruct (Z.ltb_spec (cmp k ka) 0) as [Hlt|Hge].
  - intros Hd e [He|[->|He]%elem_of_cons]%elem_of_app.
    + by apply IHl.
    + change (ekey (a, ka, va)) with ka. lia.
    + pose proof (valid_cmp_lt_le cmp _ _ _ Hv Hlt (Har e He)). lia.
  - destruct (Z.eqb_spec (cmp k ka) 0) as [|Hne]; [done|].
    intros Hd e [He|[->|He]%elem_of_cons]%elem_of_app.
    + intros H0. assert (cmp (ekey e) ka ≤ 0) as Hle by (apply (Hlr e (a, ka, va)); set_solver).
      assert (cmp k ka ≤ 0) by (apply (proj2 Hv _ (ekey e)); lia). lia.
    + done.
    + by apply IHr.
Qed.

End PlainSearchFacts.

(** X11.  Under a valid comparator [findNode(k)], the plain descent from the
    root, returns a live node whose key compares equal to [k] when there is
    one (some such node, not always the first in order) and nil when there
    is none; it is nil exactly when [FindNode(k)] is nil. *)
Theorem X11_findNode_finds_equal_key {K V} (s : RbTree K V) (k : K) es :
  reachable s → valid_cmp (keyCmp s) → entries s es →
  ∃ p q,
    returns (λ fuel, findNode fuel k) s p s
    ∧ returns (λ fuel, FindNode fuel k) s q s
    ∧ (p = None ↔ q = None)
    ∧ match p with
      | Some a => ∃ e, e ∈ es ∧ eaddr e = a ∧ keyCmp s k (ekey e) = 0
      | None => ∀ e, e ∈ es → keyCmp s k (ekey e) ≠ 0
      end.
Proof.
  intros Hr Hv Hes. destruct (entries_WF _ _ Hr Hes) as (t & (HI & _ & _ & Hs) & <-).
  destruct (wp_returns (λ fuel, findNode fuel k) (S (height t))
              (λ r s', r = eaddr <$> descend (keyCmp s) k t ∧ s' = s) s)
    as (p & s0 & Hp & -> & ->); [intros n; apply findNode_mono| |].
  { unfold findNode. apply wp_bind, wp_get_root. rewrite (Inv_root _ _ _ _ HI).
    eapply findNode_loop_spec; [|exact HI|done]. lia. }
  destruct (wp_returns (λ fuel, FindNode fuel k) (S (height t))
              (λ r s', r = eaddr <$> first_eq (keyCmp s) k t ∧ s' = s) s)
    as (q & s0 & Hq & -> & ->); [intros n; apply FindNode_mono| |].
  { eapply FindNode_spec; [|exact HI|done]. lia. }
  exists (eaddr <$> descend (keyCmp s) k t), (eaddr <$> first_eq (keyCmp s) k t).
  split_and!; [done|done| |].
  - destruct (descend (keyCmp s) k t) as [e|] eqn:Hd; simpl.
    + apply descend_Some in Hd as [He H0].
      destruct (first_eq_found (keyCmp s) k t Hv (Hs Hv)) as (e0 & -> & _).
      { exists e. split; [done|]. by apply valid_cmp_eq_sym. }
      done.
    + destruct (first_eq (keyCmp s) k t) as [e0|] eqn:Hf; [|done]. exfalso.
      apply first_eq_Some in Hf as [He0 H0].
      apply (descend_None _ _ _ Hv (Hs Hv) Hd e0 He0). by apply valid_cmp_eq_sym.
  - destruct (descend (keyCmp s) k t) as [e|] eqn:Hd; simpl.
    + apply descend_Some in Hd as [He H0]. by exists e.
    + apply (descend_None _ _ _ Hv (Hs Hv) Hd).
Qed.

Lemma X11_witness :
  ∃ p q,
    returns (λ fuel, findNode fuel 7) tree1357 p tree1357
    ∧ returns (λ fuel, FindNode fuel 7) tree1357 q tree1357
    ∧ (p = None ↔ q = None)
    ∧ match p with
      | Some a => ∃ e, e ∈ entries1357 ∧ eaddr e = a ∧ keyCmp tree1357 7 (ekey e) = 0
      | None => ∀ e, e ∈ entries1357 → keyCmp tree1357 7 (ekey e) ≠ 0
      end.
Proof.
  apply (X11_findNode_finds_equal_key tree1357 7 entries1357);
    [exact tree1357_reachable|exact tree1357_valid|exact tree1357_entries].
Defined.

Section CheckerFacts.
Context {K V : Type}.
Implicit Types (t l r : @tree K V) (s : RbTree K V) (ctx : list (@frame K V)).

Lemma test_check sz cmp fuel : ∀ s ctx t (Q : Z * Z * bool → RbTree K V → Prop),
  (height t < fuel)%nat → Inv sz cmp s ctx t →
  Q (check (bool_decide (ctx = [])) t) s →
  wp (test fuel (ptr_of t)) Q s.
Proof.
  induction fuel as [|fuel IH]; intros s ctx t Q Hh HI HQ; [lia|].
  destruct t as [|a c l ka va r]; simpl test; cbn [ptr_of nonnil].
  { by apply wp_ret. }
  inv_facts HI. simpl in Hh. wp_go.
  assert (wp (if ptr_eqb (Some a) (root s) then c0 ← get_color (Some a); ret (negb c0) else ret false)
             (λ b s', b = (bool_decide (ctx = []) && negb c) ∧ s' = s) s) as Hfirst.
  { destruct ctx as [|f ctx].
    - rewrite (Inv_root _ _ _ _ HI). cbn [ptr_of]. rewrite ptr_eqb_refl. by wp_go.
    - rewrite ptr_eqb_ne; [by wp_go|]. intros Heq. by apply (Inv_root_ne _ _ _ _ _ _ HI). }
  eapply wp_mono; [exact Hfirst|]. intros b s' [-> ->]. cbn beta iota.
  simpl in HQ. destruct (bool_decide (ctx = []) && negb c); [by wp_go|].
  wp_go. pose proof HI as HIl. focus_L HIl. pose proof HI as HIr. focus_R HIr.
  eapply IH; [|exact HIl|]; [lia|]. simpl.
  destruct (check false l) as [[lbc pl] okl]. cbn beta iota.
  destruct okl; simpl; [|by wp_go]. wp_go.
  eapply IH; [|exact HIr|]; [lia|]. simpl.
  destruct (check false r) as [[rbc pr] okr]. cbn beta iota.
  destruct okr; simpl; [|by wp_go].
  destruct (rbc =? lbc); simpl; [|by wp_go]. wp_go.
  destruct c; simpl; [by wp_go|]. wp_go. unfold getColor.
  destruct l as [|la lc ll lk lv lr]; destruct r as [|ra rc rl rk rv rr];
    simpl in HQ |- *; inv_facts HIl; inv_facts HIr; wp_go;
    repeat match goal with |- context [if negb ?b then _ else _] => destruct b; simpl; wp_go end;
    done.
Qed.

Lemma rb_le_height n t : rb n t → (n ≤ height t)%nat.
Proof.
  revert n. induction t as [|a c l IHl k v r IHr]; intros n; simpl; [lia|].
  destruct c.
  - intros (m & -> & Hl%IHl & _). lia.
  - intros (_ & _ & Hl%IHl & _). lia.
Qed.

Lemma check_rb t : ∀ isroot n,
  Z.of_nat (height t) < int_max →
  rb n t → (isroot = true → tcolor t = BLACK) →
  check isroot t = (Z.of_nat n + 1, 0, true).
Proof.
  induction t as [|a c l IHl k v r IHr]; intros isroot n Hh Hrb Hroot; simpl in *.
  { by subst n. }
  assert (isroot && negb c = false) as ->.
  { destruct isroot; [rewrite Hroot by done|]; done. }
  destruct c.
  - destruct Hrb as (m & -> & Hl & Hr).
    rewrite (IHl false m), (IHr false m) by (done || lia). simpl.
    rewrite Z.eqb_refl. simpl. repeat f_equal.
    pose proof (rb_le_height _ _ Hl). rewrite int_wrap_small; unfold int_min, int_max in *; lia.
  - destruct Hrb as (Hcl & Hcr & Hl & Hr).
    rewrite (IHl false n), (IHr false n) by (done || lia). simpl.
    rewrite Z.eqb_refl, Hcl, Hcr. done.
Qed.

Lemma check_ok t : ∀ isroot,
  Z.of_nat (height t) < int_max →
  (check isroot t).2 = true →
  ∃ n, rb n t ∧ (isroot = true → tcolor t = BLACK) ∧ check isroot t = (Z.of_nat n + 1, 0, true).
Proof.
  induction t as [|a c l IHl k v r IHr]; intros isroot Hh; simpl in *.
  { intros _. by exists 0%nat. }
  destruct (isroot && negb c) eqn:Hroot; [done|].
  destruct (check false l) as [[lbc pl] okl] eqn:Hcl. destruct okl; [|done]. simpl.
  destruct (check false r) as [[rbc pr] okr] eqn:Hcr. destruct okr; [|done]. simpl.
  destruct (IHl false ltac:(lia) ltac:(by rewrite Hcl)) as (nl & Hl & _ & Heql).
  rewrite Hcl in Heql. injection Heql as -> ->.
  destruct (IHr false ltac:(lia) ltac:(by rewrite Hcr)) as (nr & Hr & _ & Heqr).
  rewrite Hcr in Heqr. injection Heqr as -> ->.
  destruct (Z.eqb_spec (Z.of_nat nr + 1) (Z.of_nat nl + 1)) as [Heq|]; [|done]. simpl.
  assert (nr = nl) as -> by lia.
  pose proof (rb_le_height _ _ Hl).
  destruct c; simpl.
  - intros _. exists (S nl). split_and!; [by exists nl|done|].
    repeat f_equal. rewrite int_wrap_small; unfold int_min, int_max in *; lia.
  - destruct (tcolor l) eqn:Htl, (tcolor r) eqn:Htr; simpl; try done.
    intros _. exists nl. split; [done|]. split; [|done].
    intros ->. done.
Qed.

Lemma check_fail t : ∀ isroot,
  (check isroot t).2 = false →
  ((check isroot t).1.2 = 2 ∧ isroot = true ∧ tcolor t = RED)
  ∨ (((check isroot t).1.2 = 4 ∨ (check isroot t).1.2 = 5)
     ∧ (isroot = true → tcolor t = BLACK)).
Proof.
  induction t as [|a c l IHl k v r IHr]; intros isroot; simpl; [done|].
  destruct (isroot && negb c) eqn:Hroot.
  { intros _. left. destruct isroot, c; done. }
  assert (isroot = true → c = BLACK) as Hc by (destruct isroot, c; done).
  destruct (check false l) as [[lbc pl] okl] eqn:Hcl. destruct okl; simpl.
  2:{ intros _. right. split; [|done].
      destruct (IHl false ltac:(by rewrite Hcl)) as [(_ & ? & _)|[Hp _]]; [done|].
      by rewrite Hcl in Hp. }
  destruct (check false r) as [[rbc pr] okr] eqn:Hcr. destruct okr; simpl.
  2:{ intros _. right. split; [|done].
      destruct (IHr false ltac:(by rewrite Hcr)) as [(_ & ? & _)|[Hp _]]; [done|].
      by rewrite Hcr in Hp. }
  destruct (rbc =? lbc); simpl; [|intros _; right; split; [by right|done]].
  destruct c; simpl; [done|].
  destruct (negb (tcolor l) || negb (tcolor r)); simpl; [|done].
  intros _. right. split; [by left|done].
Qed.

End CheckerFacts.

(** X12.  On any store whose nodes under the root form a binary tree [t]
    of fewer than 2^63 - 1 nodes, red-black or not, [IsRbTree] returns
    [(true, nil)] exactly when [t] is red-black; otherwise it returns false
    with the error "violate property p", where [p] is 2 when the root is red
    and 4 or 5 when the root is black. *)
Theorem X12_IsRbTree_decides {K V} (s : RbTree K V) (t : @tree K V) :
  represents s t → Z.of_nat (length (inorder t)) < int_max →
  ∃ r, returns IsRbTree s r s
    ∧ (r = (true, None) ↔ is_rbtree t)
    ∧ (r ≠ (true, None) →
       ∃ p, r = (false, Some (ErrViolateProperty p))
            ∧ (p = 2 ∧ tcolor t = RED ∨ (p = 4 ∨ p = 5) ∧ tcolor t = BLACK)).
Proof.
  intros HI Hlen.
  assert (Z.of_nat (height t) < int_max) as Hh.
  { pose proof (height_le_addrs t). rewrite length_addrs_inorder in H. lia. }
  destruct (wp_returns IsRbTree (S (height t))
              (λ r s', r = (let '(_, p, ok) := check true t in
                            if negb ok then (false, Some (ErrViolateProperty p))
                            else (true, None)) ∧ s' = s) s)
    as (r & s0 & Hret & -> & ->); [intros n; apply IsRbTree_mono| |].
  { unfold IsRbTree. wp_go. rewrite (Inv_root _ _ _ _ HI).
    eapply test_check; [|exact HI|]; [lia|]. simpl.
    destruct (check true t) as [[bc p] ok]. cbn beta iota. by destruct ok; wp_go. }
  eexists. split; [exact Hret|].
  destruct (check true t) as [[bc p] ok] eqn:Hc. destruct ok; simpl.
  - split; [|done]. split; [intros _|done].
    destruct (check_ok t true Hh) as (n & Hn & Hroot & _); [by rewrite Hc|].
    split; [by apply Hroot|by exists n].
  - split.
    + split; [done|]. intros [Hcol [n Hn]].
      rewrite (check_rb t true n Hh Hn) in Hc; done.
    + intros _. exists p. split; [done|].
      destruct (check_fail t true) as [(Hp & _ & Hcol)|[Hp Hcol]]; [by rewrite Hc|..];
        rewrite Hc in Hp; simpl in Hp; [by left|right]. split; [done|by apply Hcol].
Qed.

Lemma X12_witness :
  ∃ r, returns IsRbTree red_root r red_root
    ∧ (r = (true, None) ↔ is_rbtree (T 1%positive RED E 5 50 E))
    ∧ (r ≠ (true, None) →
       ∃ p, r = (false, Some (ErrViolateProperty p))
            ∧ (p = 2 ∧ tcolor (T 1%positive RED (@E Z Z) 5 50 E) = RED
               ∨ (p = 4 ∨ p = 5) ∧ tcolor (T 1%positive RED (@E Z Z) 5 50 E) = BLACK)).
Proof.
  apply (X12_IsRbTree_decides red_root (T 1%positive RED E 5 50 E)).
  - unfold represents, Inv. simpl. split_and!; try done. apply NoDup_singleton.
  - vm_compute. reflexivity.
Defined.

(** ** Rotations *)

Section Rotations.
Context {K V : Type}.
Implicit Types (t l r : @tree K V) (ctx : list (@frame K V)) (s : RbTree K V).

Lemma rotate_left_right sz cmp s ctx x cx a kx vx y cy b ky vy d :
  Inv sz cmp s ctx (T x cx a kx vx (T y cy b ky vy d)) →
  ∃ s1, leftRotate (Some x) s = Ok (tt, s1) ∧ rightRotate (Some y) s1 = Ok (tt, s).
Proof.
  destruct s as [h rt sz0 cmp0]. unfold Inv. simpl.
  intros (Hsz & Hcmp & Hnd & Hc & (Hx & Ha & Hy & Hb & Hd)).
  destruct b as [|bb cb bl bk bv br];
    (destruct ctx as [|[fa fc fk fv fr|fa fc fl fk fv] rest]);
    simpl in *; destruct_and?; unfold faddrs in *; nodup_facts Hnd.
  all: eexists; split;
    [unfold leftRotate, get_right, get_left, get_parent, set_right, set_left,
       set_parent, set_root, bind, load, store, ret; hsimpl; reflexivity|].
  all: unfold rightRotate, get_right, get_left, get_parent, set_right, set_left,
       set_parent, set_root, bind, load, store, ret; hsimpl.
  all: f_equal; f_equal; f_equal; try done.
  all: apply map_eq; intros i; rewrite !lookup_insert.
  all: repeat case_decide; subst; done.
Qed.

Lemma rotate_right_left sz cmp s ctx x cx d kx vx y cy a ky vy b :
  Inv sz cmp s ctx (T x cx (T y cy a ky vy b) kx vx d) →
  ∃ s1, rightRotate (Some x) s = Ok (tt, s1) ∧ leftRotate (Some y) s1 = Ok (tt, s).
Proof.
  destruct s as [h rt sz0 cmp0]. unfold Inv. simpl.
  intros (Hsz & Hcmp & Hnd & Hc & (Hx & (Hy & Ha & Hb) & Hd)).
  destruct b as [|bb cb bl bk bv br];
    (destruct ctx as [|[fa fc fk fv fr|fa fc fl fk fv] rest]);
    simpl in *; destruct_and?; unfold faddrs in *; nodup_facts Hnd.
  all: eexists; split;
    [unfold rightRotate, get_right, get_left, get_parent, set_right, set_left,
       set_parent, set_root, bind, load, store, ret; hsimpl; reflexivity|].
  all: unfold leftRotate, get_right, get_left, get_parent, set_right, set_left,
       set_parent, set_root, bind, load, store, ret; hsimpl.
  all: f_equal; f_equal; f_equal; try done.
  all: apply map_eq; intros i; rewrite !lookup_insert.
  all: repeat case_decide; subst; done.
Qed.

Lemma leftRotate_no_right sz cmp s ctx x cx a kx vx :
  Inv sz cmp s ctx (T x cx a kx vx E) → leftRotate (Some x) s = Panic.
Proof.
  intros HI. pose proof (Inv_lookup _ _ _ _ _ _ _ _ _ _ HI) as Hx.
  unfold leftRotate, get_right, get_left, bind, load, ret. by rewrite Hx.
Qed.

Lemma rightRotate_no_left sz cmp s ctx x cx d kx vx :
  Inv sz cmp s ctx (T x cx E kx vx d) → rightRotate (Some x) s = Panic.
Proof.
  intros HI. pose proof (Inv_lookup _ _ _ _ _ _ _ _ _ _ HI) as Hx.
  unfold rightRotate, get_right, get_left, bind, load, ret. by rewrite Hx.
Qed.

End Rotations.

(** X13.  In a store whose nodes form a tree in which node [x] has the right
    child [y]: [leftRotate(x)] puts [y] in the place of [x], with [x] as its
    left child and the former left subtree of [y] as the right subtree of
    [x]; the symmetric order of the entries is unchanged, and
    [rightRotate(y)] then gives back the store exactly as it was.  The same
    holds with left and right exchanged.  [leftRotate] of a node without
    right child, and [rightRotate] of a node without left child, panic. *)
Theorem X13_rotations_are_inverse {K V} (s : RbTree K V) ctx x cx (a : @tree K V) kx vx y cy b ky vy d :
  (represents s (plug ctx (T x cx a kx vx (T y cy b ky vy d))) →
   ∃ s1, leftRotate (Some x) s = Ok (tt, s1)
     ∧ represents s1 (plug ctx (T y cy (T x cx a kx vx b) ky vy d))
     ∧ inorder (plug ctx (T y cy (T x cx a kx vx b) ky vy d))
       = inorder (plug ctx (T x cx a kx vx (T y cy b ky vy d)))
     ∧ rightRotate (Some y) s1 = Ok (tt, s))
  ∧ (represents s (plug ctx (T y cy (T x cx a kx vx b) ky vy d)) →
     ∃ s1, rightRotate (Some y) s = Ok (tt, s1)
       ∧ represents s1 (plug ctx (T x cx a kx vx (T y cy b ky vy d)))
       ∧ leftRotate (Some x) s1 = Ok (tt, s))
  ∧ (represents s (plug ctx (T x cx a kx vx E)) → leftRotate (Some x) s = Panic)
  ∧ (represents s (plug ctx (T x cx E kx vx a)) → rightRotate (Some x) s = Panic).
Proof.
  split_and!.
  - intros HI%Inv_whole.
    destruct (rotate_left_right _ _ _ _ _ _ _ _ _ _ _ _ _ _ _ HI) as (s1 & Hl & Hr).
    destruct (leftRotate_run _ _ _ _ _ _ _ _ _ _ _ _ _ _ _ HI) as (s1' & Hl' & HI').
    rewrite Hl in Hl'. injection Hl' as <-.
    exists s1. split_and!; [done| |rewrite !inorder_plug; by list_norm|done].
    apply Inv_whole in HI'. unfold represents.
    by rewrite (Inv_size _ _ _ _ _ HI'), (Inv_keyCmp _ _ _ _ _ HI').
  - intros HI%Inv_whole.
    destruct (rotate_right_left _ _ _ _ _ _ _ _ _ _ _ _ _ _ _ HI) as (s1 & Hl & Hr).
    destruct (rightRotate_run _ _ _ _ _ _ _ _ _ _ _ _ _ _ _ HI) as (s1' & Hl' & HI').
    rewrite Hl in Hl'. injection Hl' as <-.
    exists s1. split_and!; [done| |done].
    apply Inv_whole in HI'. unfold represents.
    by rewrite (Inv_size _ _ _ _ _ HI'), (Inv_keyCmp _ _ _ _ _ HI').
  - intros HI%Inv_whole. by eapply leftRotate_no_right.
  - intros HI%Inv_whole. by eapply rightRotate_no_left.
Qed.

Lemma tree1357_represents :
  represents tree1357
    (plug [] (T 2%positive BLACK (T 1%positive BLACK E 1 10 E) 3 30
                (T 3%positive BLACK E 5 50 (T 4%positive RED E 7 70 E)))).
Proof.
  unfold represents, Inv. simpl. split_and!; try (vm_compute; reflexivity); try done.
  apply (bool_decide_unpack _). vm_compute. reflexivity.
Qed.

Lemma X13_witness :
  ∃ s1, leftRotate (Some 2%positive) tree1357 = Ok (tt, s1)
    ∧ represents s1
        (plug [] (T 3%positive BLACK
                    (T 2%positive BLACK (T 1%positive BLACK E 1 10 E) 3 30 E) 5 50
                    (T 4%positive RED E 7 70 E)))
    ∧ inorder (plug [] (T 3%positive BLACK
                    (T 2%positive BLACK (T 1%positive BLACK E 1 10 E) 3 30 E) 5 50
                    (T 4%positive RED E 7 70 E)))
      = inorder (plug [] (T 2%positive BLACK (T 1%positive BLACK E 1 10 E) 3 30
                (T 3%positive BLACK E 5 50 (T 4%positive RED E 7 70 E))))
    ∧ rightRotate (Some 3%positive) s1 = Ok (tt, tree1357).
Proof.
  apply (proj1 (X13_rotations_are_inverse tree1357 [] 2%positive BLACK
                  (T 1%positive BLACK E 1 10 E) 3 30 3%positive BLACK E 5 50
                  (T 4%positive RED E 7 70 E))).
  exact tree1357_represents.
Defined.

(** ** The two fixups *)

(** X14.  [rbInsertFixup(z)] repairs a red-red violation: in a store whose
    tree is red-black except that the red node [z] may have a red parent
    (the subtree of [z] is red-black of some black height [n], and what is
    around it is red-black for a subtree of that height and has a black
    root), it returns, and the tree afterwards is red-black with a black
    root and has the same entries in the same order. *)
Theorem X14_rbInsertFixup_repairs {K V} (s : RbTree K V) ctx z zl zk zv zr n :
  represents s (plug ctx (T z RED zl zk zv zr)) →
  rb n (T z RED zl zk zv zr) → crb n ctx →
  ∃ s' t', returns (λ fuel, rbInsertFixup fuel (Some z)) s tt s'
    ∧ represents s' t' ∧ is_rbtree t'
    ∧ inorder t' = inorder (plug ctx (T z RED zl zk zv zr)).
Proof.
  intros HI%Inv_whole Hrb Hcrb.
  destruct (wp_returns (λ fuel, rbInsertFixup fuel (Some z)) (S (length ctx)) _ s
              (λ m, rbInsertFixup_mono m (Some z))
              (rbInsertFixup_spec _ _ (S (length ctx)) s ctx z zl zk zv zr n
                 ltac:(lia) HI Hrb Hcrb))
    as ([] & s' & Hret & t' & HI' & Hrb' & Hin).
  exists s', t'. split_and!; try done. unfold represents.
  by rewrite (Inv_size _ _ _ _ _ HI'), (Inv_keyCmp _ _ _ _ _ HI').
Qed.

Lemma X14_witness :
  ∃ s' t', returns (λ fuel, rbInsertFixup fuel (Some 3%positive)) red_red tt s'
    ∧ represents s' t' ∧ is_rbtree t'
    ∧ inorder t' = inorder (plug [FR 2%positive RED E 3 30; FR 1%positive BLACK E 1 10]
                              (T 3%positive RED E 5 50 E)).
Proof.
  apply (X14_rbInsertFixup_repairs red_red
           [FR 2%positive RED E 3 30; FR 1%positive BLACK E 1 10] 3%positive E 5 50 E 0).
  - unfold represents, Inv. simpl. split_and!; try (vm_compute; reflexivity); try done.
    apply (bool_decide_unpack _). vm_compute. reflexivity.
  - simpl. done.
  - simpl. split_and!; done.
Defined.

(** X15.  [rbDeleteFixup(x, parent)] repairs a missing black node: in a
    store whose tree is red-black except that the subtree at [x] (nil
    allowed, then [parent] is the node above the gap) is one black node
    short, being black of black height [n] where [n + 1] is due or red, it
    returns, and the tree afterwards is red-black with a black root and has
    the same entries in the same order. *)
Theorem X15_rbDeleteFixup_repairs {K V} (s : RbTree K V) ctx (t : @tree K V) n par :
  represents s (plug ctx t) →
  (t = E → par = cpar ctx) →
  crb (S n) ctx → def_ok n t →
  ∃ s' t', returns (λ fuel, rbDeleteFixup fuel (ptr_of t) par) s tt s'
    ∧ represents s' t' ∧ is_rbtree t'
    ∧ inorder t' = inorder (plug ctx t).
Proof.
  intros HI%Inv_whole Hpar Hcrb Hdef.
  destruct (wp_returns (λ fuel, rbDeleteFixup fuel (ptr_of t) par) (length ctx + 2) _ s
              (λ m, rbDeleteFixup_mono m (ptr_of t) par)
              (rbDeleteFixup_spec _ _ (length ctx + 2) s ctx t n par
                 ltac:(lia) HI Hpar Hcrb Hdef))
    as ([] & s' & Hret & t' & HI' & Hrb' & Hin).
  exists s', t'. split_and!; try done. unfold represents.
  by rewrite (Inv_size _ _ _ _ _ HI'), (Inv_keyCmp _ _ _ _ _ HI').
Qed.

Lemma X15_witness :
  ∃ s' t', returns (λ fuel, rbDeleteFixup fuel (ptr_of (@E Z Z)) (Some 1%positive))
             black_short tt s'
    ∧ represents s' t' ∧ is_rbtree t'
    ∧ inorder t' = inorder (plug [FL 1%positive BLACK 5 50 (T 2%positive BLACK E 7 70 E)] E).
Proof.
  apply (X15_rbDeleteFixup_repairs black_short
           [FL 1%positive BLACK 5 50 (T 2%positive BLACK E 7 70 E)] E 0 (Some 1%positive)).
  - unfold represents, Inv. simpl. split_and!; try (vm_compute; reflexivity); try done.
    apply (bool_decide_unpack _). vm_compute. reflexivity.
  - done.
  - simpl. split_and!; [by exists 0%nat|done].
  - left. done.
Defined.

Section FramesFacts.
Context {K V : Type}.
Local Abbreviation M := (M K V).
Implicit Types (s : RbTree K V) (n : Node K V).

Lemma same_fields_refl : Reflexive (same_fields (K:=K) (V:=V)).
Proof. by intros s. Qed.

Lemma same_fields_trans : Transitive (same_fields (K:=K) (V:=V)).
Proof. intros s1 s2 s3 [H1 H2] [H3 H4]. split; congruence. Qed.

Lemma read_only_pres {A} (m : M A) : pres eq m → read_only m.
Proof. intros H s a s' Hm. symmetry. exact (H s a s' Hm). Qed.

Lemma pres_ret (R : relation (RbTree K V)) `{!Reflexive R, !Transitive R}
    {A} (a : A) : pres R (ret a).
Proof. intros s a' s' [= _ <-]. done. Qed.

Lemma pres_oof (R : relation (RbTree K V)) `{!Reflexive R, !Transitive R}
    {A} : pres R (out_of_fuel (A:=A)).
Proof. intros s a s' [=]. Qed.

Lemma pres_bind (R : relation (RbTree K V)) `{!Reflexive R, !Transitive R}
    {A B} (m : M A) (f : A → M B) :
  pres R m → (∀ a, pres R (f a)) → pres R (bind m f).
Proof.
  intros Hm Hf s b s'. unfold bind. destruct (m s) as [[a s1]| |] eqn:Hms; [|done..].
  intros Hfs. etrans; [exact (Hm _ _ _ Hms)|exact (Hf _ _ _ _ Hfs)].
Qed.

Lemma pres_load (R : relation (RbTree K V)) `{!Reflexive R, !Transitive R}
    p : pres R (load p).
Proof.
  intros s n s'. unfold load. destruct p as [a|]; [|done].
  destruct (heap s !! a); [|done]. by intros [= _ <-].
Qed.

Lemma pres_get_root (R : relation (RbTree K V)) `{!Reflexive R, !Transitive R}
    : pres R get_root.
Proof. by intros s a s' [= _ <-]. Qed.

Lemma pres_get_size (R : relation (RbTree K V)) `{!Reflexive R, !Transitive R}
    : pres R get_size.
Proof. by intros s a s' [= _ <-]. Qed.

Lemma pres_get_keyCmp (R : relation (RbTree K V)) `{!Reflexive R, !Transitive R}
    : pres R get_keyCmp.
Proof. by intros s a s' [= _ <-]. Qed.

Lemma fields_store p (f : Node K V → Node K V) : pres same_fields (store p f).
Proof.
  intros s n s'. unfold store. destruct p as [a|]; [|done].
  destruct (heap s !! a); [|done]. intros Heq. by simplify_eq.
Qed.

Lemma fields_alloc n : pres same_fields (alloc n).
Proof. intros s a s' Heq. unfold alloc in Heq. by simplify_eq. Qed.

Lemma fields_set_root p : pres same_fields (set_root (K:=K) (V:=V) p).
Proof. intros s a s' Heq. unfold set_root in Heq. by simplify_eq. Qed.

Lemma heap_reader_ret {A} (a : A) : heap_reader (ret (K:=K) (V:=V) a).
Proof. by intros s s2 _. Qed.

Lemma heap_reader_oof {A} : heap_reader (out_of_fuel (K:=K) (V:=V) (A:=A)).
Proof. by intros s s2 _. Qed.

Lemma heap_reader_bind {A B} (m : M A) (f : A → M B) :
  heap_reader m → (∀ a, heap_reader (f a)) → heap_reader (bind m f).
Proof.
  intros Hm Hf s s2 Hh. unfold bind. rewrite (Hm s s2 Hh).
  pose proof (Hm s s eq_refl) as Hs.
  destruct (m s) as [[a s1]| |]; [|done..].
  injection Hs as <-. by apply Hf.
Qed.

Lemma heap_reader_load p : heap_reader (load (K:=K) (V:=V) p).
Proof.
  intros s s2 Hh. unfold load. destruct p as [a|]; [|done].
  rewrite Hh. by destruct (heap s !! a).
Qed.

Lemma heap_reader_read_only {A} (m : M A) : heap_reader m → read_only m.
Proof.
  intros Hm s a s' Hms. pose proof (Hm s s eq_refl) as Hs. rewrite Hms in Hs.
  by injection Hs.
Qed.

Lemma heap_reader_returns {A} (op : nat → M A) s s2 a :
  (∀ fuel, heap_reader (op fuel)) → heap s2 = heap s →
  returns op s a s → returns op s2 a s2.
Proof.
  intros Hop Hh [n Hn]. exists n. intros fuel Hle.
  rewrite (Hop fuel s s2 Hh), (Hn fuel Hle). done.
Qed.

(** A prefix that keeps the fields, before a computation related by [R]. *)
Lemma pres_bind_left (R : relation (RbTree K V)) {A B} (m : M A) (f : A → M B) :
  (∀ s1 s2 s3, same_fields s1 s2 → R s2 s3 → R s1 s3) →
  pres same_fields m → (∀ a, pres R (f a)) → pres R (bind m f).
Proof.
  intros HR Hm Hf s b s'. unfold bind. destruct (m s) as [[a s1]| |] eqn:Hms; [|done..].
  intros Hfs. eapply HR; [exact (Hm _ _ _ Hms)|exact (Hf _ _ _ _ Hfs)].
Qed.

End FramesFacts.

Ltac pres_tc := first [apply same_fields_refl|apply same_fields_trans|apply _].

Ltac pres_prim :=
  match goal with
  | |- pres _ (ret _) => apply pres_ret
  | |- pres _ out_of_fuel => apply pres_oof
  | |- pres _ (load _) => apply pres_load
  | |- pres _ get_root => apply pres_get_root
  | |- pres _ get_size => apply pres_get_size
  | |- pres _ get_keyCmp => apply pres_get_keyCmp
  | |- pres same_fields (store _ _) => apply fields_store
  | |- pres same_fields (alloc _) => apply fields_alloc
  | |- pres same_fields (set_root _) => apply fields_set_root
  | |- heap_reader (ret _) => apply heap_reader_ret
  | |- heap_reader out_of_fuel => apply heap_reader_oof
  | |- heap_reader (load _) => apply heap_reader_load
  end.

Ltac pres_step :=
  match goal with
  | |- Reflexive _ => pres_tc
  | |- Transitive _ => pres_tc
  | |- pres _ (bind _ _) => apply pres_bind; [..| |intros ?]
  | |- heap_reader (bind _ _) => apply heap_reader_bind; [|intros ?]
  | |- pres _ (if ?b then _ else _) => destruct b
  | |- heap_reader (if ?b then _ else _) => destruct b
  | |- pres _ (match ?x with _ => _ end) => destruct x
  | |- heap_reader (match ?x with _ => _ end) => destruct x
  | |- _ => pres_prim
  | |- _ => solve [auto 2 with frames nocore]
  | H : ∀ _, _ |- _ => solve [simple apply H]
  end.

Ltac pres_auto :=
  unfold Node_Next, Node_Prev, Node_Key, Node_Value, Node_SetValue,
    deficient, parent_is_red, is_red;
  unfold get_parent, get_left, get_right, get_color, get_key, get_value,
    set_parent, set_left, set_right, set_color, set_key, set_value;
  repeat pres_step.

Create HintDb frames discriminated.
#[global] Hint Constants Opaque : frames.

Ltac pres_loop :=
  let n := fresh "n" in let IH := fresh "IH" in
  intros n; induction n as [|n IH]; intros; simpl; pres_auto.

(** *** Reading functions, for every preorder on stores *)

Lemma getColor_pres {K V} R `{!Reflexive R, !Transitive R} n :
  pres R (getColor (K:=K) (V:=V) n).
Proof. unfold getColor. pres_auto. Qed.
#[global] Hint Extern 1 (pres _ (getColor _)) => (apply getColor_pres; pres_tc) : frames.

Lemma minimum_pres {K V} R `{!Reflexive R, !Transitive R} fuel n :
  pres R (minimum (K:=K) (V:=V) fuel n).
Proof. revert fuel n. pres_loop. Qed.
#[global] Hint Extern 1 (pres _ (minimum _ _)) => (apply minimum_pres; pres_tc) : frames.

Lemma maximum_pres {K V} R `{!Reflexive R, !Transitive R} fuel n :
  pres R (maximum (K:=K) (V:=V) fuel n).
Proof. revert fuel n. pres_loop. Qed.
#[global] Hint Extern 1 (pres _ (maximum _ _)) => (apply maximum_pres; pres_tc) : frames.

Lemma successor_loop_pres {K V} R `{!Reflexive R, !Transitive R} fuel x y :
  pres R (successor_loop (K:=K) (V:=V) fuel x y).
Proof. revert fuel x y. pres_loop. Qed.
#[global] Hint Extern 1 (pres _ (successor_loop _ _ _)) => (apply successor_loop_pres; pres_tc) : frames.

Lemma successor_pres {K V} R `{!Reflexive R, !Transitive R} fuel x :
  pres R (successor (K:=K) (V:=V) fuel x).
Proof. unfold successor. pres_auto. Qed.
#[global] Hint Extern 1 (pres _ (successor _ _)) => (apply successor_pres; pres_tc) : frames.

Lemma presuccessor_loop_pres {K V} R `{!Reflexive R, !Transitive R} fuel x :
  pres R (presuccessor_loop (K:=K) (V:=V) fuel x).
Proof. revert fuel x. pres_loop. Qed.
#[global] Hint Extern 1 (pres _ (presuccessor_loop _ _)) => (apply presuccessor_loop_pres; pres_tc) : frames.

Lemma presuccessor_pres {K V} R `{!Reflexive R, !Transitive R} fuel x :
  pres R (presuccessor (K:=K) (V:=V) fuel x).
Proof. unfold presuccessor. pres_auto. Qed.
#[global] Hint Extern 1 (pres _ (presuccessor _ _)) => (apply presuccessor_pres; pres_tc) : frames.

Lemma First_pres {K V} R `{!Reflexive R, !Transitive R} fuel :
  pres R (First (K:=K) (V:=V) fuel).
Proof. unfold First. pres_auto. Qed.
#[global] Hint Extern 1 (pres _ (First _)) => (apply First_pres; pres_tc) : frames.

Lemma Last_pres {K V} R `{!Reflexive R, !Transitive R} fuel :
  pres R (Last (K:=K) (V:=V) fuel).
Proof. unfold Last. pres_auto. Qed.
#[global] Hint Extern 1 (pres _ (Last _)) => (apply Last_pres; pres_tc) : frames.

Lemma Insert_loop_pres {K V} R `{!Reflexive R, !Transitive R} fuel (k : K) x y :
  pres R (Insert_loop (K:=K) (V:=V) fuel k x y).
Proof. revert fuel k x y. pres_loop. Qed.
#[global] Hint Extern 1 (pres _ (Insert_loop _ _ _ _)) => (apply Insert_loop_pres; pres_tc) : frames.

Lemma findLowerBoundNode_pres {K V} R `{!Reflexive R, !Transitive R} fuel x (k : K) :
  pres R (findLowerBoundNode (K:=K) (V:=V) fuel x k).
Proof. revert fuel x k. pres_loop. Qed.
#[global] Hint Extern 1 (pres _ (findLowerBoundNode _ _ _)) =>
  (apply findLowerBoundNode_pres; pres_tc) : frames.

Lemma findUpperBoundNode_pres {K V} R `{!Reflexive R, !Transitive R} fuel x (k : K) :
  pres R (findUpperBoundNode (K:=K) (V:=V) fuel x k).
Proof. revert fuel x k. pres_loop. Qed.
#[global] Hint Extern 1 (pres _ (findUpperBoundNode _ _ _)) =>
  (apply findUpperBoundNode_pres; pres_tc) : frames.

Lemma findFirstNode_pres {K V} R `{!Reflexive R, !Transitive R} fuel (k : K) :
  pres R (findFirstNode (K:=K) (V:=V) fuel k).
Proof. unfold findFirstNode, FindLowerBoundNode. pres_auto. Qed.
#[global] Hint Extern 1 (pres _ (findFirstNode _ _)) => (apply findFirstNode_pres; pres_tc) : frames.

Lemma findNode_loop_pres {K V} R `{!Reflexive R, !Transitive R} fuel x (k : K) :
  pres R (findNode_loop (K:=K) (V:=V) fuel x k).
Proof. revert fuel x k. pres_loop. Qed.
#[global] Hint Extern 1 (pres _ (findNode_loop _ _ _)) => (apply findNode_loop_pres; pres_tc) : frames.

Lemma Traversal_loop_pres {K V} R `{!Reflexive R, !Transitive R} {A} fuel
    (visitor : K → V → A → bool * A) n acc :
  pres R (Traversal_loop fuel visitor n acc).
Proof. revert fuel n acc. pres_loop. Qed.
#[global] Hint Extern 1 (pres _ (Traversal_loop _ _ _ _)) => (apply Traversal_loop_pres; pres_tc) : frames.

Lemma test_pres {K V} R `{!Reflexive R, !Transitive R} fuel n :
  pres R (test (K:=K) (V:=V) fuel n).
Proof. revert fuel n. pres_loop. Qed.
#[global] Hint Extern 1 (pres _ (test _ _)) => (apply test_pres; pres_tc) : frames.

(** *** Navigation reads the nodes only *)

Lemma minimum_heap_reader {K V} fuel n : heap_reader (minimum (K:=K) (V:=V) fuel n).
Proof. revert fuel n. pres_loop. Qed.
#[global] Hint Resolve minimum_heap_reader : frames.

Lemma maximum_heap_reader {K V} fuel n : heap_reader (maximum (K:=K) (V:=V) fuel n).
Proof. revert fuel n. pres_loop. Qed.
#[global] Hint Resolve maximum_heap_reader : frames.

Lemma successor_loop_heap_reader {K V} fuel x y :
  heap_reader (successor_loop (K:=K) (V:=V) fuel x y).
Proof. revert fuel x y. pres_loop. Qed.
#[global] Hint Resolve successor_loop_heap_reader : frames.

Lemma presuccessor_loop_heap_reader {K V} fuel x :
  heap_reader (presuccessor_loop (K:=K) (V:=V) fuel x).
Proof. revert fuel x. pres_loop. Qed.
#[global] Hint Resolve presuccessor_loop_heap_reader : frames.

Lemma Next_heap_reader {K V} fuel it : heap_reader (Next (K:=K) (V:=V) fuel it).
Proof. unfold Next, Node_Next, successor. pres_auto. Qed.

Lemma Prev_heap_reader {K V} fuel it : heap_reader (Prev (K:=K) (V:=V) fuel it).
Proof. unfold Prev, Node_Prev, presuccessor. pres_auto. Qed.

Lemma Key_heap_reader {K V} it : heap_reader (Key (K:=K) (V:=V) it).
Proof. unfold Key, Node_Key. pres_auto. Qed.

Lemma Value_heap_reader {K V} it : heap_reader (Value (K:=K) (V:=V) it).
Proof. unfold Value, Node_Value. pres_auto. Qed.

(** *** The writers keep the size and the comparator *)

Lemma leftRotate_fields {K V} x : pres same_fields (leftRotate (K:=K) (V:=V) x).
Proof. unfold leftRotate. pres_auto. Qed.
#[global] Hint Resolve leftRotate_fields : frames.

Lemma rightRotate_fields {K V} x : pres same_fields (rightRotate (K:=K) (V:=V) x).
Proof. unfold rightRotate. pres_auto. Qed.
#[global] Hint Resolve rightRotate_fields : frames.

Lemma rbFixupLeft_fields {K V} x p w : pres same_fields (rbFixupLeft (K:=K) (V:=V) x p w).
Proof. unfold rbFixupLeft. pres_auto. Qed.
#[global] Hint Resolve rbFixupLeft_fields : frames.

Lemma rbFixupRight_fields {K V} x p w : pres same_fields (rbFixupRight (K:=K) (V:=V) x p w).
Proof. unfold rbFixupRight. pres_auto. Qed.
#[global] Hint Resolve rbFixupRight_fields : frames.

Lemma rbDeleteFixup_loop_fields {K V} fuel x p w :
  pres same_fields (rbDeleteFixup_loop (K:=K) (V:=V) fuel x p w).
Proof. revert fuel x p w. pres_loop. Qed.
#[global] Hint Resolve rbDeleteFixup_loop_fields : frames.

Lemma rbDeleteFixup_fields {K V} fuel x p :
  pres same_fields (rbDeleteFixup (K:=K) (V:=V) fuel x p).
Proof. unfold rbDeleteFixup. pres_auto. Qed.
#[global] Hint Resolve rbDeleteFixup_fields : frames.

Lemma rbInsertFixup_loop_fields {K V} fuel z :
  pres same_fields (rbInsertFixup_loop (K:=K) (V:=V) fuel z).
Proof. revert fuel z. pres_loop. Qed.
#[global] Hint Resolve rbInsertFixup_loop_fields : frames.

Lemma rbInsertFixup_fields {K V} fuel z :
  pres same_fields (rbInsertFixup (K:=K) (V:=V) fuel z).
Proof. unfold rbInsertFixup. pres_auto. Qed.
#[global] Hint Resolve rbInsertFixup_fields : frames.

(** [Delete] up to its last statement, [t.size--]. *)
Lemma Delete_counts {K V} fuel a (s s' : RbTree K V) :
  Delete fuel (Some a) s = Ok (tt, s') →
  size s' = int_wrap (size s - 1) ∧ keyCmp s' = keyCmp s.
Proof.
  set (R := λ s s' : RbTree K V, size s' = int_wrap (size s - 1) ∧ keyCmp s' = keyCmp s).
  assert (∀ s1 s2 s3 : RbTree K V, same_fields s1 s2 → R s2 s3 → R s1 s3) as HR.
  { intros s1 s2 s3 [H1 H2] [H3 H4]. split; congruence. }
  enough (pres R (Delete fuel (Some a))) as H by (intros Hrun; exact (H s tt s' Hrun)).
  clear s s'.
  unfold Delete. simpl.
  do 12 (apply pres_bind_left; [exact HR|pres_auto|intros ?]).
  intros s [] s' [= <-]. done.
Qed.

(** [Insert] around its statement [t.size++]. *)
Lemma Insert_counts {K V} fuel (k : K) (v : V) (s s' : RbTree K V) :
  Insert fuel k v s = Ok (tt, s') →
  size s' = int_wrap (size s + 1) ∧ keyCmp s' = keyCmp s.
Proof.
  set (R := λ s s' : RbTree K V, size s' = int_wrap (size s + 1) ∧ keyCmp s' = keyCmp s).
  assert (∀ s1 s2 s3 : RbTree K V, same_fields s1 s2 → R s2 s3 → R s1 s3) as HR.
  { intros s1 s2 s3 [H1 H2] [H3 H4]. split; congruence. }
  enough (pres R (Insert fuel k v)) as H by (intros Hrun; exact (H s tt s' Hrun)).
  clear s s'.
  unfold Insert.
  do 3 (apply pres_bind_left; [exact HR|pres_auto|intros ?]).
  intros s [] s'. unfold bind at 1 2. simpl. intros Hrest.
  match type of Hrest with ?m ?s0 = _ =>
    assert (pres same_fields m) as Hm by pres_auto;
    destruct (Hm _ _ _ Hrest) as [H1 H2] end.
  split; [by rewrite H1|by rewrite H2].
Qed.

(** X16.  [Clear()] empties the tree and keeps its hands off the nodes.
    From a tree reached through the public methods it returns in a tree
    that is again such a tree and has no live entry: [Size()] is 0,
    [Empty()] is true, [First()] and [Last()] are nil and [Find] reports
    not-found for every key.  The nodes stay linked as they were: a cursor
    kept from before steps with [Next] and [Prev] and reads with [Key] and
    [Value] exactly as it did before the call. *)
Theorem X16_clear_empties_the_tree {K V} (s : RbTree K V) (k : K) (zero : V) :
  reachable s →
  ∃ s', Clear s = Ok (tt, s')
    ∧ reachable s' ∧ entries s' []
    ∧ Size s' = Ok (0, s') ∧ Empty s' = Ok (true, s')
    ∧ returns First s' None s' ∧ returns Last s' None s'
    ∧ returns (λ fuel, Find zero fuel k) s' (zero, Some ErrorNotFound) s'
    ∧ heap s' = heap s ∧ keyCmp s' = keyCmp s
    ∧ (∀ it r, returns (λ fuel, Next fuel it) s r s → returns (λ fuel, Next fuel it) s' r s')
    ∧ (∀ it r, returns (λ fuel, Prev fuel it) s r s → returns (λ fuel, Prev fuel it) s' r s')
    ∧ (∀ it k0, Key it s = Ok (k0, s) → Key it s' = Ok (k0, s'))
    ∧ (∀ it v0, Value it s = Ok (v0, s) → Value it s' = Ok (v0, s')).
Proof.
  intros Hr. destruct (Clear_step s) as (s' & Hrun & HW & Hcmp).
  assert (heap s' = heap s ∧ root s' = None ∧ size s' = 0) as (Hh & Hroot & Hsz).
  { unfold Clear, bind, set_root, set_size in Hrun. by simplify_eq. }
  exists s'. split_and!; try done.
  - by eapply reach_Clear.
  - by apply (WF_entries _ _ HW).
  - unfold Size, get_size. by rewrite Hsz.
  - unfold Empty, bind, get_size, ret. by rewrite Hsz.
  - exists 0%nat. intros fuel _. unfold First, bind, get_root. by rewrite Hroot.
  - exists 0%nat. intros fuel _. unfold Last, bind, get_root. by rewrite Hroot.
  - exists 1%nat. intros [|fuel] Hle; [lia|].
    unfold Find, findFirstNode, FindLowerBoundNode, bind, get_root. rewrite Hroot. done.
  - intros it r. apply heap_reader_returns; [intros fuel; apply Next_heap_reader|done].
  - intros it r. apply heap_reader_returns; [intros fuel; apply Prev_heap_reader|done].
  - intros it k0 Hk. rewrite (Key_heap_reader it s s' Hh), Hk. done.
  - intros it v0 Hv. rewrite (Value_heap_reader it s s' Hh), Hv. done.
Qed.

Lemma X16_witness :
  ∃ s', Clear tree1357 = Ok (tt, s')
    ∧ reachable s' ∧ entries s' []
    ∧ Size s' = Ok (0, s') ∧ Empty s' = Ok (true, s')
    ∧ returns First s' None s' ∧ returns Last s' None s'
    ∧ returns (λ fuel, Find 0 fuel 3) s' (0, Some ErrorNotFound) s'
    ∧ heap s' = heap tree1357 ∧ keyCmp s' = keyCmp tree1357
    ∧ (∀ it r, returns (λ fuel, Next fuel it) tree1357 r tree1357 →
         returns (λ fuel, Next fuel it) s' r s')
    ∧ (∀ it r, returns (λ fuel, Prev fuel it) tree1357 r tree1357 →
         returns (λ fuel, Prev fuel it) s' r s')
    ∧ (∀ it k0, Key it tree1357 = Ok (k0, tree1357) → Key it s' = Ok (k0, s'))
    ∧ (∀ it v0, Value it tree1357 = Ok (v0, tree1357) → Value it s' = Ok (v0, s')).
Proof. apply (X16_clear_empties_the_tree tree1357 3 0). exact tree1357_reachable. Defined.

(** X17.  The lookups, the navigation and the checker never write: on
    every store, whenever [Find], [FindNode], [FindLowerBoundNode],
    [FindUpperBoundNode], [findNode], [First], [Begin], [Last], [RBegin],
    [IterFirst], [IterLast], [Next], [Prev], [Key], [Value], [Size],
    [Empty], [Compare], [Traversal] (with a visitor that does not call
    into the tree) or [IsRbTree] returns, the store is as it was. *)
Theorem X17_lookups_do_not_write {K V A} (fuel : nat) (k k' : K) (zero : V)
    (it : RbTreeIterator) (visitor : K → V → A → bool * A) (acc : A) :
  read_only (Find zero fuel k)
  ∧ read_only (FindNode (V:=V) fuel k)
  ∧ read_only (FindLowerBoundNode (V:=V) fuel k)
  ∧ read_only (FindUpperBoundNode (V:=V) fuel k)
  ∧ read_only (findNode (V:=V) fuel k)
  ∧ read_only (First (K:=K) (V:=V) fuel) ∧ read_only (Begin (K:=K) (V:=V) fuel)
  ∧ read_only (Last (K:=K) (V:=V) fuel) ∧ read_only (RBegin (K:=K) (V:=V) fuel)
  ∧ read_only (IterFirst (K:=K) (V:=V) fuel) ∧ read_only (IterLast (K:=K) (V:=V) fuel)
  ∧ read_only (Next (K:=K) (V:=V) fuel it) ∧ read_only (Prev (K:=K) (V:=V) fuel it)
  ∧ read_only (Key (K:=K) (V:=V) it) ∧ read_only (Value (K:=K) (V:=V) it)
  ∧ read_only (Size (K:=K) (V:=V)) ∧ read_only (Empty (K:=K) (V:=V))
  ∧ read_only (Compare (V:=V) k k')
  ∧ read_only (Traversal fuel visitor acc)
  ∧ read_only (IsRbTree (K:=K) (V:=V) fuel).
Proof.
  split_and!; apply read_only_pres;
    unfold Find, FindNode, FindLowerBoundNode, FindUpperBoundNode, findNode, Begin, RBegin,
      IterFirst, IterLast, Next, Prev, Key, Value, Size, Empty, Compare, Traversal, IsRbTree;
    pres_auto.
Qed.

(** X18.  The size counter is kept blindly.  On every store, in the tree or
    not: when [Delete(node)] returns for a node that is not nil, [size] is
    one less than before (wrapping at 64 bits), and when [Insert] returns it
    is one more; neither changes the comparator.  A node deleted a second
    time is counted out a second time. *)
Theorem X18_size_counter_is_blind {K V} (fuel : nat) (s s' : RbTree K V) :
  (∀ a, Delete fuel (Some a) s = Ok (tt, s') →
     size s' = int_wrap (size s - 1) ∧ keyCmp s' = keyCmp s)
  ∧ (∀ k v, Insert fuel k v s = Ok (tt, s') →
       size s' = int_wrap (size s + 1) ∧ keyCmp s' = keyCmp s).
Proof.
  split; [intros a; apply Delete_counts|intros k v; apply Insert_counts].
Qed.

Lemma X18_witness :
  size deleted_once = 3 ∧ size deleted_twice = int_wrap (size deleted_once - 1)
  ∧ keyCmp deleted_twice = keyCmp deleted_once.
Proof.
  split; [vm_compute; reflexivity|].
  apply (proj1 (X18_size_counter_is_blind 8 deleted_once deleted_twice) 4%positive).
  vm_compute. reflexivity.
Defined.
